(** * json-view: lazy tree materialisation and [$ref] resolution

    A shallow embedding of [src/json-view.js].

    - The node objects of the program form a finite tree that is mutated in
      place: every node is held by the [children] array of one parent, and
      every line element by the [el] of one node.  The embedding keeps the
      tree as a rose tree of records, with the line element inside the node
      that owns it, and passes the mutated tree along.  Object identity, needed
      for the [parent] back-reference and for what the page holds, is an
      allocation stamp drawn from a counter in the [world].
    - An exception of the JavaScript run time is the [Throw] result of the
      type [res]; what the program had changed before it threw is not kept.
    - [setTimeout] is not modelled: the function handed to it runs right
      after the code that schedules it.
    - A string is a sequence of 8-bit characters, a number an integer, and a
      property lookup sees own properties only. *)

From Stdlib Require Import List String Ascii Bool Arith Lia ZArith.
From Stdlib Require Import DecimalString DecimalNat.
Import ListNotations.
Local Open Scope string_scope.
Local Open Scope list_scope.

Set Implicit Arguments.

(** ** JavaScript values *)

(** The values the program handles: what [JSON.parse] returns, plus
    [undefined], which a property lookup yields for a missing member.
    Numbers are only carried around, never computed on, so an integer
    carrier is enough.  An object is its list of own enumerable properties
    in [for ... in] order. *)
Unset Elimination Schemes.
Inductive jsval : Type :=
| Undefined
| Null
| Bool (b : bool)
| Num (z : Z)
| Str (s : string)
| Arr (items : list jsval)
| Obj (members : list (string * jsval)).
Set Elimination Schemes.

(** JavaScript's [typeof]. *)
Definition typeof (v : jsval) : string :=
  match v with
  | Undefined => "undefined"
  | Null => "object"
  | Bool _ => "boolean"
  | Num _ => "number"
  | Str _ => "string"
  | Arr _ => "object"
  | Obj _ => "object"
  end.

(** Modelled from the spec: [utils/getDataType.js] is imported by the source
    but is not part of it; the spec describes it as the type classifier that
    maps a value to one of null, boolean, number, string, array, object. *)
Definition getDataType (v : jsval) : string :=
  match v with
  | Null => "null"
  | Arr _ => "array"
  | Obj _ => "object"
  | _ => typeof v
  end.

Definition string_of_nat (n : nat) : string :=
  NilEmpty.string_of_uint (Nat.to_uint n).

(** The double-quote character, for the two-character text that stands for
    an empty string value. *)
Definition dquote : string := String "034"%char EmptyString.

(** ** Results and state *)

Inductive exn : Type :=
| TypeError     (* property access on null or undefined, call of a non-function *)
| SyntaxError.  (* JSON.parse on malformed text: the spec's ParseError *)

Inductive res (A : Type) : Type :=
| Ok (a : A)
| Throw (e : exn).
Arguments Throw {A} e.

(** Computations over a state [S] that may throw. *)
Definition M (S A : Type) : Type := S -> res (A * S).

Definition ret {S A} (a : A) : M S A := fun s => Ok (a, s).
Definition throw {S A} (e : exn) : M S A := fun _ => Throw e.
Definition bind {S A B} (c : M S A) (k : A -> M S B) : M S B :=
  fun s => match c s with
           | Ok (a, s') => k a s'
           | Throw e => Throw e
           end.
Definition lift {S A} (r : res A) : M S A :=
  fun s => match r with Ok a => Ok (a, s) | Throw e => Throw e end.

Declare Scope js_scope.
Delimit Scope js_scope with js.
Notation "x <- c ;; k" := (bind c (fun x => k))
  (at level 61, c at next level, right associativity) : js_scope.
Notation "' p <- c ;; k" := (bind c (fun x => match x with p => k end))
  (at level 61, p pattern, c at next level, right associativity) : js_scope.
Local Open Scope js_scope.

Definition rbind {A B} (r : res A) (k : A -> res B) : res B :=
  match r with Ok a => k a | Throw e => Throw e end.

(** ** The view: line elements *)

Inductive caret : Type := CaretRight | CaretDown.

(** What the two templates put into a line. *)
Inductive line : Type :=
| ExpandedLine (icon : caret) (cursor : string)
               (key : option string) (size : option string)
| NotExpandedLine (key : option string) (value : jsval) (type : string).

(** A [div.line]: [uid] is its identity, [hidden] the presence of the
    [hidden] class, [margin_left] the pixels of its inline style. *)
Record element : Type := mkElement {
  uid : nat;
  hidden : bool;
  margin_left : nat;
  content : line
}.

(** ** Nodes *)

(** The properties of a node object other than [children].  [oid] is the
    identity of the object, not a property of it; [parent] holds the [oid] of
    the parent object, [None] standing for [null]. *)
Record fields : Type := mkFields {
  oid : nat;
  key : option string;
  parent : option nat;
  value : jsval;
  isExpanded : bool;
  type : option string;
  el : option element;
  depth : nat;
  dispose : option nat;
  isPending : bool;
  parsedData : jsval
}.

Unset Elimination Schemes.
Inductive node : Type :=
| Node (f : fields) (children : list node).
Set Elimination Schemes.

Definition fields_of (n : node) : fields := let 'Node f _ := n in f.
Definition children (n : node) : list node := let 'Node _ cs := n in cs.
Coercion fields_of : node >-> fields.

Section node_induction.
Variable P : node -> Prop.
Hypothesis step : forall f cs, Forall P cs -> P (Node f cs).

Fixpoint node_ind (n : node) : P n :=
  match n with
  | Node f cs =>
      step f ((fix all (l : list node) : Forall P l :=
                 match l with
                 | [] => Forall_nil P
                 | c :: r => Forall_cons c (node_ind c) (all r)
                 end) cs)
  end.
End node_induction.

Section jsval_induction.
Variable P : jsval -> Prop.
Hypothesis Pundef : P Undefined.
Hypothesis Pnull : P Null.
Hypothesis Pbool : forall b, P (Bool b).
Hypothesis Pnum : forall z, P (Num z).
Hypothesis Pstr : forall s, P (Str s).
Hypothesis Parr : forall l, Forall P l -> P (Arr l).
Hypothesis Pobj : forall l, Forall (fun kv => P (snd kv)) l -> P (Obj l).

Fixpoint jsval_nested_ind (v : jsval) : P v :=
  match v with
  | Undefined => Pundef
  | Null => Pnull
  | Bool b => Pbool b
  | Num z => Pnum z
  | Str s => Pstr s
  | Arr l =>
      Parr ((fix all (l : list jsval) : Forall P l :=
               match l with
               | [] => Forall_nil P
               | x :: r => Forall_cons x (jsval_nested_ind x) (all r)
               end) l)
  | Obj l =>
      Pobj ((fix all (l : list (string * jsval))
               : Forall (fun kv => P (snd kv)) l :=
               match l with
               | [] => Forall_nil _
               | kv :: r =>
                   Forall_cons kv (jsval_nested_ind (snd kv)) (all r)
               end) l)
  end.
End jsval_induction.

(** Field updates, one per assignment the program makes. *)
Definition set_isExpanded (b : bool) (f : fields) : fields :=
  mkFields (oid f) (key f) (parent f) (value f) b (type f) (el f)
           (depth f) (dispose f) (isPending f) (parsedData f).
Definition set_el (e : option element) (f : fields) : fields :=
  mkFields (oid f) (key f) (parent f) (value f) (isExpanded f) (type f) e
           (depth f) (dispose f) (isPending f) (parsedData f).
Definition set_dispose (d : option nat) (f : fields) : fields :=
  mkFields (oid f) (key f) (parent f) (value f) (isExpanded f) (type f) (el f)
           (depth f) d (isPending f) (parsedData f).
Definition set_isPending (b : bool) (f : fields) : fields :=
  mkFields (oid f) (key f) (parent f) (value f) (isExpanded f) (type f) (el f)
           (depth f) (dispose f) b (parsedData f).
Definition set_parsedData (d : jsval) (f : fields) : fields :=
  mkFields (oid f) (key f) (parent f) (value f) (isExpanded f) (type f) (el f)
           (depth f) (dispose f) (isPending f) d.

(** [node.children.push(child)] *)
Definition push (n : node) (child : node) : node :=
  Node n (children n ++ [child]).

(** The node and all its descendants, in document order. *)
Fixpoint nodes (n : node) : list node :=
  match n with
  | Node _ cs =>
      n :: (fix each (l : list node) : list node :=
              match l with
              | [] => []
              | c :: r => nodes c ++ each r
              end) cs
  end.

Definition descendants (n : node) : list node := flat_map nodes (children n).

(** ** Building the tree *)

(** The option object handed to [createNode]; [None] is an absent
    property.  [isExpanded], [children] and [el] are never passed by the
    program and take their defaults. *)
Record options : Type := mkOptions {
  opt_value : option jsval;
  opt_key : option string;
  opt_depth : option nat;
  opt_type : option string;
  opt_parent : option nat;
  opt_isPending : option bool;
  opt_parsedData : option jsval
}.

(** [s || null] on a string that may be absent. *)
Definition string_or_null (o : option string) : option string :=
  match o with
  | Some "" => None
  | other => other
  end.

Definition isEmptyObject (v : jsval) : bool :=
  (getDataType v =? "object") &&
  match v with
  | Obj members => Nat.eqb (List.length members) 0
  | _ => false
  end.

(** [createNode(opt)].  [opt.isPending] and [opt.parsedData] are copied as
    they are; the program only tests [isPending] for truth, so a missing one
    is kept as [false]. *)
Definition createNode (opt : options) (new_oid : nat) : node :=
  let value := match opt_value opt with Some v => v | None => Null end in
  let value := if isEmptyObject value then Str "{}" else value in
  Node {| oid := new_oid;
          key := string_or_null (opt_key opt);
          parent := opt_parent opt;
          value := value;
          isExpanded := false;
          type := string_or_null (opt_type opt);
          el := None;
          depth := match opt_depth opt with Some d => d | None => 0 end;
          dispose := None;
          isPending := match opt_isPending opt with Some b => b | None => false end;
          parsedData := match opt_parsedData opt with Some d => d | None => Undefined end |}
       [].

(** The options of the child created for member [k] of the data of [nd]. *)
Definition child_options (nd : node) (pending : bool) (k : string) (v : jsval)
  : options :=
  {| opt_value := Some v;
     opt_key := Some k;
     opt_depth := Some (depth nd + 1);
     opt_type := Some (getDataType v);
     opt_parent := Some (oid nd);
     opt_isPending := Some pending;
     opt_parsedData := Some (parsedData nd) |}.

(** The body of [for (let key in data)]: the child is created, pushed and
    filled by the recursive call [fill], which stands for
    [createSubnode(data[key], child, late)]. *)
Section ForIn.
Variable fill : jsval -> node -> nat -> node * nat.
Variable pending : bool.

Definition add_child (k : string) (v : jsval) (nd : node) (next : nat)
  : node * nat :=
  let child := createNode (child_options nd pending k v) next in
  let (child, next) := fill v child (S next) in
  (push nd child, next).

(** Over the members of an object, in their order. *)
Fixpoint each_member (ms : list (string * jsval)) (nd : node) (next : nat)
  : node * nat :=
  match ms with
  | [] => (nd, next)
  | (k, v) :: rest =>
      let (nd, next) := add_child k v nd next in
      each_member rest nd next
  end.

(** Over the indices of an array, from [i] on. *)
Fixpoint each_index (vs : list jsval) (i : nat) (nd : node) (next : nat)
  : node * nat :=
  match vs with
  | [] => (nd, next)
  | v :: rest =>
      let (nd, next) := add_child (string_of_nat i) v nd next in
      each_index rest (S i) nd next
  end.
End ForIn.

(** [createSubnode(data, node, late)] with the allocation counter passed
    along; it returns the node with its new children.  [typeof null] is
    ["object"] too, and [for ... in] over [null] runs no iteration. *)
Fixpoint createSubnode (data : jsval) (nd : node) (late : bool) (next : nat)
  {struct data} : node * nat :=
  let pending := (1 <? depth nd)%nat && negb late in
  match data with
  | Obj members =>
      each_member (fun v child next => createSubnode v child late next)
                  pending members nd next
  | Arr items =>
      each_index (fun v child next => createSubnode v child late next)
                 pending items 0 nd next
  | _ => (nd, next)
  end.

Section Build.

(** [JSON.parse] belongs to the platform, not to the program: [None] is
    its [SyntaxError]. *)
Variable JSON_parse : string -> option jsval.

Definition getJsonObject (data : jsval) : res jsval :=
  match data with
  | Str text =>
      match JSON_parse text with
      | Some v => Ok v
      | None => Throw SyntaxError
      end
  | _ => Ok data
  end.

Definition create (jsonData : jsval) (next : nat) : res (node * nat) :=
  rbind (getJsonObject jsonData) (fun parsedData =>
    let rootNode :=
      createNode {| opt_value := Some parsedData;
                    opt_key := Some (getDataType parsedData);
                    opt_depth := None;
                    opt_type := Some (getDataType parsedData);
                    opt_parent := None;
                    opt_isPending := Some false;
                    opt_parsedData := None |} next in
    let rootNode := Node (set_parsedData parsedData rootNode) (children rootNode) in
    Ok (createSubnode parsedData rootNode false (S next))).

End Build.

(** ** Strings *)

(** [s.replace(/\//g, "|")] *)
Fixpoint replace_slashes (s : string) : string :=
  match s with
  | EmptyString => EmptyString
  | String c rest =>
      String (if Ascii.eqb c "/" then "|"%char else c) (replace_slashes rest)
  end.

(** [s.replace(/~1/g, "/")]: matches are taken left to right and do not
    overlap. *)
Fixpoint replace_tilde1 (s : string) : string :=
  match s with
  | EmptyString => EmptyString
  | String c rest =>
      match rest with
      | String d rest' =>
          if Ascii.eqb c "~" && Ascii.eqb d "1"
          then String "/" (replace_tilde1 rest')
          else String c (replace_tilde1 rest)
      | EmptyString => String c EmptyString
      end
  end.

(** [s.split("|")] for a one-character separator. *)
Fixpoint split (sep : ascii) (s : string) : list string :=
  match s with
  | EmptyString => [EmptyString]
  | String c rest =>
      if Ascii.eqb c sep then EmptyString :: split sep rest
      else match split sep rest with
           | part :: parts => String c part :: parts
           | [] => [String c EmptyString]
           end
  end.

(** [s.replace(c, by)] with a one-character string pattern: only the first
    occurrence is replaced. *)
Fixpoint replace_first (c : ascii) (by_ : string) (s : string) : string :=
  match s with
  | EmptyString => EmptyString
  | String x rest =>
      if Ascii.eqb x c then (by_ ++ rest)%string else String x (replace_first c by_ rest)
  end.

(** ** Property lookup *)

(** [obj[k]] on own properties of an object. *)
Fixpoint member (k : string) (ms : list (string * jsval)) : jsval :=
  match ms with
  | [] => Undefined
  | (k', v) :: rest => if k' =? k then v else member k rest
  end.

(** The index a property name denotes in an array of the given length. *)
Definition array_index (k : string) (len : nat) : option nat :=
  find (fun i => string_of_nat i =? k) (seq 0 len).

(** [v[k]].  Own properties only: what a lookup would find on a prototype
    ([toString], [constructor], ...) is outside the model and reads as
    [undefined]. *)
Definition get_property (v : jsval) (k : string) : res jsval :=
  match v with
  | Undefined | Null => Throw TypeError
  | Obj ms => Ok (member k ms)
  | Arr items =>
      Ok (if k =? "length" then Num (Z.of_nat (List.length items))
          else match array_index k (List.length items) with
               | Some i => nth i items Undefined
               | None => Undefined
               end)
  | Str s =>
      Ok (if k =? "length" then Num (Z.of_nat (String.length s))
          else match array_index k (String.length s) with
               | Some i => Str (substring i 1 s)
               | None => Undefined
               end)
  | Bool _ | Num _ => Ok Undefined
  end.

(** A property name taken from an array slot that may be missing:
    [obj[undefined]] reads the property named ["undefined"]. *)
Definition property_name (o : option string) : string :=
  match o with
  | Some s => s
  | None => "undefined"
  end.

(** ** Reference resolution *)

Definition resolveref (nd : node) : res jsval :=
  match children nd with
  | [] => Throw TypeError
  | first :: _ =>
      match value first with
      | Str pointer =>
          let parts := split "|" (replace_tilde1 (replace_slashes pointer)) in
          rbind (get_property (parsedData nd) (property_name (nth_error parts 1)))
                (fun target =>
                   get_property target (property_name (nth_error parts 2)))
      | _ => Throw TypeError
      end
  end.

(** [children.splice(0, 1)] *)
Definition splice_first (nd : node) : node := Node nd (tl (children nd)).

Definition extendNodeElementByRef (nd : node) (next : nat) : res (node * nat) :=
  rbind (resolveref nd) (fun parsedData =>
    let (nd, next) := createSubnode parsedData nd false next in
    Ok (splice_first nd, next)).

Definition countElements (obj : jsval) : nat :=
  match obj with
  | Obj ms => List.length ms
  | Arr items => List.length items
  | Str s => String.length s
  | _ => 0
  end.

(** ** The page *)

(** The elements below the target element: lines by their [uid], and the
    [div.json-container] elements that hold them. *)
Unset Elimination Schemes.
Inductive dom : Type :=
| Line (u : nat)
| Container (items : list dom).
Set Elimination Schemes.

Record world : Type := mkWorld {
  next_oid : nat;         (* node objects allocated so far *)
  next_uid : nat;         (* line elements created so far *)
  page : list dom         (* children of the target element *)
}.

(** [old.replaceWith(new)] for the line [u], wherever it is attached. *)
Fixpoint replaceWith (u : nat) (new : dom) (d : dom) : dom :=
  match d with
  | Line u' => if Nat.eqb u' u then new else d
  | Container items => Container (map (replaceWith u new) items)
  end.

Definition key_is (k : string) (f : fields) : bool :=
  match key f with
  | Some k' => k' =? k
  | None => false
  end.

Definition getSizeString (nd : node) : option string :=
  let len := string_of_nat (List.length (children nd)) in
  match type nd with
  | None => None
  | Some t =>
      if t =? "array" then Some ("[" ++ len ++ "]")%string
      else if t =? "object" then Some ("{" ++ len ++ "}")%string
      else None
  end.

(** Modelled from the spec: [utils/dom.js] is imported by the source but is
    not part of it.  The spec names what it provides: [element(tag)] creates
    an element, and [listen(element, eventName, handler)] subscribes the
    handler and returns the handle that unsubscribes it.  Here a created
    element takes the next [uid], and the handle of a listener is the [uid] of
    the line whose caret it sits on. *)
Definition dom_element : M world nat :=
  fun w => Ok (next_uid w, mkWorld (next_oid w) (S (next_uid w)) (page w)).

Definition listen (caretLine : nat) : option nat := Some caretLine.

(** [createNodeElement(node)]: the new line, and the node's properties
    after [node.dispose = listen(...)]. *)
Definition createNodeElement (nd : node) : M world (element * fields) :=
  fun w =>
    match dom_element w with
    | Ok (u, w) =>
        let container := (0 <? List.length (children nd))%nat in
        let body :=
          if container
          then ExpandedLine CaretRight "" (key nd) (getSizeString nd)
          else NotExpandedLine
                 (key nd)
                 (match value nd with
                  | Str EmptyString => Str (dquote ++ dquote)%string
                  | v => v
                  end)
                 (match value nd with
                  | Str s => if s =? "{}" then "object" else "string"
                  | v => typeof v
                  end) in
        let lineEl :=
          {| uid := u;
             hidden := match parent nd with Some _ => true | None => false end;
             margin_left := depth nd * 18;
             content := body |} in
        Ok ((lineEl, if container then set_dispose (listen u) nd else fields_of nd),
            w)
    | Throw x => Throw x
    end.

(** ** Walking the tree *)

(** A callback of [traverse] gets the node it visits.  The callback of
    [render] also follows [node.parent] and writes to the parent's
    element, so a callback is given the parent the walk came from ([None]
    at the node the walk starts at) and returns that parent's properties
    together with those of the visited node. *)
Definition callback (S : Type) : Type :=
  option node -> node -> M S (option fields * fields).

(** [children.forEach(visit)] where a visit may write to the parent: [f]
    holds the parent's properties as they are when a child is reached. *)
Fixpoint forEach_below {S} (visit : fields -> node -> M S (option fields * node))
  (l : list node) (f : fields) : M S (fields * list node) :=
  match l with
  | [] => ret (f, [])
  | child :: rest =>
      '(f', child) <- visit f child ;;
      '(f, rest) <- forEach_below visit rest
                      (match f' with Some f' => f' | None => f end) ;;
      ret (f, child :: rest)
  end.

Fixpoint traverse {S} (cb : callback S) (up : option node) (nd : node)
  : M S (option fields * node) :=
  match nd with
  | Node f cs =>
      '(up', f) <- cb up nd ;;
      '(f, cs') <- forEach_below
                     (fun f child => traverse cb (Some (Node f cs)) child) cs f ;;
      ret (up', Node f cs')
  end.

(** A callback that touches the visited node only. *)
Definition local {S} (cb : node -> M S fields) : callback S :=
  fun up nd => f <- cb nd ;; ret (option_map fields_of up, f).

(** The walk for such a callback, without the parent. *)
Fixpoint forEach {S A B} (visit : A -> M S B) (l : list A) : M S (list B) :=
  match l with
  | [] => ret []
  | child :: rest =>
      child <- visit child ;;
      rest <- forEach visit rest ;;
      ret (child :: rest)
  end.

Fixpoint walk {S} (cb : node -> M S fields) (nd : node) : M S node :=
  match nd with
  | Node f cs =>
      f <- cb nd ;;
      cs <- forEach (walk cb) cs ;;
      ret (Node f cs)
  end.

(** ** Showing and hiding *)

(** [el.classList.add("hidden")] and [el.classList.remove("hidden")]; the
    access fails when [el] is [null]. *)
Definition classList_hidden (b : bool) (e : option element) : res element :=
  match e with
  | None => Throw TypeError
  | Some e => Ok (mkElement (uid e) b (margin_left e) (content e))
  end.

Definition caret_eqb (a b : caret) : bool :=
  match a, b with
  | CaretRight, CaretRight | CaretDown, CaretDown => true
  | _, _ => false
  end.

(** [icon.classList.replace(from, to)] on the [i.fas] of a line, if the
    line has one. *)
Definition replace_icon (from to : caret) (e : element) : element :=
  match content e with
  | ExpandedLine icon cursor k size =>
      mkElement (uid e) (hidden e) (margin_left e)
        (ExpandedLine (if caret_eqb icon from then to else icon) cursor k size)
  | NotExpandedLine _ _ _ => e
  end.

Definition setCaretIconDown (nd : node) : res fields :=
  if (0 <? List.length (children nd))%nat then
    match el nd with
    | None => Throw TypeError
    | Some e => Ok (set_el (Some (replace_icon CaretRight CaretDown e)) nd)
    end
  else Ok (fields_of nd).

Definition setCaretIconRight (nd : node) : res fields :=
  if (0 <? List.length (children nd))%nat then
    match el nd with
    | None => Throw TypeError
    | Some e => Ok (set_el (Some (replace_icon CaretDown CaretRight e)) nd)
    end
  else Ok (fields_of nd).

(** [l.forEach(visit)] for a visit that may throw. *)
Fixpoint forEach_res {A B} (visit : A -> res B) (l : list A) : res (list B) :=
  match l with
  | [] => Ok []
  | child :: rest =>
      rbind (visit child) (fun child =>
      rbind (forEach_res visit rest) (fun rest =>
      Ok (child :: rest)))
  end.

(** [hideNodeChildren(node)] leaves the properties of [node] itself alone,
    so the recursive call on a child is made on the child as it was and the
    child's new element is put in afterwards. *)
Fixpoint hideNodeChildren (nd : node) : res node :=
  match nd with
  | Node f cs =>
      rbind (forEach_res
               (fun child : node =>
                  rbind (classList_hidden true (el child)) (fun e =>
                  rbind (if isExpanded child then hideNodeChildren child
                         else Ok child) (fun child' =>
                  Ok (Node (set_el (Some e) child') (children child')))))
               cs)
            (fun cs' => Ok (Node f cs'))
  end.

Fixpoint showNodeChildren (nd : node) : res node :=
  match nd with
  | Node f cs =>
      rbind (forEach_res
               (fun child : node =>
                  rbind (classList_hidden false (el child)) (fun e =>
                  rbind (if isExpanded child then showNodeChildren child
                         else Ok child) (fun child' =>
                  Ok (Node (set_el (Some e) child') (children child')))))
               cs)
            (fun cs' => Ok (Node f cs'))
  end.

(** ** Programmatic expand and collapse *)

Definition run_pure {A} (c : M unit A) : res A :=
  match c tt with
  | Ok (a, _) => Ok a
  | Throw e => Throw e
  end.

Definition expand_visit (child : node) : res fields :=
  rbind (classList_hidden false (el child)) (fun e =>
  setCaretIconDown
    (Node (set_isExpanded true (set_el (Some e) child)) (children child))).

Definition expand (nd : node) : res node :=
  run_pure ('(_, nd) <- traverse (local (fun child => lift (expand_visit child)))
                                 None nd ;;
            ret nd).

Definition collapse_visit (nd : node) (child : node) : res fields :=
  let f := set_isExpanded false child in
  rbind (if (depth nd <? depth child)%nat
         then rbind (classList_hidden true (el child))
                    (fun e => Ok (set_el (Some e) f))
         else Ok f) (fun f =>
  setCaretIconRight (Node f (children child))).

Definition collapse (nd : node) : res node :=
  run_pure ('(_, nd') <- traverse (local (fun child => lift (collapse_visit nd child)))
                                  None nd ;;
            ret nd').

(** ** Interactive toggle *)

(** [caretEl] is named by the [uid] of the line it sits in
    ([caretEl.parentElement]).  Its [style.cursor] is part of the model as
    long as that line is the node's current element. *)
Definition caret_cursor (caretEl : nat) (nd : node) : string :=
  match el nd with
  | Some e =>
      if Nat.eqb (uid e) caretEl then
        match content e with
        | ExpandedLine _ cursor _ _ => cursor
        | NotExpandedLine _ _ _ => ""
        end
      else ""
  | None => ""
  end.

Definition set_caret_cursor (caretEl : nat) (c : string) (nd : node) : node :=
  match el nd with
  | Some e =>
      if Nat.eqb (uid e) caretEl then
        match content e with
        | ExpandedLine icon _ k size =>
            Node (set_el (Some (mkElement (uid e) (hidden e) (margin_left e)
                                  (ExpandedLine icon c k size))) nd)
                 (children nd)
        | NotExpandedLine _ _ _ => nd
        end
      else nd
  | None => nd
  end.

(** The callback of the walk that creates the elements of a pending
    subtree; the state carries the lines appended to [containerEl]. *)
Definition materialize_visit (nd : node) : M (world * list dom) fields :=
  fun s =>
    let (w, items) := s in
    match createNodeElement nd w with
    | Ok ((e, f), w) =>
        Ok (set_isPending false (set_el (Some e) f),
            (w, if negb (key_is "$ref" nd) then items ++ [Line (uid e)]
                else items))
    | Throw x => Throw x
    end.

(** The function given to [setTimeout] when the node was expanded. *)
Definition toggleNode_hide (caretEl : nat) (oldCaretCursor : string)
  (nd : node) : M world node :=
  nd <- lift (hideNodeChildren nd) ;;
  ret (set_caret_cursor caretEl oldCaretCursor nd).

(** The function given to [setTimeout] when the node was collapsed. *)
Definition toggleNode_show (caretEl : nat) (oldCaretCursor : string)
  (nd : node) : M world node :=
  nd <- match children nd with
        | [] => throw TypeError
        | first :: _ =>
            if isPending first then
              nd <- (if key_is "$ref" first then
                       fun w =>
                         match extendNodeElementByRef nd (next_oid w) with
                         | Ok (nd, next) =>
                             Ok (nd, mkWorld next (next_uid w) (page w))
                         | Throw x => Throw x
                         end
                     else ret nd) ;;
              fun w =>
                match traverse (local materialize_visit) None nd (w, []) with
                | Ok ((_, nd), (w, items)) =>
                    let w := mkWorld (next_oid w) (next_uid w)
                               (map (replaceWith caretEl (Container items))
                                    (page w)) in
                    lift (expand nd) w
                | Throw x => Throw x
                end
            else ret nd
        end ;;
  nd <- lift (showNodeChildren nd) ;;
  ret (set_caret_cursor caretEl oldCaretCursor nd).

(** [toggleNode(caretEl, node)].  The two timers run right after the part
    that precedes them: the 10 ms in between, in which other events could be
    handled, are not part of the model. *)
Definition toggleNode (caretEl : nat) (nd : node) : M world node :=
  let oldCaretCursor := caret_cursor caretEl nd in
  let nd := set_caret_cursor caretEl "wait" nd in
  if isExpanded nd then
    let nd := Node (set_isExpanded false nd) (children nd) in
    f <- lift (setCaretIconRight nd) ;;
    toggleNode_hide caretEl oldCaretCursor (Node f (children nd))
  else
    let nd := Node (set_isExpanded true nd) (children nd) in
    f <- lift (setCaretIconDown nd) ;;
    toggleNode_show caretEl oldCaretCursor (Node f (children nd)).

(** A click of the user on the caret of the node's line: the listener that
    [createNodeElement] registered runs [toggleNode] with that caret.  A
    line without caret has no listener, and a hidden line cannot be
    clicked. *)
Definition click (nd : node) : M world node :=
  match el nd with
  | Some e =>
      match content e with
      | ExpandedLine _ _ _ _ =>
          if hidden e then ret nd else toggleNode (uid e) nd
      | NotExpandedLine _ _ _ => ret nd
      end
  | None => ret nd
  end.

(** ** Rendering *)

(** [child.innerText = child.innerText.replace("1", count)] on
    [el.children[2]]: the [json-size] of a line with a caret, whose text is
    ["null"] when there is no size string; the separator of a line
    without. *)
Definition patch_size (count : nat) (e : element) : element :=
  match content e with
  | ExpandedLine icon cursor k size =>
      let text := match size with Some s => s | None => "null" end in
      mkElement (uid e) (hidden e) (margin_left e)
        (ExpandedLine icon cursor k
           (Some (replace_first "1" (string_of_nat count) text)))
  | NotExpandedLine _ _ _ => e
  end.

Definition render_visit : callback (world * list dom) :=
  fun up nd =>
    if negb (isPending nd) then
      fun s =>
        let (w, items) := s in
        match createNodeElement nd w with
        | Ok ((e, f), w) =>
            Ok ((option_map fields_of up, set_el (Some e) f),
                (w, items ++ [Line (uid e)]))
        | Throw x => Throw x
        end
    else if key_is "$ref" nd then
      match up with
      | None => throw TypeError
      | Some p =>
          parsedData <- lift (resolveref p) ;;
          match el p with
          | None => throw TypeError
          | Some e =>
              ret (Some (set_el (Some (patch_size (countElements parsedData) e)) p),
                   fields_of nd)
          end
      end
    else ret (option_map fields_of up, fields_of nd).

Definition render (tree : node) : M world node :=
  fun w =>
    match traverse render_visit None tree (w, []) with
    | Ok ((_, tree), (w, items)) =>
        Ok (tree, mkWorld (next_oid w) (next_uid w) (page w ++ [Container items]))
    | Throw x => Throw x
    end.

Section Render.

Variable JSON_parse : string -> option jsval.

Definition renderJSON (jsonData : jsval) : M world node :=
  fun w =>
    rbind (getJsonObject JSON_parse jsonData) (fun parsedData =>
    rbind (create JSON_parse parsedData (next_oid w)) (fun built =>
    let (tree, next) := built in
    render tree (mkWorld next (next_uid w) (page w)))).

End Render.

(** An empty page. *)
Definition blank : world := mkWorld 0 0 [].

(** ** Disposal *)

Section dom_induction.
Variable P : dom -> Prop.
Hypothesis Pline : forall u, P (Line u).
Hypothesis Pcontainer : forall items, Forall P items -> P (Container items).

Fixpoint dom_ind (d : dom) : P d :=
  match d with
  | Line u => Pline u
  | Container items =>
      Pcontainer ((fix all (l : list dom) : Forall P l :=
                     match l with
                     | [] => Forall_nil P
                     | x :: r => Forall_cons x (dom_ind x) (all r)
                     end) items)
  end.
End dom_induction.

(** Whether the line [u] is attached somewhere in an element. *)
Fixpoint attached (u : nat) (d : dom) : bool :=
  match d with
  | Line u' => Nat.eqb u' u
  | Container items => existsb (attached u) items
  end.

Definition is_line (u : nat) (d : dom) : bool :=
  match d with
  | Line u' => Nat.eqb u' u
  | Container _ => false
  end.

(** Modelled from the spec: [detach(element)] of [utils/dom.js], which is
    not part of the source, detaches an element from its parent.
    [detach_holder u d] is what is left of [d] when the container that holds
    the line [u] directly has been detached; a line that hangs directly below
    the target element stays, since detaching the target does not change what
    the target holds. *)
Fixpoint detach_holder (u : nat) (d : dom) : list dom :=
  match d with
  | Line _ => [d]
  | Container items =>
      if existsb (is_line u) items then []
      else [Container (flat_map (detach_holder u) items)]
  end.

(** The callback of the walk of [destroy]: [if (node.dispose)
    node.dispose()].  The state of the walk is the list of the handles
    released so far. *)
Definition dispose_visit (nd : node) : M (list nat) fields :=
  fun released =>
    Ok (fields_of nd,
        match dispose nd with
        | Some handle => released ++ [handle]
        | None => released
        end).

(** [destroy(tree)]; the result is the list of the handles released, in
    the order of the calls.  [tree.el.parentNode] is [null] for a line that is
    not attached, and that [detach] then throws like any access to [null] is
    taken from its description, not from its code. *)
Definition destroy (tree : node) : M world (list nat) :=
  fun w =>
    match traverse (local dispose_visit) None tree [] with
    | Ok (_, released) =>
        match el tree with
        | None => Throw TypeError
        | Some e =>
            if existsb (attached (uid e)) (page w)
            then Ok (released,
                     mkWorld (next_oid w) (next_uid w)
                       (flat_map (detach_holder (uid e)) (page w)))
            else Throw TypeError
        end
    | Throw x => Throw x
    end.

(** The handle of the listener on the caret of a node's line, if the node
    has a line with a caret. *)
Definition caret_of (n : node) : list nat :=
  match el n with
  | Some e =>
      match content e with
      | ExpandedLine _ _ _ _ => [uid e]
      | NotExpandedLine _ _ _ => []
      end
  | None => []
  end.

(** The handle a node holds, if it holds one. *)
Definition handle_of (f : fields) : list nat :=
  match dispose f with
  | Some handle => [handle]
  | None => []
  end.

(** ** Nodes inside a tree *)

(** The program holds references to node objects; in the tree a node is
    found by the indices of the children that lead to it from the root. *)
Fixpoint sub (p : list nat) (nd : node) : option node :=
  match p with
  | [] => Some nd
  | i :: p' =>
      match nth_error (children nd) i with
      | Some c => sub p' c
      | None => None
      end
  end.

(** Run an operation on the node at a path, the rest of the tree being
    left as it is. *)
Fixpoint at_path {St} (op : node -> M St node) (p : list nat) (nd : node)
  : M St node :=
  match p with
  | [] => op nd
  | i :: p' =>
      match nth_error (children nd) i with
      | Some c =>
          c' <- at_path op p' c ;;
          ret (Node nd (firstn i (children nd) ++ c' :: skipn (S i) (children nd)))
      | None => ret nd
      end
  end.

(** ** Shape of a built subtree *)

(** What [createSubnode] gives to a node it creates below a parent with
    properties [up]: depth, pending mark, back-reference and document are
    taken from the parent, nothing is shown yet, only an array or an object
    has children, and the same holds for its own children. *)
Fixpoint built (late : bool) (up : fields) (c : node) {struct c} : Prop :=
  match c with
  | Node f cs =>
      depth f = depth up + 1 /\
      isPending f = ((1 <? depth up)%nat && negb late) /\
      parent f = Some (oid up) /\
      parsedData f = parsedData up /\
      el f = None /\
      isExpanded f = false /\
      (cs <> [] -> type f = Some "array" \/ type f = Some "object") /\
      (fix all (l : list node) : Prop :=
         match l with
         | [] => True
         | x :: r => built late f x /\ all r
         end) cs
  end.

(** ** Sample inputs *)

(** A stand-in for [JSON.parse] that knows the three literal names, for the
    places where a concrete parser is needed. *)
Definition parse_literal (text : string) : option jsval :=
  if text =? "null" then Some Null
  else if text =? "true" then Some (Bool true)
  else if text =? "false" then Some (Bool false)
  else None.

(** [{"a": {"b": {"c": 1}}}] *)
Definition doc_chain : jsval :=
  Obj [("a", Obj [("b", Obj [("c", Num 1)])])].

(** [{"": 0, "k": "", "e": {}, "n": null, "f": false}] *)
Definition doc_falsy : jsval :=
  Obj [("", Num 0); ("k", Str ""); ("e", Obj []); ("n", Null); ("f", Bool false)].

(** [{"a": 1, "b": {"c": 2}}] *)
Definition doc_flat : jsval :=
  Obj [("a", Num 1); ("b", Obj [("c", Num 2)])].

(** JavaScript's falsy values. *)
Definition falsy (v : jsval) : bool :=
  match v with
  | Undefined | Null | Bool false | Num 0 | Str EmptyString => true
  | _ => false
  end.

(** [{"x": {"$ref": "#/defs/Y"}, "defs": {"Y": {"p": 1, "q": 2}}}] *)
Definition doc_ref : jsval :=
  Obj [("x", Obj [("$ref", Str "#/defs/Y")]);
       ("defs", Obj [("Y", Obj [("p", Num 1); ("q", Num 2)])])].

(** The same reference one level further down:
    [{"w": {"x": {"$ref": "#/defs/Y"}}, "defs": {"Y": {"p": 1, "q": 2}}}] *)
Definition doc_ref_deep : jsval :=
  Obj [("w", Obj [("x", Obj [("$ref", Str "#/defs/Y")])]);
       ("defs", Obj [("Y", Obj [("p", Num 1); ("q", Num 2)])])].


(** A sequence of clicks, each on the node at the given path. *)
Fixpoint clicks (ps : list (list nat)) (tree : node) : M world node :=
  match ps with
  | [] => ret tree
  | p :: rest => tree <- at_path click p tree ;; clicks rest tree
  end.

(** The text of the size label of a node's line, if it has one. *)
Definition size_label (nd : node) : option string :=
  match el nd with
  | Some e =>
      match content e with
      | ExpandedLine _ _ _ size => size
      | NotExpandedLine _ _ _ => None
      end
  | None => None
  end.

(** The node [x] of [doc_ref_deep] and the world, after [render] and the
    clicks that expand the root and [w]: a shown container whose one child is
    a pending placeholder. *)
Definition pending_sample : option (node * world) :=
  Eval vm_compute in
    match renderJSON parse_literal doc_ref_deep blank with
    | Ok (tree, w) =>
        match clicks [[]; [0]] tree w with
        | Ok (tree, w) =>
            match sub [0; 0] tree with
            | Some x => Some (x, w)
            | None => None
            end
        | Throw _ => None
        end
    | Throw _ => None
    end.

(** The state of [doc_flat] after [render] and three clicks: on the root, on
    [b], and on [b] again.  The root is expanded, [b] is collapsed. *)
Definition flat_sample : option (node * world) :=
  Eval vm_compute in
    match renderJSON parse_literal doc_flat blank with
    | Ok (tree, w) =>
        match clicks [[]; [1]; [1]] tree w with
        | Ok (tree, w) => Some (tree, w)
        | Throw _ => None
        end
    | Throw _ => None
    end.

(** Whether a character occurs in a string. *)
Fixpoint has_char (c : ascii) (s : string) : bool :=
  match s with
  | EmptyString => false
  | String x rest => Ascii.eqb x c || has_char c rest
  end.

(** The pointer ["#/<segment1>/<segment2>"]. *)
Definition pointer (segment1 segment2 : string) : string :=
  ("#/" ++ segment1 ++ "/" ++ segment2)%string.

(** Following the spec: [documentRoot[segment1][segment2]], each segment
    with every ["~1"] replaced by a slash. *)
Definition pointed_to (documentRoot : jsval) (segment1 segment2 : string)
  : res jsval :=
  rbind (get_property documentRoot (replace_tilde1 segment1))
        (fun target => get_property target (replace_tilde1 segment2)).

(** ** States of a subtree *)

(** The same tree with new properties for every node, each computed from
    the node as it was. *)
Fixpoint map_nodes (h : node -> fields) (nd : node) : node :=
  match nd with
  | Node f cs => Node (h nd) (map (map_nodes h) cs)
  end.


(** What the callbacks of [expand] and [collapse] leave of a node that has
    an element. *)
Definition opened (child : node) : fields :=
  match expand_visit child with
  | Ok f => f
  | Throw _ => fields_of child
  end.

Definition closed (nd : node) (child : node) : fields :=
  match collapse_visit nd child with
  | Ok f => f
  | Throw _ => fields_of child
  end.

Definition has_el (f : fields) : bool :=
  match el f with Some _ => true | None => false end.

(** Every node of the subtree has an element. *)
Fixpoint materialized (nd : node) : bool :=
  match nd with
  | Node f cs => has_el f && forallb materialized cs
  end.

Definition is_hidden (f : fields) : bool :=
  match el f with Some e => hidden e | None => true end.

Definition is_shown (f : fields) : bool :=
  match el f with Some e => negb (hidden e) | None => false end.

(** Every element below the node is hidden. *)
Fixpoint all_hidden_below (nd : node) : bool :=
  match nd with
  | Node _ cs => forallb (fun c : node => is_hidden c && all_hidden_below c) cs
  end.

(** The children are shown, and below a child everything is hidden if the
    child is collapsed and shown in the same way if it is expanded. *)
Fixpoint shown_as_flagged (nd : node) : bool :=
  match nd with
  | Node _ cs =>
      forallb (fun c : node => is_shown c &&
                        if isExpanded c then shown_as_flagged c
                        else all_hidden_below c) cs
  end.

(** The children have elements, and so have the children of every expanded
    child, and so on: the nodes [hideNodeChildren] and [showNodeChildren]
    touch. *)
Fixpoint reach_el (nd : node) : bool :=
  match nd with
  | Node _ cs =>
      forallb (fun c : node => has_el c && if isExpanded c then reach_el c else true) cs
  end.

(** Below a collapsed child everything is hidden already, and so below the
    collapsed children of every expanded child. *)
Fixpoint covered (nd : node) : bool :=
  match nd with
  | Node _ cs =>
      forallb (fun c : node => if isExpanded c then covered c else all_hidden_below c) cs
  end.

Definition with_hidden (b : bool) (f : fields) : fields :=
  match el f with
  | Some e => set_el (Some (mkElement (uid e) b (margin_left e) (content e))) f
  | None => f
  end.

(** The tree after the [hidden] class was set ([b = true]) or removed on
    the children and, through expanded children, further down. *)
Fixpoint sweep (b : bool) (nd : node) : node :=
  match nd with
  | Node f cs =>
      Node f (map (fun c : node => Node (with_hidden b c)
                                 (if isExpanded c then children (sweep b c)
                                  else children c)) cs)
  end.

(** The line of [e] with another caret icon. *)
Definition with_icon (icon : caret) (e : element) : element :=
  match content e with
  | ExpandedLine _ cursor k size =>
      mkElement (uid e) (hidden e) (margin_left e) (ExpandedLine icon cursor k size)
  | NotExpandedLine _ _ _ => e
  end.

(** The [isExpanded] flags of the descendants, in document order. *)
Definition flags (nd : node) : list bool :=
  map (fun d : node => isExpanded d) (descendants nd).

(** The node is expanded, not pending and shown, with the caret down if its
    line has one, and the line has a caret exactly when the node has
    children. *)
Definition open_line (n : node) : bool :=
  isExpanded n && negb (isPending n) &&
  match el n with
  | Some e =>
      negb (hidden e) &&
      match content e with
      | ExpandedLine icon _ _ _ =>
          caret_eqb icon CaretDown && negb (Nat.eqb (List.length (children n)) 0)
      | NotExpandedLine _ _ _ => Nat.eqb (List.length (children n)) 0
      end
  | None => false
  end.

(** The whole subtree is open. *)
Fixpoint open_all (nd : node) : bool :=
  match nd with
  | Node f cs => open_line nd && forallb open_all cs
  end.

(** Two trees of the same shape, the properties of every node of the second
    being related to the node at the same place in the first. *)
Unset Elimination Schemes.
Inductive pointwise (Q : node -> fields -> Prop) : node -> node -> Prop :=
| pointwise_node f cs f' cs' :
    Q (Node f cs) f' ->
    Forall2 (pointwise Q) cs cs' ->
    pointwise Q (Node f cs) (Node f' cs').
Set Elimination Schemes.

(** The line of the node is as [createNodeElement] makes it: with a caret
    exactly when the node has children; and the node is not pending. *)
Definition fresh_line (n : node) : bool :=
  negb (isPending n) &&
  match el n with
  | Some e =>
      match content e with
      | ExpandedLine _ _ _ _ => negb (Nat.eqb (List.length (children n)) 0)
      | NotExpandedLine _ _ _ => Nat.eqb (List.length (children n)) 0
      end
  | None => false
  end.

Fixpoint fresh_all (nd : node) : bool :=
  match nd with
  | Node f cs => fresh_line nd && forallb fresh_all cs
  end.

(** The properties the callback of the materializing walk gives to a
    node. *)
Definition created (n : node) (f' : fields) : Prop :=
  exists w e f w',
    createNodeElement n w = Ok ((e, f), w') /\
    f' = set_isPending false (set_el (Some e) f).

Section pointwise_induction.
Variable Q : node -> fields -> Prop.
Variable P : node -> node -> Prop.
Hypothesis step :
  forall f cs f' cs',
    Q (Node f cs) f' -> Forall2 (pointwise Q) cs cs' -> Forall2 P cs cs' ->
    P (Node f cs) (Node f' cs').

Fixpoint pointwise_ind nd nd' (H : pointwise Q nd nd') : P nd nd' :=
  match H with
  | @pointwise_node _ f cs f' cs' q all =>
      step q all
        ((fix each l l' (a : Forall2 (pointwise Q) l l') : Forall2 P l l' :=
            match a with
            | Forall2_nil _ => Forall2_nil P
            | @Forall2_cons _ _ _ x y _ _ hxy r =>
                Forall2_cons x y (pointwise_ind hxy) (each _ _ r)
            end) cs cs' all)
  end.
End pointwise_induction.


(** ** States a user can reach *)

(** A pending placeholder of a reference. *)
Definition placeholder (c : node) : bool := isPending c && key_is "$ref" c.

Definition no_placeholder (n : node) : bool :=
  forallb (fun c : node => negb (placeholder c)) (children n).

(** What holds of a node in every state reached by [render] and clicks:
    a pending node has no element; the children of an expanded node have
    elements and the first of them is not pending; below a collapsed node
    everything is hidden; only an array or an object has children; a line
    with a caret belongs to a node with children, and its size label is the
    one [getSizeString] gives now, unless a child is a pending placeholder. *)
Definition node_ok (n : node) : Prop :=
  (isPending n = true -> el n = None) /\
  (isExpanded n = true ->
   forallb (fun c : node => has_el c) (children n) = true /\
   match children n with
   | c0 :: _ => isPending c0 = false
   | [] => True
   end) /\
  (isExpanded n = false -> all_hidden_below n = true) /\
  (children n <> [] -> type n = Some "array" \/ type n = Some "object") /\
  (forall e icon cursor k size,
      el n = Some e -> content e = ExpandedLine icon cursor k size ->
      children n <> [] /\
      (no_placeholder n = true -> size = getSizeString n)).

Definition tree_ok (nd : node) : Prop := Forall node_ok (nodes nd).

(** The states reached from the rendering of a document by clicks on
    nodes of the tree. *)
Inductive reachable (parse : string -> option jsval) (jsonData : jsval)
  : node -> world -> Prop :=
| reach_render w0 tree w :
    renderJSON parse jsonData w0 = Ok (tree, w) ->
    reachable parse jsonData tree w
| reach_click tree w p tree' w' :
    reachable parse jsonData tree w ->
    at_path click p tree w = Ok (tree', w') ->
    reachable parse jsonData tree' w'.

(** The parent's properties after some children wrote their counts into its
    size label. *)
Inductive patched (f : fields) : fields -> Prop :=
| patched_none : patched f f
| patched_more f' e count :
    patched f f' -> el f' = Some e ->
    patched f (set_el (Some (patch_size count e)) f').

(** What a patch leaves of a line. *)
Definition same_line (e e' : element) : Prop :=
  uid e' = uid e /\ hidden e' = hidden e /\
  match content e with
  | ExpandedLine icon cursor k _ =>
      exists size', content e' = ExpandedLine icon cursor k size'
  | NotExpandedLine _ _ _ => content e' = content e
  end.

(** The interface of a node towards its parent. *)
Definition iface (c c' : node) : Prop :=
  key c' = key c /\ isPending c' = isPending c /\
  (has_el c = true -> has_el c' = true).

(** A node as the build leaves it: without element, collapsed, its
    children of the [built] shape. *)
Definition raw (late : bool) (nd : node) : Prop :=
  el nd = None /\ isExpanded nd = false /\
  (children nd <> [] -> type nd = Some "array" \/ type nd = Some "object") /\
  Forall (built late nd) (children nd).

(** What [render] has made of the subtree of a node when its walk leaves
    it, and what it has done to the parent it came from. *)
Definition render_post (up : option node) (nd : node)
  (up' : option fields) (nd' : node) : Prop :=
  tree_ok nd' /\ iface nd nd' /\ isExpanded nd' = false /\
  (parent nd <> None -> is_hidden nd' = true) /\
  forall p, up = Some p ->
    exists f'', up' = Some f'' /\
      (f'' = fields_of p \/
       (placeholder nd = true /\
        exists e count,
          el p = Some e /\ f'' = set_el (Some (patch_size count e)) p)).

(** Properties that differ at most in what showing, hiding and toggling
    change: the flags, the [hidden] class, the caret icon and cursor. *)
Definition fields_sim (f f' : fields) : Prop :=
  isPending f' = isPending f /\ type f' = type f /\
  (el f = None -> el f' = None) /\
  (forall e' icon cursor k size,
      el f' = Some e' -> content e' = ExpandedLine icon cursor k size ->
      exists e icon0 cursor0 k0,
        el f = Some e /\ content e = ExpandedLine icon0 cursor0 k0 size).

(** Only an array or an object has children. *)
Definition typed (n : node) : Prop :=
  children n <> [] -> type n = Some "array" \/ type n = Some "object".

Definition all_typed (nd : node) : Prop := Forall typed (nodes nd).

(** What the recursive call is known to do on one value. *)
Definition fills (late : bool) (fill : jsval -> node -> nat -> node * nat)
  (v : jsval) : Prop :=
  forall c next,
    exists new next',
      fill v c next = (Node c (children c ++ new), next') /\
      Forall (built late c) new /\ next <= next' /\
      (new <> [] -> getDataType v = "array" \/ getDataType v = "object").

(** ** More sample inputs *)

(** A stand-in for [JSON.parse] that also knows one string literal, the
    text of [hello] between double quotes. *)
Definition parse_quoted (text : string) : option jsval :=
  if text =? (dquote ++ "hello" ++ dquote)%string then Some (Str "hello")
  else parse_literal text.
(** The reference of [doc_ref_deep] one more level down:
    [{"v": {"w": {"x": {"$ref": "#/defs/Y"}}}, "defs": {"Y": {"p": 1, "q": 2}}}] *)
Definition doc_ref_deeper : jsval :=
  Obj [("v", Obj [("w", Obj [("x", Obj [("$ref", Str "#/defs/Y")])])]);
       ("defs", Obj [("Y", Obj [("p", Num 1); ("q", Num 2)])])].

(** ** The document in the tree *)

(** The members [for (let key in data)] runs over, with the names it gives
    them: the members of an object, the items of an array under their
    indices, and none of any other value. *)
Definition members_of (v : jsval) : list (string * jsval) :=
  match v with
  | Obj members => members
  | Arr items => combine (map string_of_nat (seq 0 (List.length items))) items
  | _ => []
  end.

(** The subtree of a node mirrors a value: the node holds the value (the
    marker in the place of an empty object) and its type, and its children
    mirror the members, one by one and in their order, each under the name of
    its member. *)
Fixpoint mirrors (v : jsval) (c : node) {struct c} : Prop :=
  match c with
  | Node f cs =>
      value f = (if isEmptyObject v then Str "{}" else v) /\
      type f = Some (getDataType v) /\
      (fix all (ms : list (string * jsval)) (l : list node) {struct l} : Prop :=
         match ms, l with
         | [], [] => True
         | (k, v') :: ms', x :: l' =>
             key x = string_or_null (Some k) /\ mirrors v' x /\ all ms' l'
         | _, _ => False
         end) (members_of v) cs
  end.

(** A child stands for a member. *)
Definition stands_for (kv : string * jsval) (c : node) : Prop :=
  key c = string_or_null (Some (fst kv)) /\ mirrors (snd kv) c.
(** What the recursive call is shown to do on one value. *)
Definition fills_in (fill : jsval -> node -> nat -> node * nat) (v : jsval) : Prop :=
  forall c next,
    exists new next',
      fill v c next = (Node c (children c ++ new), next') /\
      Forall2 stands_for (members_of v) new.

(** What the recursive call is shown to do on one value, for a property of
    the nodes it adds. *)
Definition fills_all (P : fields -> Prop)
  (fill : jsval -> node -> nat -> node * nat) (v : jsval) : Prop :=
  forall c next,
    exists new next',
      fill v c next = (Node c (children c ++ new), next') /\
      Forall (fun x : node => Forall (fun n : node => P n) (nodes x)) new.

(** ** What the walks of [render] and of the first expansion leave *)

(** A relation between a node and its properties after a walk, together
    with what the walk established when it came to each child from the
    node. *)
Definition with_children (Q : node -> fields -> Prop)
  (V : option node -> node -> Prop) (nd : node) (f' : fields) : Prop :=
  Q nd f' /\ Forall (V (Some (Node f' (children nd)))) (children nd).

(** A node as [createNode] makes it and the build leaves it: without
    element and listener, collapsed. *)
Definition untouched (f : fields) : Prop :=
  el f = None /\ dispose f = None /\ isExpanded f = false.

(** What the callback of [render] does to the state of its walk at a
    node: a node that is not pending takes the next [uid] for its line, and
    the line is appended to the container. *)
Definition render_tick (nd : node) (s : world * list dom) : world * list dom :=
  if isPending nd then s
  else (mkWorld (next_oid (fst s)) (S (next_uid (fst s))) (page (fst s)),
        snd s ++ [Line (next_uid (fst s))]).

(** The line of a node as the page holds it, if the node has one. *)
Definition line_of (f : fields) : list dom :=
  match el f with
  | Some e => [Line (uid e)]
  | None => []
  end.

(** What [render] has made of a node when it returns: a pending node is as
    it was, without a line if it had none; any other node has a hidden line (shown for the node without
    parent), indented by its depth, with a caret and a listener if the node
    has children and with the value if it has none.  Nothing else has
    changed. *)
Definition rendered (n : node) (f' : fields) : Prop :=
  oid f' = oid n /\ key f' = key n /\ parent f' = parent n /\
  value f' = value n /\ isExpanded f' = isExpanded n /\ type f' = type n /\
  depth f' = depth n /\ isPending f' = isPending n /\
  parsedData f' = parsedData n /\
  (isPending n = true -> dispose f' = dispose n /\ (el n = None -> el f' = None)) /\
  (isPending n = false ->
   exists e,
     el f' = Some e /\
     hidden e = (match parent n with Some _ => true | None => false end) /\
     margin_left e = depth n * 18 /\
     match children n with
     | [] => dispose f' = dispose n /\
             exists v t, content e = NotExpandedLine (key n) v t
     | _ :: _ => dispose f' = Some (uid e) /\
                 exists size, content e = ExpandedLine CaretRight "" (key n) size
     end).

(** What the walk of [render] needed when it came to a node from a
    parent: at a pending placeholder, the parent had its line and the pointer
    could be followed. *)
Definition counted (up : option node) (c : node) : Prop :=
  placeholder c = true ->
  exists (p : node) e target,
    up = Some p /\ el p = Some e /\ resolveref p = Ok target.

(** What the callback of the materializing walk does to the state of the
    walk at a node: the node takes the next [uid] for its line, and the line
    is appended to the container unless the node is named [$ref]. *)
Definition materialize_tick (nd : node) (s : world * list dom)
  : world * list dom :=
  (mkWorld (next_oid (fst s)) (S (next_uid (fst s))) (page (fst s)),
   if negb (key_is "$ref" nd) then snd s ++ [Line (next_uid (fst s))]
   else snd s).

(** The line of a node as the materializing walk attaches it. *)
Definition attached_line (f : fields) : list dom :=
  if key_is "$ref" f then [] else line_of f.

(** ** More of what holds in every reachable state *)

(** What also holds of a node in every state reached by [render] and
    clicks: a node that is not pending has its line; if the first child is
    not pending then none of the children is; and if the first child is a
    pending placeholder, its pointer can be followed. *)
Definition node_lit (n : node) : Prop :=
  (isPending n = false -> has_el n = true) /\
  (forall c0 rest,
      children n = c0 :: rest -> isPending c0 = false ->
      Forall (fun c : node => isPending c = false) rest) /\
  (forall c0 rest,
      children n = c0 :: rest -> placeholder c0 = true ->
      exists target, resolveref n = Ok target).

Definition tree_lit (nd : node) : Prop := Forall node_lit (nodes nd).

(** The interface of a node towards the pointer of its parent. *)
Definition kin (c c' : node) : Prop :=
  key c' = key c /\ isPending c' = isPending c /\
  (placeholder c' = true -> value c' = value c).

(** The children of a node are all pending or all not. *)
Definition uniform (n : node) : Prop :=
  forall c c' : node,
    In c (children n) -> In c' (children n) -> isPending c = isPending c'.


(** Cases on the line of a node, for the lemmas on [opened] and [closed]. *)
Ltac by_line :=
  match goal with
  | f : fields |- _ =>
      destruct f as [fo fk fp fv fx ft [[eu eh em [[|] lc lk ls|lk lv lt]]|] fd fs fq fr]
  end; try discriminate.

(** * Properties *)

Unset Implicit Arguments.

(** ** Building *)

Lemma built_unfold late up f cs :
  built late up (Node f cs) <->
  depth f = depth up + 1 /\
  isPending f = ((1 <? depth up)%nat && negb late) /\
  parent f = Some (oid up) /\
  parsedData f = parsedData up /\
  el f = None /\
  isExpanded f = false /\
  (cs <> [] -> type f = Some "array" \/ type f = Some "object") /\
  Forall (built late f) cs.
Proof.
  simpl.
  assert (E : (fix all (l : list node) : Prop :=
                 match l with
                 | [] => True
                 | x :: r => built late f x /\ all r
                 end) cs <-> Forall (built late f) cs).
  { induction cs as [|c r IH]; split; intros H.
    - constructor.
    - exact I.
    - destruct H as [H1 H2]. constructor; [exact H1 | now apply IH].
    - inversion H; subst. split; [assumption | now apply IH]. }
  tauto.
Qed.

Lemma built_fields late up up' c :
  depth up = depth up' -> oid up = oid up' -> parsedData up = parsedData up' ->
  built late up c -> built late up' c.
Proof.
  intros Hd Ho Hp. destruct c as [f cs]. rewrite !built_unfold.
  rewrite Hd, Ho, Hp. tauto.
Qed.

Lemma add_child_spec late fill k v (nd : node) next :
  fills late fill v ->
  exists child next',
    add_child fill ((1 <? depth nd)%nat && negb late) k v nd next
    = (push nd child, next') /\
    built late nd child /\ next <= next'.
Proof.
  intros Hv. unfold add_child.
  set (c0 := createNode _ next).
  destruct (Hv c0 (S next)) as (new & k1 & E & B & L & T).
  rewrite E. eexists _, k1. split; [reflexivity|]. split; [|lia].
  apply built_unfold. subst c0. simpl. repeat split; try lia.
  - intros Hne. destruct (T Hne) as [-> | ->]; auto.
  - simpl in B. exact B.
Qed.

Lemma push_fields nd c : fields_of (push nd c) = fields_of nd.
Proof. destruct nd; reflexivity. Qed.

Lemma push_children nd c : children (push nd c) = children nd ++ [c].
Proof. destruct nd; reflexivity. Qed.

Lemma each_member_spec late fill ms :
  Forall (fun kv => fills late fill (snd kv)) ms ->
  forall up nd next,
    fields_of nd = up ->
    exists new next',
      each_member fill ((1 <? depth up)%nat && negb late) ms nd next
      = (Node up (children nd ++ new), next') /\
      Forall (built late up) new /\ next <= next'.
Proof.
  induction 1 as [|[k v] rest Hv _ IH]; intros up nd next Hup.
  - exists [], next. simpl. rewrite List.app_nil_r. subst up.
    destruct nd; repeat split; (constructor || lia).
  - simpl in Hv |- *. subst up.
    destruct (add_child_spec _ _ k _ nd next Hv) as (child & k1 & E & B & L).
    rewrite E.
    destruct (IH (fields_of nd) (push nd child) k1 (push_fields nd child))
      as (new & k2 & E2 & B2 & L2).
    rewrite E2. exists (child :: new), k2.
    rewrite push_children, <- app_assoc. repeat split; auto. lia.
Qed.

Lemma each_index_spec late fill vs :
  Forall (fills late fill) vs ->
  forall i up nd next,
    fields_of nd = up ->
    exists new next',
      each_index fill ((1 <? depth up)%nat && negb late) vs i nd next
      = (Node up (children nd ++ new), next') /\
      Forall (built late up) new /\ next <= next'.
Proof.
  induction 1 as [|v rest Hv _ IH]; intros i up nd next Hup.
  - exists [], next. simpl. rewrite List.app_nil_r. subst up.
    destruct nd; repeat split; (constructor || lia).
  - simpl. subst up.
    destruct (add_child_spec _ _ (string_of_nat i) _ nd next Hv)
      as (child & k1 & E & B & L).
    rewrite E.
    destruct (IH (S i) (fields_of nd) (push nd child) k1 (push_fields nd child))
      as (new & k2 & E2 & B2 & L2).
    rewrite E2. exists (child :: new), k2.
    rewrite push_children, <- app_assoc. repeat split; auto. lia.
Qed.

(** [createSubnode] keeps the node's own properties and its old children,
    and appends children of the [built] shape. *)
Lemma createSubnode_spec late data :
  fills late (fun v child next => createSubnode v child late next) data.
Proof.
  induction data as [| | b | z | s | l IH | l IH] using jsval_nested_ind;
    intros nd next;
    try (exists [], next; simpl; rewrite List.app_nil_r; destruct nd;
         split; [reflexivity|]; split; [constructor|]; split; [lia|];
         intros H; exfalso; apply H; reflexivity).
  - simpl.
    destruct (each_index_spec late _ l IH 0 nd nd next eq_refl)
      as (new & k & E & B & L).
    exists new, k. auto.
  - simpl.
    destruct (each_member_spec late _ l IH nd nd next eq_refl)
      as (new & k & E & B & L).
    exists new, k. auto.
Qed.

Lemma ltb_shift d k : k = d + 1 -> (2 <? k)%nat = (1 <? d)%nat.
Proof.
  intros ->.
  destruct (Nat.ltb_spec 2 (d + 1)); destruct (Nat.ltb_spec 1 d);
    try reflexivity; lia.
Qed.

(** Every node of a [built] subtree, by its path below the subtree's top. *)
Lemma built_sub late c :
  forall up p n,
    built late up c -> sub p c = Some n ->
    depth n = depth up + 1 + List.length p /\
    isPending n = ((2 <? depth n)%nat && negb late) /\
    parsedData n = parsedData up /\
    el n = None /\ isExpanded n = false.
Proof.
  induction c as [f cs IH] using node_ind; intros up p n B Hp.
  apply built_unfold in B. destruct B as (Hd & Hpe & _ & Hpd & He & Hx & _ & Hcs).
  destruct p as [|i p].
  - simpl in Hp. injection Hp as <-. simpl.
    rewrite (@ltb_shift _ _ Hd), Hpe. repeat split; auto; lia.
  - simpl in Hp. destruct (nth_error cs i) as [c|] eqn:E; [|discriminate].
    pose proof (nth_error_In _ _ E) as Hin.
    rewrite Forall_forall in IH, Hcs.
    destruct (IH c Hin f p n (Hcs c Hin) Hp) as (A1 & A2 & A3 & A4 & A5).
    simpl. repeat split; auto; try congruence; lia.
Qed.

Lemma built_edges late c :
  forall up p n i ch,
    built late up c -> sub p c = Some n ->
    nth_error (children n) i = Some ch ->
    depth ch = depth n + 1 /\ parent ch = Some (oid n).
Proof.
  induction c as [f cs IH] using node_ind; intros up p n i ch B Hp Hi.
  apply built_unfold in B. destruct B as (_ & _ & _ & _ & _ & _ & _ & Hcs).
  rewrite Forall_forall in IH, Hcs.
  destruct p as [|j p].
  - simpl in Hp. injection Hp as <-. simpl in Hi.
    pose proof (Hcs ch (nth_error_In _ _ Hi)) as B.
    destruct ch as [g gs]. apply built_unfold in B. simpl. tauto.
  - simpl in Hp. destruct (nth_error cs j) as [c|] eqn:E; [|discriminate].
    pose proof (nth_error_In _ _ E) as Hin.
    exact (IH c Hin f p n i ch (Hcs c Hin) Hp Hi).
Qed.

(** What [create] returns when it returns. *)
Lemma create_spec parse input next root next' :
  create parse input next = Ok (root, next') ->
  exists doc f new,
    getJsonObject parse input = Ok doc /\
    root = Node f new /\
    Forall (built false f) new /\
    depth f = 0 /\ parent f = None /\ isPending f = false /\
    el f = None /\ isExpanded f = false /\
    parsedData f = doc /\
    key f = Some (getDataType doc) /\
    value f = (if isEmptyObject doc then Str "{}" else doc) /\
    oid f = next /\ next < next' /\
    (new <> [] -> type f = Some "array" \/ type f = Some "object").
Proof.
  unfold create. destruct (getJsonObject parse input) as [pd|e]; [|discriminate].
  simpl. intros H.
  match type of H with
  | Ok (createSubnode _ ?r _ _) = _ =>
      destruct (createSubnode_spec false pd r (S next)) as (new & k & E & B & L & T)
  end.
  rewrite E in H. injection H as <- <-.
  eexists pd, _, new. split; [reflexivity|]. split; [reflexivity|].
  simpl. repeat split; auto.
  - destruct pd; reflexivity.
  - intros Hne. destruct (T Hne) as [-> | ->]; auto.
Qed.

(** C7.  In the tree that [create] returns the root has depth 0 and no
    parent, the depth of every node is the length of the path that leads to
    it from the root (its ancestor chain), and every child has the depth of
    its parent plus 1 and points back to that parent. *)
Theorem build_depth_is_ancestor_chain parse input next root next' :
  create parse input next = Ok (root, next') ->
  depth root = 0 /\ parent root = None /\
  (forall p n, sub p root = Some n -> depth n = List.length p) /\
  (forall p n i c,
      sub p root = Some n -> nth_error (children n) i = Some c ->
      depth c = depth n + 1 /\ parent c = Some (oid n)).
Proof.
  intros H.
  destruct (create_spec _ _ _ _ _ H)
    as (doc & f & new & _ & -> & B & Hd & Hp & _).
  rewrite Forall_forall in B.
  split; [exact Hd|]. split; [exact Hp|]. split.
  - intros [|i p] n Hs.
    + injection Hs as <-. exact Hd.
    + simpl in Hs. destruct (nth_error new i) as [c|] eqn:E; [|discriminate].
      destruct (built_sub _ _ _ _ _ (B c (nth_error_In _ _ E)) Hs) as (A & _).
      simpl. lia.
  - intros [|j p] n i c Hs Hi.
    + injection Hs as <-. simpl in Hi.
      pose proof (B c (nth_error_In _ _ Hi)) as Bc.
      destruct c as [g gs]. apply built_unfold in Bc. simpl. tauto.
    + simpl in Hs. destruct (nth_error new j) as [c0|] eqn:E; [|discriminate].
      exact (built_edges _ _ _ _ _ _ _ (B c0 (nth_error_In _ _ E)) Hs Hi).
Qed.

Lemma build_depth_is_ancestor_chain_witness :
  exists root next',
    create parse_literal doc_chain 0 = Ok (root, next') /\
    depth root = 0 /\
    (forall p n, sub p root = Some n -> depth n = List.length p).
Proof.
  destruct (create parse_literal doc_chain 0) as [[root next']|e] eqn:E;
    [|discriminate E].
  exists root, next'. split; [reflexivity|].
  destruct (build_depth_is_ancestor_chain _ _ _ _ _ E) as (A & _ & B & _).
  split; [exact A | exact B].
Defined.

(** C1, as the code has it.  [create] marks a node pending exactly when its
    depth is greater than 2, that is when the depth of its parent is greater
    than 1: the root, its children and its grandchildren are not pending,
    every deeper node is.  For [createSubnode] in general, a node added below
    [nd] is pending exactly when its depth is greater than 2 and [late] is
    not set. *)
Theorem pending_iff_deeper_than_two :
  (forall parse input next root next',
      create parse input next = Ok (root, next') ->
      forall p n, sub p root = Some n ->
                  isPending n = (2 <? depth n)%nat) /\
  (forall data (nd : node) late next new,
      children (fst (createSubnode data nd late next)) = children nd ++ new ->
      forall c p n, In c new -> sub p c = Some n ->
                    isPending n = ((2 <? depth n)%nat && negb late)).
Proof.
  split.
  - intros parse input next root next' H [|i p] n Hs.
    + destruct (create_spec _ _ _ _ _ H)
        as (doc & f & new & _ & -> & _ & Hd & _ & Hpe & _).
      injection Hs as <-. simpl. rewrite Hd, Hpe. reflexivity.
    + destruct (create_spec _ _ _ _ _ H) as (doc & f & new & _ & -> & B & _).
      rewrite Forall_forall in B.
      simpl in Hs. destruct (nth_error new i) as [c|] eqn:E; [|discriminate].
      destruct (built_sub _ _ _ _ _ (B c (nth_error_In _ _ E)) Hs) as (_ & A & _).
      rewrite A. apply andb_true_r.
  - intros data nd late next new Hnew c p n Hin Hs.
    destruct (createSubnode_spec late data nd next) as (new' & k & E & B & _).
    rewrite E in Hnew. simpl in Hnew. apply app_inv_head in Hnew. subst new'.
    rewrite Forall_forall in B.
    destruct (built_sub _ _ _ _ _ (B c Hin) Hs) as (_ & A & _). exact A.
Qed.

Lemma pending_iff_deeper_than_two_witness :
  exists root next',
    create parse_literal doc_chain 0 = Ok (root, next') /\
    forall p n, sub p root = Some n -> isPending n = (2 <? depth n)%nat.
Proof.
  destruct (create parse_literal doc_chain 0) as [[root next']|e] eqn:E;
    [|discriminate E].
  exists root, next'. split; [reflexivity|].
  exact (proj1 pending_iff_deeper_than_two _ _ _ _ _ E).
Defined.

(** C1 as stated fails: in the tree built for [{"a": {"b": {"c": 1}}}] the
    node [b] has depth 2, which is greater than 1, and is not pending. *)
Lemma pending_at_depth_two_counterexample :
  exists root next' n,
    create parse_literal doc_chain 0 = Ok (root, next') /\
    sub [0; 0] root = Some n /\
    key n = Some "b" /\
    children n <> [] /\
    ~ (isPending n = true <-> 1 < depth n).
Proof.
  destruct (create parse_literal doc_chain 0) as [[root next']|e] eqn:E;
    [|discriminate E].
  vm_compute in E. injection E as <- <-.
  eexists _, _, _. split; [reflexivity|]. split; [reflexivity|].
  split; [reflexivity|]. split; [discriminate|].
  simpl. intros [_ H]. assert (L : 1 < 2) by lia.
  specialize (H L). discriminate H.
Qed.

(** ** Keys and values of the created nodes *)

Lemma add_child_fields late fill k v (nd : node) pending next :
  fills late fill v ->
  exists child next',
    add_child fill pending k v nd next = (push nd child, next') /\
    fields_of child = fields_of (createNode (child_options nd pending k v) next).
Proof.
  intros Hv. unfold add_child.
  destruct (Hv (createNode (child_options nd pending k v) next) (S next))
    as (new & k1 & E & _).
  rewrite E. eexists _, k1. split; reflexivity.
Qed.

Lemma each_member_fields late fill pending ms :
  Forall (fun kv => fills late fill (snd kv)) ms ->
  forall nd next,
    exists new,
      children (fst (each_member fill pending ms nd next)) = children nd ++ new /\
      Forall2 (fun (kv : string * jsval) (c : node) =>
                 key c = string_or_null (Some (fst kv)) /\
                 value c = (if isEmptyObject (snd kv) then Str "{}" else snd kv))
              ms new.
Proof.
  induction 1 as [|[k v] rest Hv _ IH]; intros nd next.
  - exists []. simpl. rewrite List.app_nil_r. split; [reflexivity|constructor].
  - simpl in Hv |- *.
    destruct (add_child_fields late fill k v nd pending next Hv)
      as (child & k1 & E & F).
    rewrite E. destruct (IH (push nd child) k1) as (new & E2 & F2).
    exists (child :: new). rewrite E2, push_children, <- app_assoc.
    split; [reflexivity|]. constructor; [|exact F2].
    rewrite F. simpl. split; reflexivity.
Qed.

(** C10.  The node created for a member of an object has key [null] when
    the member's name is the empty string and the name itself otherwise, and
    a falsy member value (0, false, null, the empty string) is stored as it
    is. *)
Theorem empty_key_becomes_null ms (nd : node) late next :
  exists new,
    children (fst (createSubnode (Obj ms) nd late next)) = children nd ++ new /\
    Forall2 (fun (kv : string * jsval) (c : node) =>
               (fst kv = "" -> key c = None) /\
               (fst kv <> "" -> key c = Some (fst kv)) /\
               (falsy (snd kv) = true -> value c = snd kv))
            ms new.
Proof.
  simpl.
  destruct (each_member_fields late
              (fun v child next => createSubnode v child late next)
              ((1 <? depth nd)%nat && negb late) ms) with (nd := nd) (next := next)
    as (new & E & F).
  - apply Forall_forall. intros kv _. apply createSubnode_spec.
  - exists new. split; [exact E|].
    eapply Forall2_impl; [|exact F].
    intros [k v] c [Hk Hv]. simpl in *. repeat split.
    + intros ->. exact Hk.
    + intros Hne. rewrite Hk. destruct k; [contradiction | reflexivity].
    + intros Hf. rewrite Hv.
      destruct v as [| | [|] | [| |] | [|] | |]; try discriminate; reflexivity.
Qed.

Lemma empty_key_becomes_null_witness :
  exists c1 c2 rest,
    children (fst (createSubnode doc_falsy
                     (createNode (mkOptions None None None None None None None) 0)
                     false 1)) = c1 :: c2 :: rest /\
    key c1 = None /\ value c1 = Num 0 /\
    key c2 = Some "k" /\ value c2 = Str "".
Proof.
  destruct (empty_key_becomes_null
              [("", Num 0); ("k", Str ""); ("e", Obj []); ("n", Null);
               ("f", Bool false)]
              (createNode (mkOptions None None None None None None None) 0)
              false 1) as (new & E & F).
  inversion F as [|kv1 c1 r1 new1 H1 F1]; subst.
  inversion F1 as [|kv2 c2 r2 new2 H2 F2]; subst.
  exists c1, c2, new2. split; [exact E|].
  destruct H1 as (K1 & _ & V1). destruct H2 as (_ & K2 & V2).
  repeat split.
  - apply K1. reflexivity.
  - apply V1. reflexivity.
  - apply K2. discriminate.
  - apply V2. reflexivity.
Defined.

(** ** Parsing *)

(** C9.  [create] takes a text or a parsed document.  A text that
    [JSON.parse] rejects makes it throw the parser's error; a text that
    parses, and a document that is not a string, make it return the root
    node, which holds the document. *)
Theorem build_parses_or_fails (parse : string -> option jsval) :
  (forall text next,
      parse text = None -> create parse (Str text) next = Throw SyntaxError) /\
  (forall text doc next,
      parse text = Some doc ->
      exists root next',
        create parse (Str text) next = Ok (root, next') /\
        depth root = 0 /\ parsedData root = doc /\
        key root = Some (getDataType doc)) /\
  (forall doc next,
      (forall text, doc <> Str text) ->
      exists root next',
        create parse doc next = Ok (root, next') /\
        depth root = 0 /\ parsedData root = doc /\
        key root = Some (getDataType doc)).
Proof.
  assert (G : forall input doc next,
             getJsonObject parse input = Ok doc ->
             exists root next',
               create parse input next = Ok (root, next') /\
               depth root = 0 /\ parsedData root = doc /\
               key root = Some (getDataType doc)).
  { intros input doc next Hg.
    destruct (create parse input next) as [[root next']|e] eqn:E.
    - destruct (create_spec _ _ _ _ _ E)
        as (doc' & f & new & Hg' & -> & _ & Hd & _ & _ & _ & _ & Hpd & Hk & _).
      rewrite Hg in Hg'. injection Hg' as <-.
      exists (Node f new), next'. simpl. auto.
    - unfold create in E. rewrite Hg in E. discriminate E. }
  split; [|split].
  - intros text next Hp. unfold create. simpl. rewrite Hp. reflexivity.
  - intros text doc next Hp. apply G. simpl. rewrite Hp. reflexivity.
  - intros doc next Hns. apply G.
    destruct doc; try reflexivity. exfalso. exact (Hns s eq_refl).
Qed.

Lemma build_parses_or_fails_witness :
  create parse_literal (Str "{oops") 0 = Throw SyntaxError /\
  (exists root next',
      create parse_literal (Str "null") 0 = Ok (root, next') /\
      depth root = 0 /\ parsedData root = Null /\ key root = Some "null") /\
  (exists root next',
      create parse_literal doc_chain 0 = Ok (root, next') /\
      depth root = 0 /\ parsedData root = doc_chain /\
      key root = Some "object").
Proof.
  destruct (build_parses_or_fails parse_literal) as (A & B & C).
  split; [|split].
  - apply A. reflexivity.
  - apply (B "null" Null 0). reflexivity.
  - apply (C doc_chain 0). discriminate.
Defined.

(** ** Pointers *)

Lemma replace_slashes_append a b :
  replace_slashes (a ++ b) = (replace_slashes a ++ replace_slashes b)%string.
Proof.
  induction a as [|c a IH]; simpl; [reflexivity | now rewrite IH].
Qed.

Lemma replace_slashes_none s :
  has_char "/" s = false -> replace_slashes s = s.
Proof.
  induction s as [|c s IH]; simpl; [reflexivity|].
  intros H. apply orb_false_elim in H. destruct H as [Hc Hs].
  rewrite Hc, (IH Hs). reflexivity.
Qed.

Lemma replace_tilde1_bar b :
  replace_tilde1 (String "|" b) = String "|" (replace_tilde1 b).
Proof. destruct b; reflexivity. Qed.

(** A bar stops every match of ["~1"], so the replacement works on the two
    sides of a bar separately. *)
Lemma replace_tilde1_append a :
  forall b,
    (replace_tilde1 (a ++ String "|" b)
     = replace_tilde1 a ++ String "|" (replace_tilde1 b))%string /\
    forall c,
      (replace_tilde1 (String c a ++ String "|" b)
       = replace_tilde1 (String c a) ++ String "|" (replace_tilde1 b))%string.
Proof.
  induction a as [|d a IH]; intros b.
  - split.
    + simpl append. apply replace_tilde1_bar.
    + intros c. simpl append.
      change (replace_tilde1 (String c (String "|" b)))
        with (if Ascii.eqb c "~" && Ascii.eqb "|" "1"
              then String "/" (replace_tilde1 b)
              else String c (replace_tilde1 (String "|" b))).
      rewrite andb_false_r, replace_tilde1_bar. reflexivity.
  - destruct (IH b) as [IH1 IH2]. split; [apply IH2|].
    intros c.
    change (replace_tilde1 (String c (String d a) ++ String "|" b))
      with (if Ascii.eqb c "~" && Ascii.eqb d "1"
            then String "/" (replace_tilde1 (a ++ String "|" b))
            else String c (replace_tilde1 (String d a ++ String "|" b))).
    change (replace_tilde1 (String c (String d a)))
      with (if Ascii.eqb c "~" && Ascii.eqb d "1"
            then String "/" (replace_tilde1 a)
            else String c (replace_tilde1 (String d a))).
    destruct (Ascii.eqb c "~" && Ascii.eqb d "1").
    + rewrite IH1. reflexivity.
    + rewrite IH2. reflexivity.
Qed.

Lemma replace_tilde1_no_bar a :
  (has_char "|" a = false -> has_char "|" (replace_tilde1 a) = false) /\
  forall c, has_char "|" (String c a) = false ->
            has_char "|" (replace_tilde1 (String c a)) = false.
Proof.
  induction a as [|d a [IH1 IH2]].
  - split; [auto|]. intros c H. exact H.
  - split; [apply IH2|]. intros c H.
    change (replace_tilde1 (String c (String d a)))
      with (if Ascii.eqb c "~" && Ascii.eqb d "1"
            then String "/" (replace_tilde1 a)
            else String c (replace_tilde1 (String d a))).
    simpl in H. apply orb_false_elim in H. destruct H as [Hc H].
    pose proof H as Hd. apply orb_false_elim in Hd. destruct Hd as [Hd Ha].
    destruct (Ascii.eqb c "~" && Ascii.eqb d "1"); simpl.
    + apply IH1. exact Ha.
    + rewrite Hc. simpl. apply IH2. simpl. exact H.
Qed.

Lemma split_no_sep sep s :
  has_char sep s = false -> split sep s = [s].
Proof.
  induction s as [|c s IH]; simpl; [reflexivity|].
  intros H. apply orb_false_elim in H. destruct H as [Hc Hs].
  rewrite Hc, (IH Hs). reflexivity.
Qed.

Lemma split_append sep a b :
  has_char sep a = false ->
  split sep (a ++ String sep b) = a :: split sep b.
Proof.
  induction a as [|c a IH]; simpl.
  - intros _. rewrite Ascii.eqb_refl. reflexivity.
  - intros H. apply orb_false_elim in H. destruct H as [Hc Hs].
    rewrite Hc, (IH Hs). reflexivity.
Qed.

(** The three parts the code computes for a pointer whose segments hold
    neither a slash nor a bar. *)
Lemma pointer_parts s1 s2 :
  has_char "/" s1 = false -> has_char "/" s2 = false ->
  has_char "|" s1 = false -> has_char "|" s2 = false ->
  split "|" (replace_tilde1 (replace_slashes (pointer s1 s2)))
  = ["#"; replace_tilde1 s1; replace_tilde1 s2].
Proof.
  intros F1 F2 B1 B2. unfold pointer.
  change ("#/" ++ s1 ++ "/" ++ s2)%string
    with (String "#" (String "/" (s1 ++ String "/" s2)))%string.
  cbn [replace_slashes]. rewrite replace_slashes_append.
  cbn [replace_slashes]. rewrite (replace_slashes_none _ F1), (replace_slashes_none _ F2).
  change (if Ascii.eqb "/" "/" then "|"%char else "/"%char) with "|"%char.
  change (if Ascii.eqb "#" "/" then "|"%char else "#"%char) with "#"%char.
  change (String "#" (String "|" (s1 ++ String "|" s2)))
    with ("#" ++ String "|" (s1 ++ String "|" s2))%string.
  rewrite (proj1 (replace_tilde1_append "#" _)).
  rewrite (proj1 (replace_tilde1_append s1 s2)).
  change (replace_tilde1 "#") with "#".
  rewrite (split_append "|" "#" _ eq_refl).
  rewrite (split_append "|" _ _ (proj1 (replace_tilde1_no_bar s1) B1)).
  rewrite (split_no_sep "|" _ (proj1 (replace_tilde1_no_bar s2) B2)).
  reflexivity.
Qed.

(** For a pointer of two segments that hold no bar, [resolveref] returns
    what the spec describes. *)
Lemma resolveref_two_segments (nd first : node) rest s1 s2 :
  children nd = first :: rest ->
  value first = Str (pointer s1 s2) ->
  has_char "/" s1 = false -> has_char "/" s2 = false ->
  has_char "|" s1 = false -> has_char "|" s2 = false ->
  resolveref nd = pointed_to (parsedData nd) s1 s2.
Proof.
  intros Hc Hv F1 F2 B1 B2. unfold resolveref, pointed_to.
  rewrite Hc, Hv, (pointer_parts s1 s2 F1 F2 B1 B2). reflexivity.
Qed.

(** For the pointer ["#/a~1b/c"] the member ["a/b"] of the document is
    looked up. *)
Lemma resolveref_escaped_slash :
  resolveref (Node (fields_of (createNode
                      (mkOptions None None None None None None
                         (Some (Obj [("a/b", Obj [("c", Num 7)])]))) 0))
                   [createNode (mkOptions (Some (Str "#/a~1b/c")) (Some "$ref")
                                  None None None None None) 1])
  = Ok (Num 7).
Proof. reflexivity. Qed.


(** ** The reference scenario *)

(** C2 on the document of the claim,
    [{"x": {"$ref": "#/defs/Y"}, "defs": {"Y": {"p": 1, "q": 2}}}].  The
    placeholder of [x] has depth 2 and is not pending, so [render] gives it a
    line of its own and leaves the size label of [x] at [{1}]; after the
    clicks that expand the root and then [x], the children of [x] are still
    the one placeholder. *)
Theorem shallow_reference_stays :
  exists tree w x,
    renderJSON parse_literal doc_ref blank = Ok (tree, w) /\
    sub [0] tree = Some x /\
    key x = Some "x" /\ depth x = 1 /\
    map (fun c : node => (key c, isPending c)) (children x)
    = [(Some "$ref", false)] /\
    size_label x = Some "{1}" /\
    exists tree' w' x',
      clicks [[]; [0]] tree w = Ok (tree', w') /\
      sub [0] tree' = Some x' /\
      isExpanded x' = true /\
      map (fun c : node => key c) (children x') = [Some "$ref"] /\
      size_label x' = Some "{1}".
Proof.
  destruct (renderJSON parse_literal doc_ref blank) as [[tree w]|e] eqn:E;
    [|discriminate E].
  vm_compute in E. injection E as <- <-.
  eexists _, _, _. split; [reflexivity|]. split; [reflexivity|].
  repeat (split; [reflexivity|]).
  eexists _, _, _. split; [vm_compute; reflexivity|].
  split; [reflexivity|]. repeat split.
Qed.

(** The same reference one level further down behaves as the scenario
    says: the placeholder of [x] has depth 3 and is pending, the label of [x]
    reads [{2}] after [render], and the first expansion of [x] puts the
    members [p] and [q] of the target in the place of the placeholder. *)
Lemma deep_reference_inlined :
  exists tree w x,
    renderJSON parse_literal doc_ref_deep blank = Ok (tree, w) /\
    sub [0; 0] tree = Some x /\
    key x = Some "x" /\ depth x = 2 /\
    map (fun c : node => (key c, isPending c)) (children x)
    = [(Some "$ref", true)] /\
    size_label x = Some "{2}" /\
    exists tree' w' x',
      clicks [[]; [0]; [0; 0]] tree w = Ok (tree', w') /\
      sub [0; 0] tree' = Some x' /\
      isExpanded x' = true /\
      map (fun c : node => key c) (children x') = [Some "p"; Some "q"] /\
      size_label x' = Some "{2}".
Proof.
  destruct (renderJSON parse_literal doc_ref_deep blank) as [[tree w]|e] eqn:E;
    [|discriminate E].
  vm_compute in E. injection E as <- <-.
  eexists _, _, _. split; [reflexivity|]. split; [reflexivity|].
  repeat (split; [reflexivity|]).
  eexists _, _, _. split; [vm_compute; reflexivity|].
  split; [reflexivity|]. repeat split.
Qed.

(** ** Walks *)

Lemma forallb_map {A B} (g : A -> B) (p : B -> bool) l :
  forallb p (map g l) = forallb (fun a => p (g a)) l.
Proof.
  induction l as [|a l IH]; simpl; [reflexivity | now rewrite IH].
Qed.

Lemma forallb_ext_in {A} (p q : A -> bool) l :
  (forall a, In a l -> p a = q a) -> forallb p l = forallb q l.
Proof.
  induction l as [|a l IH]; intros H; simpl; [reflexivity|].
  rewrite (H a (or_introl eq_refl)), IH; [reflexivity|].
  intros b Hb. apply H. right. exact Hb.
Qed.

Lemma nodes_unfold f cs : nodes (Node f cs) = Node f cs :: flat_map nodes cs.
Proof. reflexivity. Qed.

Lemma forEach_below_local {S} (cb : node -> M S fields) (cs0 cs : list node) :
  Forall (fun c => forall (u : option node) s,
              traverse (local cb) u c s
              = match walk cb c s with
                | Ok (c', s') => Ok ((option_map fields_of u, c'), s')
                | Throw e => Throw e
                end) cs ->
  forall f s,
    forEach_below (fun f child => traverse (local cb) (Some (Node f cs0)) child)
                  cs f s
    = match forEach (walk cb) cs s with
      | Ok (cs', s') => Ok ((f, cs'), s')
      | Throw e => Throw e
      end.
Proof.
  induction 1 as [|c r Hc _ IH]; intros f s; [reflexivity|].
  simpl. unfold bind. rewrite Hc.
  destruct (walk cb c s) as [[c' s1]|e]; [|reflexivity].
  simpl. rewrite IH.
  destruct (forEach (walk cb) r s1) as [[r' s2]|e]; reflexivity.
Qed.

(** For a callback that touches the visited node only, [traverse] is the
    plain walk. *)
Lemma traverse_local {S} (cb : node -> M S fields) nd :
  forall (up : option node) s,
    traverse (local cb) up nd s
    = match walk cb nd s with
      | Ok (nd', s') => Ok ((option_map fields_of up, nd'), s')
      | Throw e => Throw e
      end.
Proof.
  induction nd as [f cs IH] using node_ind; intros up s.
  simpl. unfold local at 1. unfold bind.
  destruct (cb (Node f cs) s) as [[f1 s1]|e]; [|reflexivity].
  simpl.
  rewrite (forEach_below_local cb cs cs IH f1 s1).
  destruct (forEach (walk cb) cs s1) as [[cs' s2]|e]; reflexivity.
Qed.

Lemma forEach_pure {S} (g : node -> res fields) (h : node -> fields) cs :
  Forall (fun c => forall s : S,
              walk (fun n => lift (g n)) c s = Ok (map_nodes h c, s)) cs ->
  forall s : S,
    forEach (walk (fun n => lift (g n))) cs s = Ok (map (map_nodes h) cs, s).
Proof.
  induction 1 as [|c r Hc _ IH]; intros s; [reflexivity|].
  simpl. unfold bind. rewrite Hc, IH. reflexivity.
Qed.

(** A walk whose callback succeeds on every node and does not use the
    state. *)
Lemma walk_pure {S} (g : node -> res fields) (h : node -> fields) nd :
  Forall (fun n => g n = Ok (h n)) (nodes nd) ->
  forall s : S, walk (fun n => lift (g n)) nd s = Ok (map_nodes h nd, s).
Proof.
  induction nd as [f cs IH] using node_ind; intros H s.
  rewrite nodes_unfold in H. inversion H as [|? ? H0 H1]; subst.
  simpl. unfold bind. unfold lift at 1. rewrite H0.
  rewrite (forEach_pure g h cs).
  - reflexivity.
  - rewrite Forall_forall in IH, H1 |- *. intros c Hc. apply (IH c Hc).
    apply Forall_forall. intros n Hn. apply H1.
    apply in_flat_map. exists c. auto.
Qed.

Lemma materialized_nodes nd :
  materialized nd = true -> Forall (fun n : node => has_el n = true) (nodes nd).
Proof.
  induction nd as [f cs IH] using node_ind. intros H.
  simpl in H. apply andb_prop in H. destruct H as [Hf Hcs].
  rewrite nodes_unfold. constructor; [exact Hf|].
  rewrite forallb_forall in Hcs. rewrite Forall_forall in IH |- *.
  intros n Hn. apply in_flat_map in Hn. destruct Hn as (c & Hc & Hn).
  pose proof (IH c Hc (Hcs c Hc)) as A. rewrite Forall_forall in A. auto.
Qed.

Lemma expand_visit_opened (n : node) :
  has_el n = true -> expand_visit n = Ok (opened n).
Proof.
  unfold has_el, opened, expand_visit, setCaretIconDown.
  destruct (el n) as [e|]; [|discriminate]. intros _. simpl.
  destruct (0 <? Datatypes.length (children n))%nat; reflexivity.
Qed.

Lemma collapse_visit_closed (top n : node) :
  has_el n = true -> collapse_visit top n = Ok (closed top n).
Proof.
  unfold has_el, closed, collapse_visit, setCaretIconRight.
  destruct (el n) as [e|] eqn:E; [|discriminate]. intros _. simpl.
  destruct (depth top <? depth n)%nat; simpl; rewrite ?E;
    destruct (0 <? Datatypes.length (children n))%nat; reflexivity.
Qed.

(** On a subtree in which every node has an element, [expand] and
    [collapse] succeed, with the result the callbacks describe. *)
Lemma expand_materialized nd :
  materialized nd = true -> expand nd = Ok (map_nodes opened nd).
Proof.
  intros H. unfold expand, run_pure, bind.
  rewrite traverse_local, (walk_pure expand_visit opened); [reflexivity|].
  eapply Forall_impl; [|exact (materialized_nodes nd H)].
  intros n. apply expand_visit_opened.
Qed.

Lemma collapse_materialized nd :
  materialized nd = true -> collapse nd = Ok (map_nodes (closed nd) nd).
Proof.
  intros H. unfold collapse, run_pure, bind.
  rewrite traverse_local, (walk_pure (collapse_visit nd) (closed nd));
    [reflexivity|].
  eapply Forall_impl; [|exact (materialized_nodes nd H)].
  intros n. apply collapse_visit_closed.
Qed.










(** ** Hiding and showing *)

Lemma forEach_res_char {A B} (visit : A -> res B) (ok : A -> bool) (h : A -> B) l :
  Forall (fun a => visit a = if ok a then Ok (h a) else Throw TypeError) l ->
  forEach_res visit l = if forallb ok l then Ok (map h l) else Throw TypeError.
Proof.
  induction 1 as [|a r Ha _ IH]; [reflexivity|].
  simpl. rewrite Ha, IH. destruct (ok a); [|reflexivity].
  simpl. destruct (forallb ok r); reflexivity.
Qed.

Lemma sweep_fields b nd : fields_of (sweep b nd) = fields_of nd.
Proof. destruct nd; reflexivity. Qed.

Lemma with_hidden_el b (f : fields) e :
  el f = Some e ->
  with_hidden b f = set_el (Some (mkElement (uid e) b (margin_left e) (content e))) f.
Proof. unfold with_hidden. intros ->. reflexivity. Qed.

(** [hideNodeChildren] throws exactly when it reaches a node without
    element, and otherwise hides what [sweep] describes. *)
Lemma hideNodeChildren_sweep nd :
  hideNodeChildren nd
  = if reach_el nd then Ok (sweep true nd) else Throw TypeError.
Proof.
  induction nd as [f cs IH] using node_ind. simpl.
  rewrite forEach_res_char
    with (ok := fun c : node => has_el c && if isExpanded c then reach_el c else true)
         (h := fun c : node => Node (with_hidden true c)
                                    (if isExpanded c then children (sweep true c)
                                     else children c)).
  - destruct (forallb _ cs); reflexivity.
  - eapply Forall_impl; [|exact IH]. intros c Hc. unfold has_el.
    destruct (el c) as [e|] eqn:E; [|reflexivity]. simpl.
    rewrite (with_hidden_el true c e E).
    destruct (isExpanded c); [|reflexivity].
    rewrite Hc. destruct (reach_el c); [|reflexivity].
    simpl. rewrite sweep_fields. reflexivity.
Qed.

Lemma showNodeChildren_sweep nd :
  showNodeChildren nd
  = if reach_el nd then Ok (sweep false nd) else Throw TypeError.
Proof.
  induction nd as [f cs IH] using node_ind. simpl.
  rewrite forEach_res_char
    with (ok := fun c : node => has_el c && if isExpanded c then reach_el c else true)
         (h := fun c : node => Node (with_hidden false c)
                                    (if isExpanded c then children (sweep false c)
                                     else children c)).
  - destruct (forallb _ cs); reflexivity.
  - eapply Forall_impl; [|exact IH]. intros c Hc. unfold has_el.
    destruct (el c) as [e|] eqn:E; [|reflexivity]. simpl.
    rewrite (with_hidden_el false c e E).
    destruct (isExpanded c); [|reflexivity].
    rewrite Hc. destruct (reach_el c); [|reflexivity].
    simpl. rewrite sweep_fields. reflexivity.
Qed.

(** A click on the caret of an expanded node. *)
Lemma toggleNode_collapse (n : node) e icon cursor k size w :
  isExpanded n = true ->
  el n = Some e -> content e = ExpandedLine icon cursor k size ->
  children n <> [] ->
  toggleNode (uid e) n w
  = if reach_el n
    then Ok (Node (set_isExpanded false (set_el (Some (with_icon CaretRight e)) n))
                  (children (sweep true n)), w)
    else Throw TypeError.
Proof.
  destruct n as [f cs]. intros Hx He Hc Hcs. simpl in Hx, He, Hcs.
  assert (R : forall g,
             hideNodeChildren (Node g cs)
             = if reach_el (Node f cs)
               then Ok (Node g (children (sweep true (Node f cs))))
               else Throw TypeError).
  { intros g. rewrite hideNodeChildren_sweep. reflexivity. }
  remember (reach_el (Node f cs)) as r eqn:Er.
  remember (children (sweep true (Node f cs))) as swept eqn:Es.
  clear Er Es.
  unfold toggleNode, caret_cursor, set_caret_cursor. simpl.
  rewrite He, Nat.eqb_refl, Hc. simpl. rewrite Hx.
  unfold setCaretIconRight. simpl.
  destruct cs as [|c0 cs]; [contradiction|].
  cbn [List.length Nat.ltb Nat.leb]. unfold bind, lift.
  unfold toggleNode_hide, bind, lift.
  rewrite R. destruct r; [|reflexivity].
  unfold ret, set_caret_cursor. simpl.
  rewrite Nat.eqb_refl. unfold replace_icon, with_icon. simpl. rewrite Hc.
  destruct icon; reflexivity.
Qed.

(** A click on the caret of a collapsed node whose children have been
    materialized. *)
Lemma toggleNode_expand (n : node) e icon cursor k size c0 rest w :
  isExpanded n = false ->
  el n = Some e -> content e = ExpandedLine icon cursor k size ->
  children n = c0 :: rest -> isPending c0 = false ->
  toggleNode (uid e) n w
  = if reach_el n
    then Ok (Node (set_isExpanded true (set_el (Some (with_icon CaretDown e)) n))
                  (children (sweep false n)), w)
    else Throw TypeError.
Proof.
  destruct n as [f cs]. intros Hx He Hc Hcs Hp. simpl in Hx, He, Hcs.
  assert (R : forall g,
             showNodeChildren (Node g cs)
             = if reach_el (Node f cs)
               then Ok (Node g (children (sweep false (Node f cs))))
               else Throw TypeError).
  { intros g. rewrite showNodeChildren_sweep. reflexivity. }
  remember (reach_el (Node f cs)) as r eqn:Er.
  remember (children (sweep false (Node f cs))) as swept eqn:Es.
  clear Er Es. subst cs.
  unfold toggleNode, caret_cursor, set_caret_cursor. simpl.
  rewrite He, Nat.eqb_refl, Hc. simpl. rewrite Hx.
  unfold setCaretIconDown. simpl.
  unfold bind, lift.
  unfold toggleNode_show, bind, lift. simpl. rewrite Hp.
  unfold ret at 1.
  rewrite R. destruct r; [|reflexivity].
  unfold ret, set_caret_cursor. simpl.
  rewrite Nat.eqb_refl. unfold replace_icon, with_icon. simpl. rewrite Hc.
  destruct icon; reflexivity.
Qed.

(** ** Sweeps *)


Lemma with_hidden_twice b1 b2 f : with_hidden b2 (with_hidden b1 f) = with_hidden b2 f.
Proof.
  unfold with_hidden. destruct (el f) as [e|] eqn:E; simpl; [reflexivity|].
  rewrite E. reflexivity.
Qed.

Lemma with_hidden_isExpanded b f : isExpanded (with_hidden b f) = isExpanded f.
Proof. unfold with_hidden. destruct (el f); reflexivity. Qed.

Lemma with_hidden_isPending b f : isPending (with_hidden b f) = isPending f.
Proof. unfold with_hidden. destruct (el f); reflexivity. Qed.

Lemma with_hidden_has_el b f : has_el (with_hidden b f) = has_el f.
Proof. unfold with_hidden, has_el. destruct (el f) eqn:E; simpl; now rewrite ?E. Qed.

Lemma with_hidden_same f :
  is_shown f = true -> with_hidden false f = f.
Proof.
  unfold is_shown, with_hidden. destruct f as [o k p v x t [e|] d di pe pd];
    simpl; [|discriminate].
  destruct e as [u h m c]. simpl. destruct h; [discriminate|reflexivity].
Qed.

Lemma sweep_unfold b f cs :
  sweep b (Node f cs)
  = Node f (map (fun c : node => Node (with_hidden b c)
                                      (if isExpanded c then children (sweep b c)
                                       else children c)) cs).
Proof. reflexivity. Qed.

Lemma sweep_sweep b1 b2 nd : sweep b2 (sweep b1 nd) = sweep b2 nd.
Proof.
  induction nd as [f cs IH] using node_ind.
  rewrite !sweep_unfold. f_equal. rewrite map_map.
  apply map_ext_in. intros c Hc. rewrite Forall_forall in IH.
  simpl. rewrite with_hidden_twice, with_hidden_isExpanded. f_equal.
  destruct (isExpanded c); [|reflexivity].
  specialize (IH c Hc). destruct c as [g gs].
  rewrite sweep_unfold in IH |- *. simpl.
  rewrite sweep_unfold in IH. injection IH as IH. exact IH.
Qed.

Lemma reach_el_sweep b nd : reach_el (sweep b nd) = reach_el nd.
Proof.
  induction nd as [f cs IH] using node_ind.
  rewrite sweep_unfold. simpl. rewrite forallb_map.
  apply forallb_ext_in. intros c Hc. rewrite Forall_forall in IH.
  simpl. rewrite with_hidden_has_el, with_hidden_isExpanded. f_equal.
  destruct (isExpanded c); [|reflexivity].
  specialize (IH c Hc). destruct c as [g gs]. exact IH.
Qed.

Lemma all_hidden_below_children f g cs :
  all_hidden_below (Node f cs) = all_hidden_below (Node g cs).
Proof. reflexivity. Qed.

Lemma is_hidden_with_hidden f : is_hidden (with_hidden true f) = true.
Proof.
  unfold is_hidden, with_hidden. destruct (el f) as [e|] eqn:E; simpl;
    [reflexivity | now rewrite E].
Qed.


(** After a hiding sweep everything below is hidden, if what the sweep
    does not reach was hidden before. *)
Lemma all_hidden_sweep nd :
  covered nd = true -> all_hidden_below (sweep true nd) = true.
Proof.
  induction nd as [f cs IH] using node_ind. intros H.
  rewrite sweep_unfold. simpl in H |- *. rewrite forallb_map.
  rewrite forallb_forall in H |- *. rewrite Forall_forall in IH.
  intros c Hc. specialize (H c Hc). specialize (IH c Hc).
  cbn [fields_of]. rewrite is_hidden_with_hidden. simpl.
  destruct (isExpanded c).
  - transitivity (all_hidden_below (sweep true c));
      [destruct c; reflexivity | exact (IH H)].
  - transitivity (all_hidden_below c); [destruct c; reflexivity | exact H].
Qed.


(** A showing sweep changes nothing in a subtree that is shown as its
    flags say. *)
Lemma sweep_shown nd :
  shown_as_flagged nd = true -> sweep false nd = nd.
Proof.
  induction nd as [f cs IH] using node_ind. intros H.
  rewrite sweep_unfold. f_equal. simpl in H.
  rewrite forallb_forall in H. rewrite Forall_forall in IH.
  rewrite <- (map_id cs) at 2. apply map_ext_in. intros c Hc.
  specialize (H c Hc). specialize (IH c Hc).
  apply andb_prop in H. destruct H as [H1 H2].
  rewrite (with_hidden_same c H1).
  destruct (isExpanded c).
  - rewrite (IH H2). destruct c; reflexivity.
  - destruct c; reflexivity.
Qed.

Lemma flags_of_nodes_sweep b (c : node) :
  map (fun d : node => isExpanded d)
      (nodes (Node (with_hidden b c)
                   (if isExpanded c then children (sweep b c) else children c)))
  = map (fun d : node => isExpanded d) (nodes c).
Proof.
  induction c as [f cs IH] using node_ind.
  rewrite !nodes_unfold. simpl map. rewrite with_hidden_isExpanded. f_equal.
  simpl fields_of. simpl children at 2.
  destruct (isExpanded f); [|reflexivity].
  rewrite flat_map_concat_map, map_map, concat_map, map_map.
  rewrite flat_map_concat_map, concat_map, map_map.
  f_equal. apply map_ext_in. intros c Hc.
  rewrite Forall_forall in IH. exact (IH c Hc).
Qed.

(** No sweep changes an [isExpanded] flag. *)
Lemma flags_sweep b nd : flags (sweep b nd) = flags nd.
Proof.
  destruct nd as [f cs]. unfold flags, descendants.
  rewrite sweep_unfold. simpl children.
  rewrite flat_map_concat_map, map_map, concat_map, map_map.
  rewrite flat_map_concat_map, concat_map, map_map.
  f_equal. apply map_ext_in. intros c _. apply flags_of_nodes_sweep.
Qed.

Lemma open_all_unfold f cs :
  open_all (Node f cs) = open_line (Node f cs) && forallb open_all cs.
Proof. reflexivity. Qed.

Lemma open_line_facts (n : node) :
  open_line n = true ->
  isExpanded n = true /\ isPending n = false /\ is_shown n = true /\
  has_el n = true.
Proof.
  unfold open_line, is_shown, has_el. intros H.
  apply andb_prop in H. destruct H as [H H3].
  apply andb_prop in H. destruct H as [H1 H2].
  destruct (el n) as [e|]; [|discriminate].
  apply andb_prop in H3. destruct H3 as [H3 _].
  rewrite H1, H3. apply negb_true_iff in H2. auto.
Qed.

(** An open subtree is shown as its flags say, and the sweeps reach all of
    it. *)
Lemma open_all_swept nd :
  open_all nd = true ->
  shown_as_flagged nd = true /\ reach_el nd = true /\ covered nd = true.
Proof.
  induction nd as [f cs IH] using node_ind. intros H.
  rewrite open_all_unfold in H. apply andb_prop in H. destruct H as [_ H].
  rewrite forallb_forall in H. rewrite Forall_forall in IH.
  simpl. rewrite !forallb_forall.
  repeat split; intros c Hc; specialize (H c Hc);
    destruct (IH c Hc H) as (A & B & C);
    destruct c as [g gs]; rewrite open_all_unfold in H;
    apply andb_prop in H; destruct H as [H _];
    destruct (open_line_facts _ H) as (X & _ & Sh & E);
    simpl in X, Sh, E |- *; rewrite X.
  - rewrite Sh. exact A.
  - rewrite E. exact B.
  - exact C.
Qed.

(** ** Collapse and expand again *)

Lemma with_icon_facts icon0 e icon cursor k size :
  content e = ExpandedLine icon cursor k size ->
  uid (with_icon icon0 e) = uid e /\
  hidden (with_icon icon0 e) = hidden e /\
  content (with_icon icon0 e) = ExpandedLine icon0 cursor k size.
Proof. unfold with_icon. intros ->. simpl. auto. Qed.

Lemma click_caret (n : node) e icon cursor k size :
  el n = Some e -> content e = ExpandedLine icon cursor k size ->
  hidden e = false ->
  click n = toggleNode (uid e) n.
Proof. unfold click. intros -> -> ->. reflexivity. Qed.

(** On a node that is expanded, has its caret down and is shown as the
    flags say, a click collapses and the next click restores the very same
    state. *)
Lemma collapse_expand_roundtrip (n : node) e cursor k size c0 rest w :
  isExpanded n = true ->
  el n = Some e -> hidden e = false ->
  content e = ExpandedLine CaretDown cursor k size ->
  children n = c0 :: rest -> isPending c0 = false ->
  reach_el n = true -> shown_as_flagged n = true ->
  exists n1,
    click n w = Ok (n1, w) /\
    isExpanded n1 = false /\
    children n1 = children (sweep true n) /\
    click n1 w = Ok (n, w).
Proof.
  intros Hx He Hh Hc Hcs Hp R Sh.
  assert (Hne : children n <> []) by (rewrite Hcs; discriminate).
  rewrite (click_caret n e _ _ _ _ He Hc Hh).
  rewrite (toggleNode_collapse n e _ _ _ _ w Hx He Hc Hne), R.
  eexists. split; [reflexivity|]. split; [reflexivity|]. split; [reflexivity|].
  destruct (with_icon_facts CaretRight e _ _ _ _ Hc) as (U & H1 & C1).
  set (e1 := with_icon CaretRight e) in *.
  set (n1 := Node _ (children (sweep true n))).
  assert (Hcs1 : exists c0' rest', children n1 = c0' :: rest' /\ isPending c0' = false).
  { destruct n as [f cs]. simpl in Hcs. subst cs. simpl.
    eexists _, _. split; [reflexivity|]. simpl.
    rewrite with_hidden_isPending. exact Hp. }
  destruct Hcs1 as (c0' & rest' & Hcs1 & Hp1).
  rewrite (click_caret n1 e1 CaretRight cursor k size eq_refl C1
             (eq_trans H1 Hh)).
  rewrite (toggleNode_expand n1 e1 CaretRight cursor k size c0' rest' w
             eq_refl eq_refl C1 Hcs1 Hp1).
  assert (R1 : reach_el n1 = true).
  { transitivity (reach_el (sweep true n)).
    - destruct n; reflexivity.
    - rewrite reach_el_sweep. exact R. }
  rewrite R1. f_equal. f_equal.
  assert (S1 : children (sweep false n1) = children n).
  { transitivity (children (sweep false (sweep true n))).
    - destruct n; reflexivity.
    - rewrite sweep_sweep, (sweep_shown n Sh). reflexivity. }
  rewrite S1. subst n1 e1. unfold with_icon. rewrite Hc. simpl.
  destruct n as [f cs]. simpl in *. f_equal.
  destruct f as [o k0 p v x t el0 d di pe pd]. simpl in *. subst.
  unfold set_isExpanded, set_el. simpl. f_equal. f_equal.
  destruct e as [u h m c]. simpl in *. subst. reflexivity.
Qed.

(** ** The first expansion *)

Lemma forEach_pointwise {S} (cb : node -> M S fields) (Q : node -> fields -> Prop) cs :
  Forall (fun c => forall s c' s', walk cb c s = Ok (c', s') -> pointwise Q c c') cs ->
  forall s cs' s', forEach (walk cb) cs s = Ok (cs', s') ->
                   Forall2 (pointwise Q) cs cs'.
Proof.
  induction 1 as [|c r Hc _ IH]; intros s cs' s' H; simpl in H.
  - injection H as <- <-. constructor.
  - unfold bind in H.
    destruct (walk cb c s) as [[c' s1]|e] eqn:E1; [|discriminate].
    destruct (forEach (walk cb) r s1) as [[r' s2]|e] eqn:E2; [|discriminate].
    injection H as <- <-. constructor; [exact (Hc _ _ _ E1) | exact (IH _ _ _ E2)].
Qed.

(** What the callback establishes at every visit holds at every place of
    the tree the walk returns. *)
Lemma walk_pointwise {S} (cb : node -> M S fields) (Q : node -> fields -> Prop) :
  (forall n s f s', cb n s = Ok (f, s') -> Q n f) ->
  forall nd s nd' s', walk cb nd s = Ok (nd', s') -> pointwise Q nd nd'.
Proof.
  intros Hcb nd. induction nd as [f cs IH] using node_ind.
  intros s nd' s' H. simpl in H. unfold bind in H.
  destruct (cb (Node f cs) s) as [[f1 s1]|e] eqn:E1; [|discriminate].
  destruct (forEach (walk cb) cs s1) as [[cs' s2]|e] eqn:E2; [|discriminate].
  injection H as <- <-. constructor.
  - exact (Hcb _ _ _ _ E1).
  - exact (forEach_pointwise cb Q cs IH _ _ _ E2).
Qed.

Lemma forEach_total {S} (cb : node -> M S fields) cs :
  Forall (fun c => forall s, exists c' s', walk cb c s = Ok (c', s')) cs ->
  forall s, exists cs' s', forEach (walk cb) cs s = Ok (cs', s').
Proof.
  induction 1 as [|c r Hc _ IH]; intros s.
  - eexists _, _. reflexivity.
  - simpl. unfold bind. destruct (Hc s) as (c' & s1 & E1). rewrite E1.
    destruct (IH s1) as (r' & s2 & E2). rewrite E2.
    eexists _, _. reflexivity.
Qed.

Lemma walk_total {S} (cb : node -> M S fields) :
  (forall n s, exists f s', cb n s = Ok (f, s')) ->
  forall nd s, exists nd' s', walk cb nd s = Ok (nd', s').
Proof.
  intros Hcb nd. induction nd as [f cs IH] using node_ind. intros s.
  simpl. unfold bind. destruct (Hcb (Node f cs) s) as (f1 & s1 & E1).
  rewrite E1. destruct (forEach_total cb cs IH s1) as (cs' & s2 & E2).
  rewrite E2. eexists _, _. reflexivity.
Qed.

Lemma materialize_visit_created n s f s' :
  materialize_visit n s = Ok (f, s') -> created n f.
Proof.
  unfold materialize_visit. destruct s as [w items].
  destruct (createNodeElement n w) as [[[e f0] w0]|x] eqn:E; [|discriminate].
  intros H. injection H as <- _. exists w, e, f0, w0. auto.
Qed.

Lemma materialize_visit_total n s :
  exists f s', materialize_visit n s = Ok (f, s').
Proof.
  unfold materialize_visit. destruct s as [w items].
  unfold createNodeElement. eexists _, _. reflexivity.
Qed.

Lemma created_fresh_line f cs f' cs' :
  created (Node f cs) f' -> List.length cs' = List.length cs ->
  fresh_line (Node f' cs') = true.
Proof.
  intros (w & e & f0 & w' & H & ->) L. unfold createNodeElement in H.
  injection H as <- <- _. unfold fresh_line. simpl. rewrite L.
  destruct cs; reflexivity.
Qed.

Lemma created_fresh_all nd nd' :
  pointwise created nd nd' -> fresh_all nd' = true.
Proof.
  induction 1 as [f cs f' cs' Hq Hall IH] using pointwise_ind.
  simpl. apply andb_true_intro. split.
  - apply (created_fresh_line f cs f' cs' Hq).
    symmetry. exact (Forall2_length Hall).
  - clear Hall Hq. induction IH as [|c c' r r' H _ IHr]; simpl;
      [reflexivity | now rewrite H, IHr].
Qed.

Lemma fresh_all_materialized nd :
  fresh_all nd = true -> materialized nd = true.
Proof.
  induction nd as [f cs IH] using node_ind. simpl. intros H.
  apply andb_prop in H. destruct H as [H1 H2].
  apply andb_true_intro. split.
  - unfold fresh_line in H1. apply andb_prop in H1. destruct H1 as [_ H1].
    unfold has_el. simpl in H1. destruct (el f); [reflexivity|discriminate].
  - rewrite forallb_forall in H2 |- *. rewrite Forall_forall in IH.
    intros c Hc. exact (IH c Hc (H2 c Hc)).
Qed.

Lemma opened_open_line f cs cs' :
  fresh_line (Node f cs) = true -> List.length cs' = List.length cs ->
  open_line (Node (opened (Node f cs)) cs') = true.
Proof.
  unfold fresh_line, opened, expand_visit, setCaretIconDown, open_line.
  simpl. intros H L. rewrite L.
  apply andb_prop in H. destruct H as [Hp H]. apply negb_true_iff in Hp.
  destruct (el f) as [e|] eqn:E; [|discriminate]. simpl.
  destruct cs as [|c r]; simpl in *.
  - rewrite Hp. destruct (content e); [discriminate | reflexivity].
  - unfold replace_icon. simpl.
    destruct (content e) as [icon cur k sz|]; [|discriminate]. simpl.
    rewrite Hp. destruct icon; reflexivity.
Qed.

(** [expand] turns a freshly materialized subtree into an open one. *)
Lemma fresh_all_opened nd :
  fresh_all nd = true -> open_all (map_nodes opened nd) = true.
Proof.
  induction nd as [f cs IH] using node_ind. intros H.
  simpl in H. apply andb_prop in H. destruct H as [H1 H2].
  simpl map_nodes. rewrite open_all_unfold. apply andb_true_intro. split.
  - apply opened_open_line; [exact H1 | apply length_map].
  - rewrite forallb_map. rewrite forallb_forall in H2 |- *.
    rewrite Forall_forall in IH. intros c Hc. exact (IH c Hc (H2 c Hc)).
Qed.

Lemma open_all_cursor u c nd :
  open_all nd = true -> open_all (set_caret_cursor u c nd) = true.
Proof.
  destruct nd as [f cs]. unfold set_caret_cursor. simpl fields_of.
  destruct (el f) as [e|] eqn:E; [|auto].
  destruct (uid e =? u)%nat; [|auto].
  destruct (content e) as [icon cur k sz|] eqn:C; [|auto].
  rewrite !open_all_unfold. intros H. apply andb_prop in H.
  destruct H as [H1 H2]. simpl children. rewrite H2, andb_true_r.
  unfold open_line in *. simpl in *. rewrite E, C in H1. exact H1.
Qed.

(** The first click on a node whose children are pending: whatever the
    state before, the subtree is open afterwards. *)
Lemma toggleNode_materialize (n : node) e icon cursor k size c0 rest w n1 w1 :
  isExpanded n = false ->
  el n = Some e -> content e = ExpandedLine icon cursor k size ->
  children n = c0 :: rest -> isPending c0 = true ->
  toggleNode (uid e) n w = Ok (n1, w1) ->
  open_all n1 = true.
Proof.
  destruct n as [f cs]. intros Hx He Hc Hcs Hp. simpl in Hx, He, Hcs. subst cs.
  unfold toggleNode, caret_cursor, set_caret_cursor. simpl.
  rewrite He, Nat.eqb_refl, Hc. simpl. rewrite Hx.
  unfold setCaretIconDown. simpl. unfold bind, lift.
  unfold toggleNode_show, bind. simpl. rewrite Hp.
  match goal with
  | |- match (match ?x with _ => _ end) with _ => _ end = _ -> _ =>
      destruct x as [[nd2 w2]|x2]; [|discriminate]
  end.
  rewrite traverse_local.
  destruct (walk_total materialize_visit materialize_visit_total nd2 (w2, []))
    as (nd3 & [w3 items] & E3).
  rewrite E3.
  pose proof (created_fresh_all _ _
                (walk_pointwise materialize_visit created
                   materialize_visit_created _ _ _ _ E3)) as F3.
  unfold lift at 1.
  rewrite (expand_materialized nd3 (fresh_all_materialized nd3 F3)).
  pose proof (fresh_all_opened nd3 F3) as O3.
  destruct (open_all_swept _ O3) as (Sh & R & _).
  unfold lift. rewrite showNodeChildren_sweep, R, (sweep_shown _ Sh).
  unfold ret. intros H. injection H as <- _.
  apply open_all_cursor. exact O3.
Qed.

Lemma open_all_first_child f c0 rest :
  open_all (Node f (c0 :: rest)) = true -> isPending c0 = false.
Proof.
  rewrite open_all_unfold. intros H. apply andb_prop in H. destruct H as [_ H].
  simpl in H. apply andb_prop in H. destruct H as [H _].
  destruct c0 as [g gs]. rewrite open_all_unfold in H.
  apply andb_prop in H. destruct H as [H _].
  exact (proj1 (proj2 (open_line_facts _ H))).
Qed.

(** The first click on a node whose children are pending returns, unless
    the first child is a placeholder whose pointer cannot be followed. *)
Lemma toggleNode_materialize_returns f e icon cursor k size (c0 : node) rest w :
  isExpanded f = false ->
  el f = Some e -> content e = ExpandedLine icon cursor k size ->
  isPending c0 = true ->
  (key_is "$ref" c0 = false \/
   exists target, resolveref (Node f (c0 :: rest)) = Ok target) ->
  exists n1 w1, toggleNode (uid e) (Node f (c0 :: rest)) w = Ok (n1, w1).
Proof.
  intros Hx He Hc Hp Href.
  unfold toggleNode, caret_cursor, set_caret_cursor. simpl.
  rewrite He, Nat.eqb_refl, Hc. simpl. rewrite Hx.
  unfold setCaretIconDown. simpl. unfold bind, lift.
  unfold toggleNode_show, bind. simpl. rewrite Hp.
  match goal with
  | |- exists _ _, match (match ?x with _ => _ end) with _ => _ end = _ =>
      assert (Hnd2 : exists nd2 w2, x = Ok (nd2, w2))
  end.
  { destruct (key_is "$ref" c0).
    - destruct Href as [Href | (target & Href)]; [discriminate|].
      unfold extendNodeElementByRef, rbind.
      match goal with
      | |- context [resolveref ?n] =>
          change (resolveref n) with (resolveref (Node f (c0 :: rest)))
      end.
      rewrite Href.
      match goal with
      | |- context [createSubnode ?a ?b ?c ?d] =>
          destruct (createSubnode a b c d)
      end.
      eexists _, _. reflexivity.
    - eexists _, _. reflexivity. }
  destruct Hnd2 as (nd2 & w2 & E2). rewrite E2.
  rewrite traverse_local.
  destruct (walk_total materialize_visit materialize_visit_total nd2 (w2, []))
    as (nd3 & [w3 items] & E3).
  rewrite E3.
  pose proof (created_fresh_all _ _
                (walk_pointwise materialize_visit created
                   materialize_visit_created _ _ _ _ E3)) as F3.
  unfold lift at 1.
  rewrite (expand_materialized nd3 (fresh_all_materialized nd3 F3)).
  pose proof (fresh_all_opened nd3 F3) as O3.
  destruct (open_all_swept _ O3) as (Sh & R & _).
  unfold lift. rewrite showNodeChildren_sweep, R, (sweep_shown _ Sh).
  unfold ret. eexists _, _. reflexivity.
Qed.

(** C5.  A node shows its caret, is collapsed, and its first child is
    pending.  The click that expands it returns, unless that child is a
    placeholder whose pointer cannot be followed.  When it returns, the
    subtree is open: every node in it has its element and is shown.  If the
    node has no child left then (its reference led to nothing), its new line
    has no caret and a click does nothing.  Otherwise the next click
    collapses it and hides everything below, and the click after that gives
    back the state after the first expansion, node for node and element for
    element; the world, with its count of created elements, stays as it
    was. *)
Theorem expand_collapse_expand
  (n : node) e icon cursor k size c0 rest w :
  el n = Some e -> content e = ExpandedLine icon cursor k size ->
  hidden e = false ->
  isExpanded n = false ->
  children n = c0 :: rest -> isPending c0 = true ->
  ((key_is "$ref" c0 = false \/ exists target, resolveref n = Ok target) ->
   exists n1 w1, click n w = Ok (n1, w1)) /\
  forall n1 w1,
    click n w = Ok (n1, w1) ->
    open_all n1 = true /\
    (children n1 = [] -> click n1 w1 = Ok (n1, w1)) /\
    (children n1 <> [] ->
     exists n2,
       click n1 w1 = Ok (n2, w1) /\
       isExpanded n2 = false /\
       all_hidden_below n2 = true /\
       click n2 w1 = Ok (n1, w1)).
Proof.
  intros He Hc Hh Hx Hcs Hp.
  rewrite (click_caret n e _ _ _ _ He Hc Hh). split.
  { destruct n as [f cs]. simpl in He, Hx, Hcs. subst cs.
    exact (toggleNode_materialize_returns f e _ _ _ _ c0 rest w Hx He Hc Hp). }
  intros n1 w1 H.
  pose proof (toggleNode_materialize n e _ _ _ _ c0 rest w n1 w1
                Hx He Hc Hcs Hp H) as O.
  split; [exact O|].
  destruct (open_all_swept _ O) as (Sh & R & Cv).
  destruct n1 as [f1 cs1]. pose proof O as O'.
  rewrite open_all_unfold in O'. apply andb_prop in O'. destruct O' as [L _].
  destruct (open_line_facts _ L) as (X1 & _ & _ & _).
  unfold open_line in L. simpl in L, X1.
  destruct (el f1) as [e1|] eqn:E1;
    [|rewrite andb_false_r in L; discriminate].
  apply andb_prop in L. destruct L as [_ L].
  apply andb_prop in L. destruct L as [Hh1 L]. apply negb_true_iff in Hh1.
  split.
  - simpl. intros ->. unfold click. simpl. rewrite E1.
    destruct (content e1); [|reflexivity].
    simpl in L. rewrite andb_false_r in L. discriminate.
  - simpl. intros Hne. destruct cs1 as [|c1 r1]; [contradiction|].
    destruct (content e1) as [ic cur1 k1 sz1|] eqn:C1; [|discriminate].
    apply andb_prop in L. destruct L as [L _].
    destruct ic; [discriminate|].
    destruct (collapse_expand_roundtrip (Node f1 (c1 :: r1)) e1 cur1 k1 sz1
                c1 r1 w1 X1 E1 Hh1 C1 eq_refl
                (open_all_first_child _ _ _ O) R Sh)
      as (n2 & A & B & C & D).
    exists n2. repeat split; auto.
    transitivity (all_hidden_below (sweep true (Node f1 (c1 :: r1)))).
    + destruct n2 as [f2 cs2]. simpl in C. subst cs2. reflexivity.
    + apply all_hidden_sweep. exact Cv.
Qed.

Lemma expand_collapse_expand_witness :
  exists n w n1 w1 n2,
    pending_sample = Some (n, w) /\
    key n = Some "x" /\
    click n w = Ok (n1, w1) /\
    map (fun c : node => key c) (children n1) = [Some "p"; Some "q"] /\
    click n1 w1 = Ok (n2, w1) /\
    isExpanded n2 = false /\
    click n2 w1 = Ok (n1, w1).
Proof.
  eexists _, _, _, _.
  match goal with
  | |- exists n2, pending_sample = Some (?n, ?w) /\ _ =>
      assert (S : pending_sample = Some (n, w)) by reflexivity
  end.
  match type of S with
  | _ = Some (?n, ?w) =>
      assert (H : click n w = Ok (_, _)) by (vm_compute; reflexivity);
      destruct (expand_collapse_expand n _ _ _ _ _ _ _ w
                  eq_refl eq_refl eq_refl eq_refl eq_refl eq_refl)
        as (_ & G);
      destruct (G _ _ H) as (_ & _ & (n2 & A & B & _ & D))
  end.
  - discriminate.
  - exists n2. split; [exact S|]. split; [reflexivity|].
    split; [exact H|]. split; [reflexivity|]. auto.
Defined.

(** ** The state after [render] *)

Lemma tree_ok_unfold f cs :
  tree_ok (Node f cs) <-> node_ok (Node f cs) /\ Forall tree_ok cs.
Proof.
  unfold tree_ok. rewrite nodes_unfold. split.
  - intros H. inversion H as [|? ? H1 H2]; subst. split; [exact H1|].
    apply Forall_forall. intros c Hc. apply Forall_forall. intros n Hn.
    rewrite Forall_forall in H2. apply H2. apply in_flat_map. eauto.
  - intros [H1 H2]. constructor; [exact H1|].
    apply Forall_forall. intros n Hn. apply in_flat_map in Hn.
    destruct Hn as (c & Hc & Hn). rewrite Forall_forall in H2.
    specialize (H2 c Hc). rewrite Forall_forall in H2. auto.
Qed.

Lemma same_line_refl e : same_line e e.
Proof.
  unfold same_line. repeat split. destruct (content e); eauto.
Qed.

Lemma same_line_patch count e e' :
  same_line e e' -> same_line e (patch_size count e').
Proof.
  unfold same_line, patch_size. intros (U & H & C).
  destruct (content e) as [icon cur k sz|] eqn:E.
  - destruct C as (sz' & C). rewrite C. simpl. repeat split; eauto.
  - rewrite C. simpl. rewrite C. auto.
Qed.

Lemma patched_facts f f' :
  patched f f' ->
  key f' = key f /\ isPending f' = isPending f /\
  isExpanded f' = isExpanded f /\ type f' = type f /\
  parent f' = parent f /\
  (el f = None -> f' = f) /\
  (forall e, el f = Some e -> exists e', el f' = Some e' /\ same_line e e').
Proof.
  induction 1 as [|f' e count H IH He].
  - repeat split; auto. intros e He. exists e. split; [exact He|].
    apply same_line_refl.
  - destruct IH as (A & B & C & D & P & N & S). simpl.
    repeat split; auto.
    + intros Hn. rewrite (N Hn) in He. congruence.
    + intros e0 He0. destruct (S e0 He0) as (e' & He' & L).
      rewrite He in He'. injection He' as <-.
      eexists. split; [reflexivity|]. apply same_line_patch. exact L.
Qed.

Lemma patched_trans f g h : patched f g -> patched g h -> patched f h.
Proof.
  intros H1 H2. induction H2 as [|h e count _ IH He]; [exact H1|].
  apply patched_more; assumption.
Qed.

Lemma iface_refl c : iface c c.
Proof. unfold iface. auto. Qed.

Lemma iface_placeholder cs cs' :
  Forall2 iface cs cs' ->
  forallb (fun c : node => negb (placeholder c)) cs'
  = forallb (fun c : node => negb (placeholder c)) cs.
Proof.
  induction 1 as [|c c' r r' (K & P & _) _ IH]; [reflexivity|].
  simpl. rewrite IH. unfold placeholder, key_is. rewrite K, P. reflexivity.
Qed.

Lemma built_raw late up c : built late up c -> raw late c /\ parent c <> None.
Proof.
  destruct c as [f cs]. rewrite built_unfold.
  intros (_ & _ & P & _ & E & X & T & B). unfold raw. simpl.
  rewrite P. repeat split; auto. discriminate.
Qed.

Lemma render_visit_cases up (nd : node) s up1 f1 s1 :
  render_visit up nd s = Ok ((up1, f1), s1) ->
  (isPending nd = false /\
   up1 = option_map fields_of up /\
   exists e f0 w', createNodeElement nd (fst s) = Ok ((e, f0), w') /\
                   f1 = set_el (Some e) f0) \/
  (isPending nd = true /\ f1 = fields_of nd /\
   (up1 = option_map fields_of up \/
    (key_is "$ref" nd = true /\
     exists p e count,
       up = Some p /\ el p = Some e /\
       up1 = Some (set_el (Some (patch_size count e)) p)))).
Proof.
  unfold render_visit. destruct (isPending nd) eqn:P; simpl.
  - destruct (key_is "$ref" nd) eqn:K.
    + destruct up as [p|]; [|discriminate]. unfold bind, lift.
      destruct (resolveref p) as [target|x]; [|discriminate].
      destruct (el p) as [e|] eqn:E; [|discriminate].
      unfold ret. intros H. injection H as <- <- _.
      right. repeat split. right. split; [reflexivity|].
      exists p, e, (countElements target). auto.
    + unfold ret. intros H. injection H as <- <- _. right. auto.
  - destruct s as [w items]. cbn [fst].
    destruct (createNodeElement nd w) as [[[e f0] w']|x] eqn:E; [|discriminate].
    intros H. injection H as <- <- _. left.
    split; [reflexivity|]. split; [reflexivity|]. exists e, f0, w'.
    split; [reflexivity|].
    unfold createNodeElement in E. injection E as <- <- _. reflexivity.
Qed.

Lemma render_children late cs0 cs :
  Forall (fun c => raw late c /\ parent c <> None) cs ->
  Forall (fun c => raw late c ->
                   forall up s up' c' s',
                     traverse render_visit up c s = Ok ((up', c'), s') ->
                     render_post up c up' c') cs ->
  forall f s f' cs' s',
    forEach_below (fun f child => traverse render_visit (Some (Node f cs0)) child)
                  cs f s = Ok ((f', cs'), s') ->
    Forall tree_ok cs' /\ Forall2 iface cs cs' /\
    Forall (fun c' : node => isExpanded c' = false /\ is_hidden c' = true) cs' /\
    patched f f' /\
    (forallb (fun c : node => negb (placeholder c)) cs = true -> f' = f).
Proof.
  intros Hraw. induction Hraw as [|c r [Hc Hpar] _ IH]; intros HIH f s f' cs' s' H.
  - simpl in H. injection H as <- <- _.
    repeat split; auto using patched_none.
  - inversion HIH as [|? ? Hic Hir]; subst.
    simpl in H. unfold bind in H.
    destruct (traverse render_visit (Some (Node f cs0)) c s)
      as [[[up1 c1] s1]|x] eqn:E1; [|discriminate].
    destruct (Hic Hc _ _ _ _ _ E1) as (T1 & I1 & X1 & Hid1 & U1).
    destruct (U1 _ eq_refl) as (f'' & -> & Hf'').
    destruct (forEach_below _ r f'' s1) as [[[f2 r'] s2]|x] eqn:E2; [|discriminate].
    injection H as <- <- _.
    destruct (IH Hir _ _ _ _ _ E2) as (T2 & I2 & X2 & P2 & N2).
    repeat split; auto.
    + destruct Hf'' as [-> | (_ & e & count & He & ->)]; [exact P2|].
      eapply patched_trans; [|exact P2].
      apply patched_more; [apply patched_none | exact He].
    + simpl. intros Hn. apply andb_prop in Hn. destruct Hn as [Hn1 Hn2].
      rewrite (N2 Hn2).
      destruct Hf'' as [-> | (Hpl & _)]; [reflexivity|].
      rewrite Hpl in Hn1. discriminate.
Qed.

Lemma tree_ok_head nd : tree_ok nd -> node_ok nd.
Proof. destruct nd. rewrite tree_ok_unfold. tauto. Qed.

Lemma createNodeElement_facts (nd : node) w e f0 w' :
  createNodeElement nd w = Ok ((e, f0), w') ->
  hidden e = (match parent nd with Some _ => true | None => false end) /\
  (children nd = [] -> exists k v t, content e = NotExpandedLine k v t) /\
  (children nd <> [] ->
   content e = ExpandedLine CaretRight "" (key nd) (getSizeString nd)) /\
  key f0 = key nd /\ isPending f0 = isPending nd /\
  isExpanded f0 = isExpanded nd /\ type f0 = type nd /\ parent f0 = parent nd.
Proof.
  unfold createNodeElement. intros H. injection H as <- <- _.
  destruct nd as [f cs]. destruct cs as [|c r]; simpl.
  - repeat split; eauto. intros H. contradiction.
  - repeat split; eauto. intros H. discriminate.
Qed.

Lemma all_hidden_rendered cs' :
  Forall tree_ok cs' ->
  Forall (fun c' : node => isExpanded c' = false /\ is_hidden c' = true) cs' ->
  forallb (fun c : node => is_hidden c && all_hidden_below c) cs' = true.
Proof.
  intros T X. apply forallb_forall. intros c Hc.
  rewrite Forall_forall in T, X. destruct (X c Hc) as [X1 X2].
  rewrite X2. simpl.
  destruct (tree_ok_head c (T c Hc)) as (_ & _ & I & _). exact (I X1).
Qed.

(** The subtree of a node after the walk of [render] has left it. *)
Lemma render_node late nd :
  raw late nd ->
  forall up s up' nd' s',
    traverse render_visit up nd s = Ok ((up', nd'), s') ->
    render_post up nd up' nd'.
Proof.
  induction nd as [f cs IH] using node_ind.
  intros (El & Ex & Ty & B) up s up' nd' s' H. simpl in El, Ex, Ty, B.
  simpl in H. unfold bind in H.
  destruct (render_visit up (Node f cs) s) as [[[up1 f1] s1]|x] eqn:E1;
    [|discriminate].
  destruct (forEach_below _ cs f1 s1) as [[[f2 cs'] s2]|x] eqn:E2;
    [|discriminate].
  injection H as <- <- _.
  assert (Hraw : Forall (fun c => raw late c /\ parent c <> None) cs).
  { eapply Forall_impl; [|exact B]. intros c. apply built_raw. }
  destruct (render_children late cs cs Hraw IH _ _ _ _ _ E2)
    as (T2 & I2 & X2 & P2 & N2).
  destruct (patched_facts _ _ P2) as (K2 & Pe2 & Ex2 & Ty2 & Pa2 & No2 & So2).
  pose proof (Forall2_length I2) as Len.
  assert (F1 : key f1 = key f /\ isPending f1 = isPending f /\
               isExpanded f1 = false /\ type f1 = type f /\
               parent f1 = parent f /\
               (isPending f = true -> el f1 = None) /\
               (forall e1, el f1 = Some e1 ->
                  hidden e1 = (match parent f with Some _ => true | None => false end) /\
                  (cs = [] -> exists k v t, content e1 = NotExpandedLine k v t) /\
                  (cs <> [] ->
                   content e1 = ExpandedLine CaretRight "" (key f)
                                  (getSizeString (Node f cs))))).
  { destruct (render_visit_cases _ _ _ _ _ _ E1)
      as [(P & _ & e & f0 & w' & C & ->) | (P & -> & _)].
    - destruct (createNodeElement_facts _ _ _ _ _ C)
        as (A1 & A2 & A3 & A4 & A5 & A6 & A7 & A8).
      simpl in *. rewrite A4, A5, A6, A7, A8, Ex.
      repeat split; auto; try congruence.
      all: match goal with
           | H : Some _ = Some _ |- _ => injection H as <-; assumption
           end.
    - simpl. repeat split; auto; try congruence. }
  destruct F1 as (K1 & Pe1 & Ex1 & Ty1 & Pa1 & No1 & So1).
  unfold render_post. split; [|split; [|split; [|split]]].
  - apply tree_ok_unfold. split; [|exact T2].
    unfold node_ok. simpl. split; [|split; [|split; [|split]]].
    + intros Hp. rewrite Pe2, Pe1 in Hp. rewrite (No2 (No1 Hp)). exact (No1 Hp).
    + intros Hx. rewrite Ex2, Ex1 in Hx. discriminate.
    + intros _. apply all_hidden_rendered; assumption.
    + intros Hne. rewrite Ty2, Ty1. apply Ty. intros ->.
      destruct cs'; [contradiction | discriminate].
    + intros e2 icon cursor k size He2 Hc2.
      destruct (el f1) as [e1|] eqn:He1.
      * destruct (So2 e1 eq_refl) as (e2' & He2' & (_ & _ & L)).
        rewrite He2 in He2'. injection He2' as <-.
        destruct (So1 e1 eq_refl) as (_ & C0 & C1).
        destruct cs as [|c r].
        { destruct (C0 eq_refl) as (k0 & v0 & t0 & C). rewrite C in L.
          rewrite L in Hc2. discriminate. }
        split; [destruct cs'; discriminate|].
        intros Hn. unfold no_placeholder in Hn. simpl in Hn.
        rewrite (iface_placeholder _ _ I2) in Hn.
        rewrite (N2 Hn) in He2. rewrite He1 in He2. injection He2 as <-.
        rewrite (C1 ltac:(discriminate)) in Hc2. injection Hc2 as _ _ _ <-.
        unfold getSizeString. simpl. rewrite Ty2, Ty1, <- Len. reflexivity.
      * rewrite (No2 eq_refl), He1 in He2. discriminate.
  - unfold iface. simpl. rewrite K2, K1, Pe2, Pe1. repeat split.
    unfold has_el. rewrite El. discriminate.
  - simpl. rewrite Ex2. exact Ex1.
  - simpl. intros Hpar. unfold is_hidden.
    destruct (el f1) as [e1|] eqn:He1.
    + destruct (So2 e1 eq_refl) as (e2 & He2 & (_ & Hh & _)).
      rewrite He2, Hh. destruct (So1 e1 eq_refl) as (Hh1 & _). rewrite Hh1.
      destruct (parent f); [reflexivity | contradiction].
    + rewrite (No2 eq_refl), He1. reflexivity.
  - intros p ->.
    destruct (render_visit_cases _ _ _ _ _ _ E1)
      as [(_ & -> & _) | (P & _ & [-> | (K & p' & e & count & Hp' & He & ->)])].
    + eexists. split; [reflexivity|]. left. reflexivity.
    + eexists. split; [reflexivity|]. left. reflexivity.
    + injection Hp' as <-. eexists. split; [reflexivity|]. right.
      split; [unfold placeholder; simpl in *; rewrite P, K; reflexivity|].
      eauto.
Qed.

Lemma render_establishes parse jsonData w0 tree w :
  renderJSON parse jsonData w0 = Ok (tree, w) -> tree_ok tree.
Proof.
  unfold renderJSON, rbind.
  destruct (getJsonObject parse jsonData) as [doc|x]; [|discriminate].
  destruct (create parse doc (next_oid w0)) as [[root next]|x] eqn:E;
    [|discriminate].
  destruct (create_spec _ _ _ _ _ E)
    as (doc' & f & new & _ & -> & B & _ & _ & _ & El & Ex & _ & _ & _ & _ & _ & T).
  unfold render.
  destruct (traverse render_visit None (Node f new) _)
    as [[[up' tree'] [w1 items]]|x] eqn:R; [|discriminate].
  intros H. injection H as <- _.
  assert (Hraw : raw false (Node f new)) by (unfold raw; simpl; auto).
  destruct (render_node false (Node f new) Hraw _ _ _ _ _ R) as (Ok' & _).
  exact Ok'.
Qed.

(** ** Clicks keep the state well formed *)

Lemma forallb_has_el_iface cs cs' :
  Forall2 iface cs cs' ->
  forallb (fun c : node => has_el c) cs = true ->
  forallb (fun c : node => has_el c) cs' = true.
Proof.
  induction 1 as [|c c' r r' (_ & _ & E) _ IH]; [auto|].
  simpl. intros H. apply andb_prop in H. destruct H as [H1 H2].
  rewrite (E H1), (IH H2). reflexivity.
Qed.

Lemma getSizeString_ext f f' cs cs' :
  type f' = type f -> List.length cs' = List.length cs ->
  getSizeString (Node f' cs') = getSizeString (Node f cs).
Proof. unfold getSizeString. simpl. intros -> ->. reflexivity. Qed.

(** [node_ok] carries over to a node whose properties and children differ
    only in what it does not depend on. *)
Lemma node_ok_transfer f cs f' cs' :
  node_ok (Node f cs) ->
  fields_sim f f' -> Forall2 iface cs cs' ->
  (isExpanded f' = true ->
   isExpanded f = true \/
   (forallb (fun c : node => has_el c) cs' = true /\
    match cs' with c0 :: _ => isPending c0 = false | [] => True end)) ->
  (isExpanded f' = false -> all_hidden_below (Node f' cs') = true) ->
  node_ok (Node f' cs').
Proof.
  intros (Q & J & _ & T & L) (Pe & Ty & No & So) I HJ HI.
  pose proof (Forall2_length I) as Len.
  unfold node_ok. simpl in *. split; [|split; [|split; [|split]]].
  - intros Hp. rewrite Pe in Hp. auto.
  - intros Hx. destruct (HJ Hx) as [Hx0 | ?]; [|assumption].
    destruct (J Hx0) as [J1 J2]. split.
    + exact (forallb_has_el_iface _ _ I J1).
    + destruct I as [|c c' r r' (_ & P & _) _]; [exact I|].
      rewrite P. exact J2.
  - exact HI.
  - intros Hne. rewrite Ty. apply T. intros ->.
    destruct cs'; [contradiction | discriminate].
  - intros e' icon cursor k size He' Hc'.
    destruct (So _ _ _ _ _ He' Hc') as (e & icon0 & cursor0 & k0 & He & Hc).
    destruct (L _ _ _ _ _ He Hc) as [L1 L2]. split.
    + intros ->. destruct cs; [contradiction | discriminate].
    + unfold no_placeholder in *. simpl in *.
      rewrite (iface_placeholder _ _ I). intros Hn.
      rewrite (L2 Hn). symmetry. apply getSizeString_ext; auto.
Qed.

Lemma fields_sim_with_hidden b f : fields_sim f (with_hidden b f).
Proof.
  unfold fields_sim, with_hidden. destruct (el f) as [e|] eqn:E; simpl.
  - repeat split; try discriminate.
    intros e' icon cursor k size He' Hc'. injection He' as <-. simpl in Hc'.
    eauto 10.
  - repeat split; auto. intros e' icon cursor k size He'. congruence.
Qed.

Lemma iface_swept b (c : node) cs' :
  iface c (Node (with_hidden b c) cs').
Proof.
  unfold iface. simpl. unfold with_hidden, has_el.
  destruct (el c) eqn:E; simpl; rewrite ?E; auto.
Qed.

Lemma sweep_iface b cs :
  Forall2 iface cs
    (map (fun c : node => Node (with_hidden b c)
                               (if isExpanded c then children (sweep b c)
                                else children c)) cs).
Proof.
  induction cs as [|c r IH]; simpl; constructor; [apply iface_swept | exact IH].
Qed.

(** A sweep keeps the swept children well formed. *)
Lemma sweep_child_ok b c :
  tree_ok c ->
  tree_ok (Node (with_hidden b c)
                (if isExpanded c then children (sweep b c) else children c)).
Proof.
  induction c as [g gs IH] using node_ind. intros H.
  apply tree_ok_unfold in H. destruct H as [H1 H2].
  simpl fields_of. simpl children at 2.
  destruct (isExpanded g) eqn:X.
  - rewrite sweep_unfold. simpl children. apply tree_ok_unfold. split.
    + apply (node_ok_transfer g gs);
        [ exact H1
        | apply fields_sim_with_hidden
        | apply sweep_iface
        | rewrite with_hidden_isExpanded; intros _; left; exact X
        | rewrite with_hidden_isExpanded, X; discriminate ].
    + apply Forall_forall. intros c' Hc'. apply in_map_iff in Hc'.
      destruct Hc' as (c & <- & Hc). rewrite Forall_forall in IH, H2.
      exact (IH c Hc (H2 c Hc)).
  - apply tree_ok_unfold. split; [|exact H2].
    apply (node_ok_transfer g gs);
      [ exact H1
      | apply fields_sim_with_hidden
      | clear; induction gs; constructor; [apply iface_refl | assumption]
      | rewrite with_hidden_isExpanded, X; discriminate
      | intros _; destruct H1 as (_ & _ & I & _); exact (I X) ].
Qed.

Lemma sweep_children_ok b nd :
  tree_ok nd -> Forall tree_ok (children (sweep b nd)).
Proof.
  destruct nd as [f cs]. rewrite tree_ok_unfold, sweep_unfold.
  intros [_ H]. simpl. apply Forall_forall. intros c' Hc'.
  apply in_map_iff in Hc'. destruct Hc' as (c & <- & Hc).
  rewrite Forall_forall in H. exact (sweep_child_ok b c (H c Hc)).
Qed.

(** In a well-formed subtree the sweeps reach only nodes with elements, if
    its top is expanded, and what they do not reach is hidden. *)
Lemma tree_ok_covered nd : tree_ok nd -> covered nd = true.
Proof.
  induction nd as [f cs IH] using node_ind. rewrite tree_ok_unfold.
  intros [_ H]. simpl. apply forallb_forall. intros c Hc.
  rewrite Forall_forall in IH, H. specialize (H c Hc).
  destruct (isExpanded c) eqn:X; [exact (IH c Hc H)|].
  destruct (tree_ok_head c H) as (_ & _ & I & _). exact (I X).
Qed.

Lemma tree_ok_reach_el nd :
  tree_ok nd -> isExpanded nd = true -> reach_el nd = true.
Proof.
  induction nd as [f cs IH] using node_ind. rewrite tree_ok_unfold.
  intros [(_ & J & _) H] X. simpl in *. destruct (J X) as [J1 _].
  rewrite forallb_forall in J1 |- *. intros c Hc. rewrite (J1 c Hc). simpl.
  rewrite Forall_forall in IH, H.
  destruct (isExpanded c) eqn:Xc; [|reflexivity].
  exact (IH c Hc (H c Hc) Xc).
Qed.

Lemma fields_sim_toggled b icon0 f e icon cursor k size :
  el f = Some e -> content e = ExpandedLine icon cursor k size ->
  fields_sim f (set_isExpanded b (set_el (Some (with_icon icon0 e)) f)).
Proof.
  intros He Hc. unfold fields_sim. simpl. repeat split.
  - congruence.
  - intros e' icon' cursor' k' size' He' Hc'. injection He' as <-.
    destruct (with_icon_facts icon0 e _ _ _ _ Hc) as (_ & _ & C).
    rewrite C in Hc'. injection Hc' as _ _ _ <-. eauto 10.
Qed.

(** A click that collapses. *)
Lemma click_collapse_ok (n : node) e icon cursor k size w n' w' :
  tree_ok n -> isExpanded n = true ->
  el n = Some e -> content e = ExpandedLine icon cursor k size ->
  hidden e = false ->
  click n w = Ok (n', w') ->
  n' = Node (set_isExpanded false (set_el (Some (with_icon CaretRight e)) n))
            (children (sweep true n)) /\
  w' = w /\ tree_ok n' /\ iface n n'.
Proof.
  intros T X He Hc Hh H.
  destruct (tree_ok_head _ T) as (_ & _ & _ & _ & L).
  destruct (L _ _ _ _ _ He Hc) as [Hne _].
  rewrite (click_caret n e _ _ _ _ He Hc Hh) in H.
  rewrite (toggleNode_collapse n e _ _ _ _ w X He Hc Hne) in H.
  rewrite (tree_ok_reach_el _ T X) in H. injection H as <- <-.
  split; [reflexivity|]. split; [reflexivity|].
  destruct n as [f cs]. simpl fields_of in *. split.
  - rewrite sweep_unfold. simpl children. apply tree_ok_unfold. split.
    + apply (node_ok_transfer f cs);
        [ exact (tree_ok_head _ T)
        | exact (fields_sim_toggled false CaretRight f e _ _ _ _ He Hc)
        | apply sweep_iface
        | simpl; discriminate
        | intros _ ].
      exact (all_hidden_sweep (Node f cs) (tree_ok_covered _ T)).
    + exact (sweep_children_ok true (Node f cs) T).
  - unfold iface, has_el. simpl. auto.
Qed.

(** A click that expands a node whose children are materialized. *)
Lemma click_expand_ok (n : node) e icon cursor k size c0 rest w n' w' :
  tree_ok n -> isExpanded n = false ->
  el n = Some e -> content e = ExpandedLine icon cursor k size ->
  hidden e = false ->
  children n = c0 :: rest -> isPending c0 = false ->
  click n w = Ok (n', w') ->
  n' = Node (set_isExpanded true (set_el (Some (with_icon CaretDown e)) n))
            (children (sweep false n)) /\
  w' = w /\ reach_el n = true /\ tree_ok n' /\ iface n n'.
Proof.
  intros T X He Hc Hh Hcs Hp H.
  rewrite (click_caret n e _ _ _ _ He Hc Hh) in H.
  rewrite (toggleNode_expand n e _ _ _ _ c0 rest w X He Hc Hcs Hp) in H.
  destruct (reach_el n) eqn:R; [|discriminate]. injection H as <- <-.
  split; [reflexivity|]. split; [reflexivity|]. split; [reflexivity|].
  destruct n as [f cs]. simpl fields_of in *. simpl in Hcs. split.
  - rewrite sweep_unfold. simpl children. apply tree_ok_unfold. split.
    + apply (node_ok_transfer f cs);
        [ exact (tree_ok_head _ T)
        | exact (fields_sim_toggled true CaretDown f e _ _ _ _ He Hc)
        | apply sweep_iface
        | intros _; right
        | simpl; discriminate ].
      split.
      * rewrite forallb_map. simpl in R. rewrite forallb_forall in R |- *.
        intros c Hin. specialize (R c Hin). apply andb_prop in R.
        cbn [fields_of]. rewrite with_hidden_has_el. exact (proj1 R).
      * subst cs. simpl. rewrite with_hidden_isPending. exact Hp.
    + exact (sweep_children_ok false (Node f cs) T).
  - unfold iface, has_el. simpl. auto.
Qed.

(** ** The first expansion keeps the state well formed *)

(** The steps of the click that materializes: the part before the timer
    leaves properties [g]; the placeholder, if the first child is one, gives
    way to the built children [new]; the walk creates the elements;
    [expand] opens the subtree; the old caret gets its cursor back. *)
Lemma toggleNode_materialize_steps f e icon cursor k size (c0 : node) rest w n1 w1 :
  isExpanded f = false ->
  el f = Some e -> content e = ExpandedLine icon cursor k size ->
  isPending c0 = true ->
  toggleNode (uid e) (Node f (c0 :: rest)) w = Ok (n1, w1) ->
  exists g nd2 nd3 s2 s3,
    key g = key f /\ type g = type f /\
    (nd2 = Node g (c0 :: rest) \/
     exists new, Forall (built false g) new /\ nd2 = Node g (rest ++ new)) /\
    walk materialize_visit nd2 s2 = Ok (nd3, s3) /\
    n1 = set_caret_cursor (uid e) cursor (map_nodes opened nd3).
Proof.
  intros Hx He Hc Hp.
  unfold toggleNode, caret_cursor, set_caret_cursor. simpl.
  rewrite He, Nat.eqb_refl, Hc. simpl. rewrite Hx.
  unfold setCaretIconDown. simpl. unfold bind, lift.
  unfold toggleNode_show, bind. simpl. rewrite Hp.
  match goal with
  | |- match (match (if _ then _ else ret (Node ?g0 _)) w with _ => _ end)
       with _ => _ end = _ -> _ => set (g := g0)
  end.
  assert (Hnd2 : forall nd2 w2,
             (if key_is "$ref" c0
              then fun w0 : world =>
                     match extendNodeElementByRef (Node g (c0 :: rest)) (next_oid w0) with
                     | Ok (nd, next) => Ok (nd, mkWorld next (next_uid w0) (page w0))
                     | Throw x => Throw x
                     end
              else ret (Node g (c0 :: rest))) w = Ok (nd2, w2) ->
             nd2 = Node g (c0 :: rest) \/
             exists new, Forall (built false g) new /\ nd2 = Node g (rest ++ new)).
  { intros nd2 w2. destruct (key_is "$ref" c0).
    - unfold extendNodeElementByRef, rbind.
      destruct (resolveref (Node g (c0 :: rest))) as [target|x]; [|discriminate].
      destruct (createSubnode_spec false target (Node g (c0 :: rest)) (next_oid w))
        as (new & k' & E & B & _).
      rewrite E. intros H. injection H as <- _. right. exists new.
      split; [exact B | reflexivity].
    - unfold ret. intros H. injection H as <- _. left. reflexivity. }
  match goal with
  | |- match (match ?x with _ => _ end) with _ => _ end = _ -> _ =>
      destruct x as [[nd2 w2]|x2] eqn:E2; [|discriminate]
  end.
  specialize (Hnd2 nd2 w2 E2).
  rewrite traverse_local.
  destruct (walk materialize_visit nd2 (w2, [])) as [[nd3 [w3 items]]|x] eqn:E3;
    [|discriminate].
  unfold lift at 1.
  destruct (expand nd3) as [nd4|x] eqn:E4; [|discriminate].
  pose proof (created_fresh_all _ _
                (walk_pointwise materialize_visit created
                   materialize_visit_created _ _ _ _ E3)) as F3.
  rewrite (expand_materialized nd3 (fresh_all_materialized nd3 F3)) in E4.
  injection E4 as <-.
  pose proof (fresh_all_opened nd3 F3) as O3.
  destruct (open_all_swept _ O3) as (Sh & R & _).
  unfold lift. rewrite showNodeChildren_sweep, R, (sweep_shown _ Sh).
  unfold ret. intros H. injection H as <- _.
  exists g, nd2, nd3, (w2, []), (w3, items).
  subst g. simpl. repeat split; auto.
Qed.

Lemma all_typed_unfold f cs :
  all_typed (Node f cs) <-> typed (Node f cs) /\ Forall all_typed cs.
Proof.
  unfold all_typed. rewrite nodes_unfold. split.
  - intros H. inversion H as [|? ? H1 H2]; subst. split; [exact H1|].
    apply Forall_forall. intros c Hc. apply Forall_forall. intros n Hn.
    rewrite Forall_forall in H2. apply H2. apply in_flat_map. eauto.
  - intros [H1 H2]. constructor; [exact H1|].
    apply Forall_forall. intros n Hn. apply in_flat_map in Hn.
    destruct Hn as (c & Hc & Hn). rewrite Forall_forall in H2.
    specialize (H2 c Hc). rewrite Forall_forall in H2. auto.
Qed.

Lemma tree_ok_typed nd : tree_ok nd -> all_typed nd.
Proof.
  unfold tree_ok, all_typed. apply Forall_impl.
  intros n (_ & _ & _ & T & _). exact T.
Qed.

Lemma built_typed late c : forall up, built late up c -> all_typed c.
Proof.
  induction c as [f cs IH] using node_ind. intros up B.
  apply built_unfold in B. destruct B as (_ & _ & _ & _ & _ & _ & T & B).
  apply all_typed_unfold. split; [exact T|].
  rewrite Forall_forall in IH, B |- *. intros c Hc. exact (IH c Hc f (B c Hc)).
Qed.

Lemma opened_facts (n : node) :
  key (opened n) = key n /\ type (opened n) = type n /\
  isPending (opened n) = isPending n /\
  forall e' icon cursor k size,
    el (opened n) = Some e' -> content e' = ExpandedLine icon cursor k size ->
    exists e icon0, el n = Some e /\ content e = ExpandedLine icon0 cursor k size.
Proof.
  unfold opened, expand_visit, setCaretIconDown.
  destruct (el n) as [e|] eqn:E; simpl.
  - destruct (0 <? Datatypes.length (children n))%nat; simpl.
    + repeat split. intros e' icon cursor k size He' Hc'.
      injection He' as <-. unfold replace_icon in Hc'. simpl in Hc'.
      destruct (content e) as [i0 c0 k0 s0|] eqn:C; simpl in Hc'.
      * injection Hc' as _ <- <- <-. eauto.
      * try rewrite C in Hc'; discriminate.
    + repeat split. intros e' icon cursor k size He' Hc'.
      injection He' as <-. simpl in Hc'. eauto.
  - repeat split. intros e' icon cursor k size He'. congruence.
Qed.

Lemma created_facts f cs f3 :
  created (Node f cs) f3 ->
  key f3 = key f /\ type f3 = type f /\ isPending f3 = false /\
  exists e, el f3 = Some e /\
    (cs <> [] ->
     content e = ExpandedLine CaretRight "" (key f) (getSizeString (Node f cs))) /\
    (cs = [] -> exists k v t, content e = NotExpandedLine k v t).
Proof.
  intros (w & e & f0 & w' & H & ->).
  destruct (createNodeElement_facts _ _ _ _ _ H)
    as (_ & A2 & A3 & A4 & _ & _ & A7 & _).
  simpl in *. repeat split; auto. exists e. auto.
Qed.

Lemma open_all_children_el f cs :
  open_all (Node f cs) = true ->
  forallb (fun c : node => has_el c) cs = true /\
  match cs with c0 :: _ => isPending c0 = false | [] => True end.
Proof.
  intros O. split.
  - rewrite open_all_unfold in O. apply andb_prop in O. destruct O as [_ O].
    rewrite forallb_forall in O |- *. intros c Hc. specialize (O c Hc).
    destruct c as [g gs]. rewrite open_all_unfold in O.
    apply andb_prop in O. destruct O as [O _].
    exact (proj2 (proj2 (proj2 (open_line_facts _ O)))).
  - destruct cs as [|c0 r]; [exact I|].
    exact (open_all_first_child _ _ _ O).
Qed.

(** [expand] on a freshly materialized subtree gives a well-formed one. *)
Lemma opened_tree_ok nd nd3 :
  pointwise created nd nd3 -> all_typed nd ->
  tree_ok (map_nodes opened nd3).
Proof.
  intros H. pose proof (fresh_all_opened _ (created_fresh_all _ _ H)) as O.
  revert O.
  induction H as [f cs f3 cs3 Hq Hall IH] using pointwise_ind.
  intros O Ty. apply all_typed_unfold in Ty. destruct Ty as [Ty Tys].
  pose proof (Forall2_length Hall) as Len.
  simpl map_nodes in *. apply tree_ok_unfold. split.
  - destruct (created_facts _ _ _ Hq) as (K3 & T3 & P3 & e & E3 & C1 & C0).
    destruct (opened_facts (Node f3 cs3)) as (Ko & To & Po & So).
    simpl fields_of in *.
    pose proof O as O'. rewrite open_all_unfold in O'.
    apply andb_prop in O'. destruct O' as [OL _].
    destruct (open_line_facts _ OL) as (X & _ & _ & _). simpl in X.
    unfold node_ok. simpl. split; [|split; [|split; [|split]]].
    + rewrite Po, P3. discriminate.
    + intros _. exact (open_all_children_el _ _ O).
    + rewrite X. discriminate.
    + intros Hne. rewrite To, T3. apply Ty. simpl. intros ->.
      destruct cs3; [contradiction | discriminate].
    + intros e' icon cursor k size He' Hc'.
      destruct (So _ _ _ _ _ He' Hc') as (e0 & icon0 & He0 & Hc0).
      simpl in He0. rewrite E3 in He0. injection He0 as <-.
      destruct cs as [|c r].
      * destruct (C0 eq_refl) as (k0 & v0 & t0 & C). congruence.
      * split; [destruct cs3; discriminate|]. intros _.
        rewrite (C1 ltac:(discriminate)) in Hc0. injection Hc0 as _ _ _ <-.
        apply getSizeString_ext; [congruence|].
        rewrite length_map. congruence.
  - rewrite open_all_unfold in O. apply andb_prop in O. destruct O as [_ O].
    clear Hq Len Ty. induction IH as [|c c3 r r3 Hc _ IHr]; simpl; [constructor|].
    inversion Hall; subst. inversion Tys; subst.
    simpl in O. apply andb_prop in O. destruct O as [O1 O2].
    constructor; auto.
Qed.

Lemma tree_ok_cursor u c nd : tree_ok nd -> tree_ok (set_caret_cursor u c nd).
Proof.
  destruct nd as [f cs]. unfold set_caret_cursor. simpl fields_of.
  destruct (el f) as [e|] eqn:E; [|auto].
  destruct (uid e =? u)%nat; [|auto].
  destruct (content e) as [icon cur k sz|] eqn:C; [|auto].
  rewrite !tree_ok_unfold. intros [H1 H2]. split; [|exact H2]. simpl.
  apply (node_ok_transfer f cs); auto.
  - unfold fields_sim. simpl. repeat split; try congruence.
    intros e' icon' cursor' k' size' He' Hc'. injection He' as <-.
    simpl in Hc'. injection Hc' as _ _ _ <-. eauto 10.
  - clear. induction cs; constructor; [apply iface_refl | assumption].
  - destruct H1 as (_ & _ & I & _). exact I.
Qed.

Lemma set_caret_cursor_facts u c (nd : node) :
  key (set_caret_cursor u c nd) = key nd /\
  isPending (set_caret_cursor u c nd) = isPending nd.
Proof.
  unfold set_caret_cursor. destruct (el nd) as [e|]; [|auto].
  destruct (uid e =? u)%nat; [|auto]. destruct (content e); auto.
Qed.

Lemma open_all_has_el nd : open_all nd = true -> has_el nd = true.
Proof.
  destruct nd as [f cs]. rewrite open_all_unfold. intros O.
  apply andb_prop in O. destruct O as [O _].
  exact (proj2 (proj2 (proj2 (open_line_facts _ O)))).
Qed.

Lemma pointwise_top Q nd nd' :
  pointwise Q nd nd' -> Q nd (fields_of nd').
Proof. intros H. destruct H. assumption. Qed.

(** The click that materializes. *)
Lemma click_materialize_ok (n : node) e icon cursor k size c0 rest w n' w' :
  tree_ok n -> isExpanded n = false ->
  el n = Some e -> content e = ExpandedLine icon cursor k size ->
  hidden e = false ->
  children n = c0 :: rest -> isPending c0 = true ->
  click n w = Ok (n', w') ->
  tree_ok n' /\ iface n n'.
Proof.
  intros T X He Hc Hh Hcs Hp H.
  rewrite (click_caret n e _ _ _ _ He Hc Hh) in H.
  pose proof (toggleNode_materialize n e _ _ _ _ c0 rest w n' w'
                X He Hc Hcs Hp H) as O.
  destruct n as [f cs]. simpl in X, He, Hcs. subst cs.
  destruct (toggleNode_materialize_steps f e _ _ _ _ c0 rest w n' w'
              X He Hc Hp H)
    as (g & nd2 & nd3 & s2 & s3 & Kg & Tg & Hnd2 & W & ->).
  pose proof (walk_pointwise materialize_visit created
                materialize_visit_created _ _ _ _ W) as PW.
  destruct (tree_ok_head _ T) as (Q & _ & _ & Ty & _).
  pose proof T as T'. apply tree_ok_unfold in T'. destruct T' as [_ Tcs].
  assert (Tcs' : Forall all_typed (c0 :: rest)).
  { eapply Forall_impl; [|exact Tcs]. apply tree_ok_typed. }
  assert (Tf : type g = Some "array" \/ type g = Some "object").
  { rewrite Tg. apply Ty. discriminate. }
  assert (AT : all_typed nd2 /\ key nd2 = key f).
  { destruct Hnd2 as [-> | (new & B & ->)]; (split; [|exact Kg]);
      apply all_typed_unfold; (split; [intros _; exact Tf|]).
    - exact Tcs'.
    - apply Forall_app. split.
      + inversion Tcs'; assumption.
      + eapply Forall_impl; [|exact B]. intros c. apply built_typed. }
  destruct AT as [AT K2].
  split.
  - apply tree_ok_cursor. exact (opened_tree_ok _ _ PW AT).
  - unfold iface.
    destruct (set_caret_cursor_facts (uid e) cursor (map_nodes opened nd3))
      as (K & P).
    rewrite K, P.
    destruct nd2 as [f2 cs2]. destruct nd3 as [f3 cs3].
    pose proof (pointwise_top _ _ _ PW) as C. simpl in C.
    destruct (created_facts _ _ _ C) as (K3 & _ & P3 & _).
    destruct (opened_facts (Node f3 cs3)) as (Ko & _ & Po & _).
    simpl map_nodes. simpl fields_of in *.
    rewrite Ko, Po, K3, P3, K2. repeat split.
    + destruct (isPending f) eqn:Pf; [|reflexivity].
      rewrite (Q eq_refl) in He. discriminate.
    + intros _. exact (open_all_has_el _ O).
Qed.

(** Every click keeps the subtree well formed and the node's interface
    to its parent. *)
Lemma click_ok (n : node) w n' w' :
  tree_ok n -> click n w = Ok (n', w') -> tree_ok n' /\ iface n n'.
Proof.
  intros T H.
  destruct (el n) as [e|] eqn:He.
  2:{ unfold click in H. rewrite He in H. injection H as <- _.
      split; [exact T | apply iface_refl]. }
  destruct (content e) as [icon cursor k size|] eqn:Hc.
  2:{ unfold click in H. rewrite He, Hc in H. injection H as <- _.
      split; [exact T | apply iface_refl]. }
  destruct (hidden e) eqn:Hh.
  { unfold click in H. rewrite He, Hc, Hh in H. injection H as <- _.
    split; [exact T | apply iface_refl]. }
  destruct (isExpanded n) eqn:X.
  - destruct (click_collapse_ok n e _ _ _ _ w n' w' T X He Hc Hh H)
      as (_ & _ & A & B).
    auto.
  - destruct (tree_ok_head _ T) as (_ & _ & _ & _ & L).
    destruct (L _ _ _ _ _ He Hc) as [Hne _].
    destruct (children n) as [|c0 rest] eqn:Hcs; [contradiction|].
    destruct (isPending c0) eqn:Hp.
    + exact (click_materialize_ok n e _ _ _ _ c0 rest w n' w'
               T X He Hc Hh Hcs Hp H).
    + destruct (click_expand_ok n e _ _ _ _ c0 rest w n' w'
                  T X He Hc Hh Hcs Hp H) as (_ & _ & _ & A & B).
      auto.
Qed.

(** ** Clicks anywhere in the tree *)

Lemma rebuild_nth {A} (l : list A) i x :
  nth_error l i = Some x -> firstn i l ++ x :: skipn (S i) l = l.
Proof.
  revert i. induction l as [|a l IH]; intros [|i] H; simpl in *;
    try discriminate.
  - injection H as <-. reflexivity.
  - rewrite (IH i H). reflexivity.
Qed.

Lemma in_replace_nth {A} (l : list A) i x d :
  In d (firstn i l ++ x :: skipn (S i) l) -> d = x \/ In d l.
Proof.
  revert i. induction l as [|a l IH]; intros [|i]; simpl.
  - intros [<- | []]. auto.
  - intros [<- | []]. auto.
  - intros [<- | H]; auto.
  - intros [<- | H]; auto. destruct (IH i H); auto.
Qed.

Lemma fields_sim_refl f : fields_sim f f.
Proof.
  unfold fields_sim. repeat split; auto.
  intros e' icon cursor k size He' Hc'. eauto 10.
Qed.

Lemma iface_replace_nth cs i c c' :
  nth_error cs i = Some c -> iface c c' ->
  Forall2 iface cs (firstn i cs ++ c' :: skipn (S i) cs).
Proof.
  revert i. induction cs as [|a cs IH]; intros [|i] H I; simpl in *;
    try discriminate.
  - injection H as <-. constructor; [exact I|].
    clear. induction cs; constructor; [apply iface_refl | assumption].
  - constructor; [apply iface_refl | exact (IH i H I)].
Qed.

(** Nothing that is hidden can be clicked. *)
Lemma click_hidden (c : node) w :
  is_hidden c = true -> click c w = Ok (c, w).
Proof.
  unfold is_hidden, click. destruct (el c) as [e|]; [|reflexivity].
  intros ->. destruct (content e); reflexivity.
Qed.

Lemma at_path_click_hidden p :
  forall (c : node) w,
    is_hidden c = true -> all_hidden_below c = true ->
    at_path click p c w = Ok (c, w).
Proof.
  induction p as [|i p IH]; intros c w Hh Ha.
  - exact (click_hidden c w Hh).
  - simpl. destruct (nth_error (children c) i) as [d|] eqn:E; [|reflexivity].
    destruct c as [f cs]. simpl in *.
    rewrite forallb_forall in Ha. pose proof (Ha d (nth_error_In _ _ E)) as Hd.
    apply andb_prop in Hd. destruct Hd as [Hd1 Hd2].
    unfold bind. rewrite (IH d w Hd1 Hd2). unfold ret.
    repeat f_equal. exact (rebuild_nth cs i d E).
Qed.

(** A click on any node of a well-formed tree leaves it well formed. *)
Lemma at_path_click_ok p :
  forall nd w nd' w',
    tree_ok nd -> at_path click p nd w = Ok (nd', w') ->
    tree_ok nd' /\ iface nd nd'.
Proof.
  induction p as [|i p IH]; intros nd w nd' w' T H.
  - exact (click_ok nd w nd' w' T H).
  - simpl in H. destruct nd as [f cs]. simpl in H.
    destruct (nth_error cs i) as [c|] eqn:E.
    2:{ injection H as <- _. split; [exact T | apply iface_refl]. }
    unfold bind in H.
    destruct (at_path click p c w) as [[c' w1]|x] eqn:E1; [|discriminate].
    injection H as <- _.
    pose proof T as T'. apply tree_ok_unfold in T'. destruct T' as [T0 Tcs].
    rewrite Forall_forall in Tcs.
    pose proof (Tcs c (nth_error_In _ _ E)) as Tc.
    destruct (IH c w c' w1 Tc E1) as [Tc' Ic].
    split; [|unfold iface; simpl; auto].
    apply tree_ok_unfold. split.
    + apply (node_ok_transfer f cs);
        [ exact T0
        | apply fields_sim_refl
        | exact (iface_replace_nth cs i c c' E Ic)
        | intros Hx; left; exact Hx
        | intros Hx ].
      destruct T0 as (_ & _ & I & _). specialize (I Hx). simpl in I.
      pose proof I as I'. rewrite forallb_forall in I'.
      pose proof (I' c (nth_error_In _ _ E)) as Hc.
      apply andb_prop in Hc. destruct Hc as [Hc1 Hc2].
      rewrite (at_path_click_hidden p c w Hc1 Hc2) in E1.
      injection E1 as <- _.
      assert (G : forall l, l = cs -> all_hidden_below (Node f l) = true)
        by (intros l ->; exact I).
      apply G. exact (rebuild_nth cs i c E).
    + apply Forall_forall. intros d Hd.
      destruct (in_replace_nth cs i c' d Hd) as [-> | Hd'];
        [exact Tc' | exact (Tcs d Hd')].
Qed.

(** Every state reached by [render] and clicks is well formed. *)
Lemma reachable_ok parse jsonData tree w :
  reachable parse jsonData tree w -> tree_ok tree.
Proof.
  induction 1 as [w0 tree w H | tree w p tree' w' _ IH H].
  - exact (render_establishes parse jsonData w0 tree w H).
  - exact (proj1 (at_path_click_ok p tree w tree' w' IH H)).
Qed.

Lemma tree_ok_sub p :
  forall nd n, tree_ok nd -> sub p nd = Some n -> tree_ok n.
Proof.
  induction p as [|i p IH]; intros nd n T H.
  - injection H as <-. exact T.
  - simpl in H. destruct (nth_error (children nd) i) as [c|] eqn:E;
      [|discriminate].
    destruct nd as [f cs]. apply tree_ok_unfold in T. destruct T as [_ T].
    rewrite Forall_forall in T. exact (IH c n (T c (nth_error_In _ _ E)) H).
Qed.

Lemma reachable_clicks parse jsonData ps :
  forall tree w tree' w',
    reachable parse jsonData tree w ->
    clicks ps tree w = Ok (tree', w') ->
    reachable parse jsonData tree' w'.
Proof.
  induction ps as [|p ps IH]; intros tree w tree' w' R H; simpl in H.
  - injection H as <- <-. exact R.
  - unfold bind in H.
    destruct (at_path click p tree w) as [[t1 w1]|x] eqn:E; [|discriminate].
    exact (IH t1 w1 tree' w' (@reach_click parse jsonData tree w p t1 w1 R E) H).
Qed.

(** ** The size label *)

(** C3, as the code has it.  In every state reached by [render] and clicks,
    the size label of a line with a caret shows the number of children its
    node has now, between the brackets of its type, unless one of the
    children is a pending reference placeholder. *)
Theorem size_label_is_child_count
  parse jsonData tree w p n e icon cursor k size :
  reachable parse jsonData tree w ->
  sub p tree = Some n ->
  el n = Some e -> content e = ExpandedLine icon cursor k size ->
  no_placeholder n = true ->
  children n <> [] /\
  ((type n = Some "array" /\
    size = Some ("[" ++ string_of_nat (List.length (children n)) ++ "]")%string) \/
   (type n = Some "object" /\
    size = Some ("{" ++ string_of_nat (List.length (children n)) ++ "}")%string)).
Proof.
  intros R Hs He Hc Hn.
  pose proof (tree_ok_head _ (tree_ok_sub p tree n (reachable_ok _ _ _ _ R) Hs))
    as (_ & _ & _ & T & L).
  destruct (L _ _ _ _ _ He Hc) as [Hne Hsz]. split; [exact Hne|].
  rewrite (Hsz Hn). unfold getSizeString.
  destruct (T Hne) as [-> | ->]; [left | right]; split; reflexivity.
Qed.

Lemma flat_sample_reachable tree w :
  flat_sample = Some (tree, w) -> reachable parse_literal doc_flat tree w.
Proof.
  intros H.
  destruct (renderJSON parse_literal doc_flat blank) as [[t0 w0]|x] eqn:R0;
    [|vm_compute in R0; discriminate R0].
  apply (reachable_clicks parse_literal doc_flat [[]; [1]; [1]] t0 w0);
    [exact (@reach_render parse_literal doc_flat blank t0 w0 R0)|].
  vm_compute in R0. injection R0 as <- <-.
  vm_compute in H. injection H as <- <-.
  vm_compute. reflexivity.
Qed.

Lemma size_label_is_child_count_witness :
  exists tree w n e,
    flat_sample = Some (tree, w) /\
    sub [1] tree = Some n /\ key n = Some "b" /\
    el n = Some e /\
    List.length (children n) = 1 /\
    content e = ExpandedLine CaretRight "" (Some "b") (Some "{1}").
Proof.
  destruct flat_sample as [[tree w]|] eqn:S; [|discriminate S].
  pose proof (flat_sample_reachable tree w S) as R.
  vm_compute in S. injection S as <- <-.
  eexists _, _, _, _. split; [reflexivity|].
  match goal with
  | |- sub [1] ?t = Some ?n /\ _ =>
      assert (Hs : sub [1] t = Some n) by (vm_compute; reflexivity)
  end.
  split; [exact Hs|]. split; [reflexivity|].
  match goal with
  | |- el ?n = Some ?e /\ _ =>
      assert (He : el n = Some e) by (vm_compute; reflexivity)
  end.
  split; [exact He|]. split; [reflexivity|].
  match type of He with
  | _ = Some ?e =>
      destruct (size_label_is_child_count parse_literal doc_flat
                  _ _ [1] _ e CaretRight "" (Some "b") (Some "{1}")
                  R Hs He eq_refl eq_refl)
        as (_ & [(A & _) | (_ & B)])
  end.
  - discriminate A.
  - reflexivity.
Defined.

(** C3 as stated fails: after [render] of [doc_ref_deep] the node [x] has
    one child, the placeholder, and its size label reads [{2}]. *)
Lemma size_label_patched_counterexample :
  exists tree w x,
    renderJSON parse_literal doc_ref_deep blank = Ok (tree, w) /\
    sub [0; 0] tree = Some x /\
    key x = Some "x" /\
    List.length (children x) = 1 /\
    size_label x = Some "{2}" /\
    size_label x <> Some ("{" ++ string_of_nat (List.length (children x)) ++ "}")%string.
Proof.
  destruct (renderJSON parse_literal doc_ref_deep blank) as [[tree w]|e] eqn:E;
    [|discriminate E].
  vm_compute in E. injection E as <- <-.
  eexists _, _, _. split; [reflexivity|]. split; [reflexivity|].
  repeat split. discriminate.
Qed.

(** ** Collapse and expand *)




(** * Further properties *)

(** ** The order of a walk *)

Lemma forEach_log {A} (g : node -> A) cs :
  Forall (fun c => forall log : list A,
              walk (fun n s => Ok (fields_of n, s ++ [g n])) c log
              = Ok (c, log ++ map g (nodes c))) cs ->
  forall log : list A,
    forEach (walk (fun n s => Ok (fields_of n, s ++ [g n]))) cs log
    = Ok (cs, log ++ map g (flat_map nodes cs)).
Proof.
  induction 1 as [|c r Hc _ IH]; intros log; simpl.
  - rewrite List.app_nil_r. reflexivity.
  - unfold bind. rewrite Hc, IH. unfold ret.
    rewrite map_app, app_assoc. reflexivity.
Qed.

(** X1.  [traverse] calls the callback once on every node of the subtree, a
    node before its children and the children in their order: a callback that
    only notes what it sees of each node leaves the tree as it is and notes
    the nodes in document order. *)
Theorem traverse_visits_in_document_order {A} (g : node -> A) (nd : node)
  (up : option node) (log : list A) :
  traverse (local (fun n s => Ok (fields_of n, s ++ [g n]))) up nd log
  = Ok ((option_map fields_of up, nd), log ++ map g (nodes nd)).
Proof.
  rewrite traverse_local.
  assert (W : forall log0 : list A,
             walk (fun n s => Ok (fields_of n, s ++ [g n])) nd log0
             = Ok (nd, log0 ++ map g (nodes nd))).
  { induction nd as [f cs IH] using node_ind. intros log0.
    simpl walk. unfold bind at 1. unfold bind at 1.
    rewrite (forEach_log g cs IH). unfold ret.
    rewrite nodes_unfold. simpl. rewrite <- app_assoc. reflexivity. }
  rewrite W. reflexivity.
Qed.

(** ** Pointers of other shapes *)

Lemma split_two sep a b :
  has_char sep a = false -> has_char sep b = false ->
  split sep (a ++ String sep b) = [a; b].
Proof.
  intros Ha Hb. rewrite (split_append sep a b Ha), (split_no_sep sep b Hb).
  reflexivity.
Qed.








(** ** Parsing twice *)

(** X4.  [renderJSON] hands what [getJsonObject] returned to [create], which
    calls [getJsonObject] again.  A text whose JSON value is a string is
    therefore parsed a second time: if that string is not JSON itself,
    [renderJSON] throws the parser's error although the text was valid, and
    if it is, the document inside the string is rendered.  [create] parses
    the same text once and makes a single node that holds the string. *)
Theorem renderJSON_parses_twice parse text inner w :
  parse text = Some (Str inner) ->
  (parse inner = None -> renderJSON parse (Str text) w = Throw SyntaxError) /\
  (forall doc, parse inner = Some doc -> (forall t, doc <> Str t) ->
               renderJSON parse (Str text) w = renderJSON parse doc w) /\
  exists root,
    create parse (Str text) (next_oid w) = Ok (root, S (next_oid w)) /\
    value root = Str inner /\ children root = [].
Proof.
  intros Hp. split; [|split].
  - intros Hi. unfold renderJSON, create. simpl. rewrite Hp. simpl.
    rewrite Hi. reflexivity.
  - intros doc Hi Hn. unfold renderJSON. simpl. rewrite Hp. simpl.
    assert (G : getJsonObject parse doc = Ok doc).
    { destruct doc; try reflexivity. exfalso. exact (Hn s eq_refl). }
    rewrite G. simpl. unfold create. simpl. rewrite Hi, G. reflexivity.
  - unfold create. simpl. rewrite Hp. simpl. eexists. split; [reflexivity|].
    split; reflexivity.
Qed.

Lemma renderJSON_parses_twice_witness :
  renderJSON parse_quoted (Str (dquote ++ "hello" ++ dquote)) blank
  = Throw SyntaxError /\
  exists root,
    create parse_quoted (Str (dquote ++ "hello" ++ dquote)) 0 = Ok (root, 1) /\
    value root = Str "hello" /\ children root = [].
Proof.
  destruct (renderJSON_parses_twice parse_quoted
              (dquote ++ "hello" ++ dquote) "hello" blank eq_refl)
    as (A & _ & B).
  split; [apply A; reflexivity | exact B].
Defined.

(** ** Programmatic expand and collapse, composed *)

Lemma map_nodes_compose (h1 h2 h3 : node -> fields) nd :
  Forall (fun n : node =>
            forall cs', List.length cs' = List.length (children n) ->
                        h2 (Node (h1 n) cs') = h3 n) (nodes nd) ->
  map_nodes h2 (map_nodes h1 nd) = map_nodes h3 nd.
Proof.
  induction nd as [f cs IH] using node_ind. intros H.
  rewrite nodes_unfold in H. inversion H as [|? ? H0 Hr]; subst.
  simpl. f_equal.
  - apply H0. simpl. now rewrite length_map.
  - rewrite map_map. apply map_ext_in. intros c Hc.
    rewrite Forall_forall in IH. apply (IH c Hc).
    apply Forall_forall. intros n Hn. rewrite Forall_forall in Hr.
    apply Hr. apply in_flat_map. eauto.
Qed.

Lemma materialized_map_nodes (h : node -> fields) nd :
  (forall n, has_el (h n) = has_el n) ->
  materialized (map_nodes h nd) = materialized nd.
Proof.
  intros Hh. induction nd as [f cs IH] using node_ind. simpl.
  rewrite Hh. simpl. f_equal. rewrite forallb_map.
  apply forallb_ext_in. intros c Hc. rewrite Forall_forall in IH. auto.
Qed.

Lemma nodes_map_nodes (P : node -> Prop) (h : node -> fields) nd :
  (forall n cs', In n (nodes nd) -> P (Node (h n) cs')) ->
  Forall P (nodes (map_nodes h nd)).
Proof.
  induction nd as [f cs IH] using node_ind. intros H.
  simpl map_nodes. rewrite nodes_unfold. constructor.
  - apply H. rewrite nodes_unfold. left. reflexivity.
  - apply Forall_forall. intros n Hn. apply in_flat_map in Hn.
    destruct Hn as (c' & Hc' & Hn). apply in_map_iff in Hc'.
    destruct Hc' as (c & <- & Hc).
    rewrite Forall_forall in IH. specialize (IH c Hc).
    assert (G : Forall P (nodes (map_nodes h c))).
    { apply IH. intros m cs' Hm. apply H. rewrite nodes_unfold. right.
      apply in_flat_map. eauto. }
    rewrite Forall_forall in G. auto.
Qed.

Lemma opened_has_el (n : node) : has_el (opened n) = has_el n.
Proof.
  unfold opened, expand_visit, has_el. destruct n as [f cs]. simpl.
  destruct (el f) as [e|] eqn:E; simpl; [|now rewrite E].
  unfold setCaretIconDown. simpl. destruct (0 <? List.length cs)%nat; reflexivity.
Qed.

Lemma closed_has_el (top n : node) : has_el (closed top n) = has_el n.
Proof.
  unfold closed, collapse_visit, has_el. destruct n as [f cs]. simpl.
  destruct (el f) as [e|] eqn:E; simpl.
  - destruct (depth top <? depth f)%nat; simpl; unfold setCaretIconRight; simpl;
      destruct (0 <? List.length cs)%nat; simpl; rewrite ?E; reflexivity.
  - destruct (depth top <? depth f)%nat; simpl; [now rewrite E|].
    unfold setCaretIconRight; simpl. rewrite E.
    destruct (0 <? List.length cs)%nat; simpl; now rewrite E.
Qed.

Lemma opened_opened (f : fields) cs cs' :
  List.length cs' = List.length cs ->
  opened (Node (opened (Node f cs)) cs') = opened (Node f cs).
Proof.
  intros L. destruct cs, cs'; try discriminate L; by_line;
    unfold opened, expand_visit, setCaretIconDown; simpl; try reflexivity.
Qed.

Lemma closed_closed (top top' : node) (f : fields) cs cs' :
  depth top' = depth top ->
  List.length cs' = List.length cs ->
  closed top' (Node (closed top (Node f cs)) cs') = closed top (Node f cs).
Proof.
  intros D L. destruct cs, cs'; try discriminate L; by_line;
    unfold closed, collapse_visit, setCaretIconRight; simpl; rewrite ?D;
    destruct (depth top <? fd)%nat eqn:E; simpl; rewrite ?D, ?E; try reflexivity.
Qed.

Lemma opened_closed (top : node) (f : fields) cs cs' :
  has_el f = true ->
  List.length cs' = List.length cs ->
  opened (Node (closed top (Node f cs)) cs') = opened (Node f cs).
Proof.
  intros H L. destruct cs, cs'; try discriminate L; by_line;
    unfold opened, closed, collapse_visit, expand_visit, setCaretIconRight,
      setCaretIconDown; simpl;
    destruct (depth top <? fd)%nat eqn:E; simpl; try reflexivity.
Qed.

Lemma opened_flags (n : node) :
  has_el n = true -> isExpanded (opened n) = true /\ is_shown (opened n) = true.
Proof.
  destruct n as [f cs]. simpl. intros H. destruct cs; by_line;
    unfold opened, expand_visit, setCaretIconDown, is_shown; simpl; auto.
Qed.

Lemma closed_flags (top n : node) :
  has_el n = true ->
  isExpanded (closed top n) = false /\
  (depth top < depth (closed top n) -> is_hidden (closed top n) = true) /\
  depth (closed top n) = depth n.
Proof.
  destruct n as [f cs]. simpl. intros H. destruct cs; by_line;
    unfold closed, collapse_visit, setCaretIconRight, is_hidden; simpl;
    destruct (depth top <? fd)%nat eqn:E; simpl; repeat split; auto;
    intros G; apply Nat.ltb_lt in G; simpl in *; congruence.
Qed.

Lemma materialized_in nd n :
  materialized nd = true -> In n (nodes nd) -> has_el n = true.
Proof.
  intros H Hn. pose proof (materialized_nodes nd H) as F.
  rewrite Forall_forall in F. exact (F n Hn).
Qed.

(** X5.  On a subtree in which every node has its element, [expand] and
    [collapse] return, and they compose as follows: a second [expand] changes
    nothing, a second [collapse] changes nothing, and [expand] after
    [collapse] gives what [expand] alone gives.  After [expand] every node of
    the subtree, the top included, is expanded and shown; after [collapse]
    every node is collapsed, and every node deeper than the top is
    hidden. *)
Theorem expand_collapse_compose nd :
  materialized nd = true ->
  exists all_open all_closed,
    expand nd = Ok all_open /\ collapse nd = Ok all_closed /\
    expand all_open = Ok all_open /\
    collapse all_closed = Ok all_closed /\
    expand all_closed = Ok all_open /\
    Forall (fun n : node => isExpanded n = true /\ is_shown n = true)
           (nodes all_open) /\
    Forall (fun n : node => isExpanded n = false /\
                            (depth nd < depth n -> is_hidden n = true))
           (nodes all_closed).
Proof.
  intros H.
  exists (map_nodes opened nd), (map_nodes (closed nd) nd).
  assert (Mo : materialized (map_nodes opened nd) = true).
  { rewrite (materialized_map_nodes opened nd opened_has_el). exact H. }
  assert (Mc : materialized (map_nodes (closed nd) nd) = true).
  { rewrite (materialized_map_nodes (closed nd) nd (closed_has_el nd)). exact H. }
  split; [exact (expand_materialized nd H)|].
  split; [exact (collapse_materialized nd H)|].
  split; [|split; [|split; [|split]]].
  - rewrite (expand_materialized _ Mo). f_equal.
    apply map_nodes_compose. apply Forall_forall. intros [f cs] _ cs' L.
    exact (opened_opened f cs cs' L).
  - rewrite (collapse_materialized _ Mc). f_equal.
    apply map_nodes_compose. apply Forall_forall. intros [f cs] _ cs' L.
    apply closed_closed; [|exact L].
    destruct nd as [g gs]. simpl.
    exact (proj2 (proj2 (closed_flags (Node g gs) (Node g gs)
                           (materialized_in _ _ H (or_introl eq_refl))))).
  - rewrite (expand_materialized _ Mc). f_equal.
    apply map_nodes_compose. apply Forall_forall. intros [f cs] Hn cs' L.
    exact (opened_closed nd f cs cs' (materialized_in _ _ H Hn) L).
  - apply nodes_map_nodes. intros n cs' Hn. simpl.
    exact (opened_flags n (materialized_in _ _ H Hn)).
  - apply nodes_map_nodes. intros n cs' Hn. simpl.
    destruct (closed_flags nd n (materialized_in _ _ H Hn)) as (A & B & _).
    split; [exact A | exact B].
Qed.

Lemma expand_collapse_compose_witness :
  exists tree w all_open all_closed,
    renderJSON parse_literal doc_flat blank = Ok (tree, w) /\
    expand tree = Ok all_open /\ collapse tree = Ok all_closed /\
    expand all_closed = Ok all_open /\
    map (fun n : node => is_shown n) (nodes all_open) = [true; true; true; true] /\
    map (fun n : node => is_shown n) (nodes all_closed) = [true; false; false; false].
Proof.
  destruct (renderJSON parse_literal doc_flat blank) as [[tree w]|e] eqn:E;
    [|discriminate E].
  vm_compute in E. injection E as <- <-.
  eexists _, _.
  match goal with
  | |- exists _ _, Ok (?t, _) = _ /\ _ =>
      destruct (expand_collapse_compose t eq_refl)
        as (t1 & t2 & A & B & _ & _ & C & _)
  end.
  exists t1, t2. split; [reflexivity|]. split; [exact A|]. split; [exact B|].
  split; [exact C|].
  vm_compute in A. injection A as <-. vm_compute in B. injection B as <-.
  split; reflexivity.
Defined.

(** ** Hiding and showing, composed *)

Lemma sweep_children_frame b cs :
  Forall2 (fun c c' : node =>
             (has_el c = true -> is_hidden c' = b) /\
             (isExpanded c = false -> children c' = children c))
          cs (map (fun c : node => Node (with_hidden b c)
                                        (if isExpanded c then children (sweep b c)
                                         else children c)) cs).
Proof.
  induction cs as [|c r IH]; simpl; constructor; [|exact IH].
  split.
  - unfold has_el, is_hidden, with_hidden. simpl.
    destruct (el c) as [e|] eqn:E; [|discriminate]. reflexivity.
  - intros X. simpl. rewrite X. reflexivity.
Qed.

(** X6.  When [hideNodeChildren] returns, the properties of the node itself
    and every [isExpanded] flag below are as before, every child is hidden,
    and nothing below a collapsed child was touched.  Hiding again changes
    nothing, and [showNodeChildren] then does what it would have done without
    the hiding; if the children were shown before, and below each of them
    what its flag says, it gives back the tree as it was. *)
Theorem hide_show_compose nd hidden_tree :
  hideNodeChildren nd = Ok hidden_tree ->
  fields_of hidden_tree = fields_of nd /\
  flags hidden_tree = flags nd /\
  Forall2 (fun c c' : node =>
             is_hidden c' = true /\
             (isExpanded c = false -> children c' = children c))
          (children nd) (children hidden_tree) /\
  hideNodeChildren hidden_tree = Ok hidden_tree /\
  showNodeChildren hidden_tree = showNodeChildren nd /\
  (shown_as_flagged nd = true -> showNodeChildren hidden_tree = Ok nd).
Proof.
  rewrite hideNodeChildren_sweep.
  destruct (reach_el nd) eqn:R; [|discriminate]. intros H. injection H as <-.
  split; [apply sweep_fields|]. split; [apply flags_sweep|]. split.
  - destruct nd as [f cs]. rewrite sweep_unfold. simpl.
    pose proof (sweep_children_frame true cs) as F.
    simpl in R. rewrite forallb_forall in R.
    revert F R. generalize (map (fun c : node => Node (with_hidden true c)
                                   (if isExpanded c then children (sweep true c)
                                    else children c)) cs).
    intros l F. induction F as [|c c' r r' [A B] _ IH]; intros R; constructor.
    + split; [|exact B]. apply A.
      specialize (R c (or_introl eq_refl)). apply andb_prop in R. tauto.
    + apply IH. intros x Hx. apply R. right. exact Hx.
  - split; [|split].
    + rewrite hideNodeChildren_sweep, reach_el_sweep, R, sweep_sweep. reflexivity.
    + rewrite !showNodeChildren_sweep, reach_el_sweep, sweep_sweep. reflexivity.
    + intros S. rewrite showNodeChildren_sweep, reach_el_sweep, R, sweep_sweep.
      rewrite (sweep_shown nd S). reflexivity.
Qed.

Lemma hide_show_compose_witness :
  exists tree w hidden_tree,
    flat_sample = Some (tree, w) /\
    hideNodeChildren tree = Ok hidden_tree /\
    map (fun n : node => is_shown n) (nodes tree) = [true; true; true; false] /\
    map (fun n : node => is_shown n) (nodes hidden_tree)
    = [true; false; false; false] /\
    showNodeChildren hidden_tree = Ok tree.
Proof.
  destruct flat_sample as [[tree w]|] eqn:S; [|discriminate S].
  vm_compute in S. injection S as <- <-.
  eexists _, _, _. split; [reflexivity|].
  match goal with
  | |- hideNodeChildren ?t = Ok ?h /\ _ =>
      assert (H : hideNodeChildren t = Ok h) by (vm_compute; reflexivity);
      destruct (hide_show_compose t _ H) as (_ & _ & _ & _ & _ & G)
  end.
  split; [exact H|]. split; [reflexivity|]. split; [reflexivity|].
  apply G. reflexivity.
Defined.

(** ** The tree mirrors the document *)


Lemma mirrors_unfold v f cs :
  mirrors v (Node f cs) <->
  value f = (if isEmptyObject v then Str "{}" else v) /\
  type f = Some (getDataType v) /\
  Forall2 stands_for (members_of v) cs.
Proof.
  simpl. generalize (members_of v). intros ms.
  assert (G : forall l ms,
             (fix all (ms : list (string * jsval)) (l : list node) {struct l} : Prop :=
                match ms, l with
                | [], [] => True
                | (k, v') :: ms', x :: l' =>
                    key x = string_or_null (Some k) /\ mirrors v' x /\ all ms' l'
                | _, _ => False
                end) ms l <-> Forall2 stands_for ms l).
  { induction l as [|x l IH]; intros [|[k v'] ms'].
    - split; auto.
    - split; [contradiction | intros H; inversion H].
    - split; [contradiction | intros H; inversion H].
    - rewrite IH. split.
      + intros (A & B & C). constructor; [split; assumption | exact C].
      + intros H. inversion H as [|? ? ? ? [A B] C]; subst. auto. }
  rewrite G. tauto.
Qed.

Lemma getDataType_name v : string_or_null (Some (getDataType v)) = Some (getDataType v).
Proof. destruct v; reflexivity. Qed.

Lemma add_child_mirror fill pending k v (nd : node) next :
  fills_in fill v ->
  exists child next',
    add_child fill pending k v nd next = (push nd child, next') /\
    stands_for (k, v) child.
Proof.
  intros Hv. unfold add_child.
  destruct (Hv (createNode (child_options nd pending k v) next) (S next))
    as (new & k1 & E & F).
  rewrite E. eexists _, k1. split; [reflexivity|].
  split; [reflexivity|]. simpl snd. apply mirrors_unfold. simpl.
  split; [reflexivity|]. split; [apply getDataType_name | exact F].
Qed.

Lemma each_member_mirror fill pending ms :
  Forall (fun kv => fills_in fill (snd kv)) ms ->
  forall nd next,
    exists new next',
      each_member fill pending ms nd next = (Node nd (children nd ++ new), next') /\
      Forall2 stands_for ms new.
Proof.
  induction 1 as [|[k v] rest Hv _ IH]; intros nd next.
  - exists [], next. simpl. rewrite List.app_nil_r. destruct nd.
    split; [reflexivity | constructor].
  - simpl in Hv |- *.
    destruct (add_child_mirror fill pending k v nd next Hv)
      as (child & k1 & E & F).
    rewrite E. destruct (IH (push nd child) k1) as (new & k2 & E2 & F2).
    exists (child :: new), k2. rewrite E2, push_children, push_fields, <- app_assoc.
    split; [reflexivity|]. constructor; assumption.
Qed.

Lemma each_index_mirror fill pending vs :
  Forall (fills_in fill) vs ->
  forall i nd next,
    exists new next',
      each_index fill pending vs i nd next = (Node nd (children nd ++ new), next') /\
      Forall2 stands_for
        (combine (map string_of_nat (seq i (List.length vs))) vs) new.
Proof.
  induction 1 as [|v rest Hv _ IH]; intros i nd next.
  - exists [], next. simpl. rewrite List.app_nil_r. destruct nd.
    split; [reflexivity | constructor].
  - simpl.
    destruct (add_child_mirror fill pending (string_of_nat i) v nd next Hv)
      as (child & k1 & E & F).
    rewrite E. destruct (IH (S i) (push nd child) k1) as (new & k2 & E2 & F2).
    exists (child :: new), k2. rewrite E2, push_children, push_fields, <- app_assoc.
    split; [reflexivity|]. constructor; assumption.
Qed.

Lemma createSubnode_mirror late data :
  fills_in (fun v child next => createSubnode v child late next) data.
Proof.
  induction data as [| | | | |items IH|ms IH] using jsval_nested_ind;
    intros c next;
    try (exists [], next; simpl; rewrite List.app_nil_r; destruct c;
         split; [reflexivity | constructor]).
  - simpl. exact (each_index_mirror _ _ items IH 0 c next).
  - simpl. exact (each_member_mirror _ _ ms IH c next).
Qed.

Lemma create_mirror parse input next root next' :
  create parse input next = Ok (root, next') ->
  exists doc,
    getJsonObject parse input = Ok doc /\
    key root = Some (getDataType doc) /\
    mirrors doc root.
Proof.
  unfold create. destruct (getJsonObject parse input) as [doc|e]; [|discriminate].
  simpl. intros H. exists doc. split; [reflexivity|].
  match type of H with
  | Ok (createSubnode _ ?r _ _) = _ =>
      destruct (createSubnode_mirror false doc r (S next)) as (new & k & E & F);
      rewrite E in H
  end.
  injection H as <- <-. split; [apply getDataType_name|].
  apply mirrors_unfold. simpl.
  split; [reflexivity|]. split; [apply getDataType_name | exact F].
Qed.



(** ** Inlining a reference *)



(** ** What a walk establishes *)

Section TraverseRun.
Variables St X : Type.
Variable cb : callback St.
Variable Pre : node -> Prop.
Variable Q : node -> fields -> Prop.
Variable V : option node -> node -> Prop.
Variable U : fields -> fields -> Prop.
Variable tick : node -> St -> St.
Variable log : St -> list X.
Variable emit : fields -> list X.
Hypothesis U_refl : forall f, U f f.
Hypothesis U_trans : forall f g h, U f g -> U g h -> U f h.
Hypothesis Q_U : forall nd f f', Q nd f -> U f f' -> Q nd f'.
Hypothesis V_U :
  forall f f' cs c, V (Some (Node f cs)) c -> U f f' -> V (Some (Node f' cs)) c.
Hypothesis emit_U : forall f f', U f f' -> emit f' = emit f.
Hypothesis cb_ok :
  forall up nd s up1 f1 s1,
    Pre nd -> cb up nd s = Ok ((up1, f1), s1) ->
    Q nd f1 /\ V up nd /\ s1 = tick nd s /\ log s1 = log s ++ emit f1 /\
    forall p : node, up = Some p -> exists f'', up1 = Some f'' /\ U p f''.

Lemma forEach_below_run cs0 cs :
  Forall (fun c =>
            Forall Pre (nodes c) ->
            forall up s up' c' s',
              traverse cb up c s = Ok ((up', c'), s') ->
              pointwise (with_children Q V) c c' /\ V up c /\
              s' = fold_left (fun s n => tick n s) (nodes c) s /\
              log s' = log s ++ flat_map (fun n : node => emit n) (nodes c') /\
              forall p : node, up = Some p -> exists f'', up' = Some f'' /\ U p f'')
         cs ->
  Forall (fun c => Forall Pre (nodes c)) cs ->
  forall f s f' cs' s',
    forEach_below (fun f child => traverse cb (Some (Node f cs0)) child) cs f s
    = Ok ((f', cs'), s') ->
    Forall2 (pointwise (with_children Q V)) cs cs' /\ U f f' /\
    Forall (V (Some (Node f' cs0))) cs /\
    s' = fold_left (fun s n => tick n s) (flat_map nodes cs) s /\
    log s' = log s ++ flat_map (fun n : node => emit n) (flat_map nodes cs').
Proof.
  induction 1 as [|c r Hc _ IH]; intros HP f s f' cs' s' H.
  - simpl in H. injection H as <- <- <-. simpl. rewrite List.app_nil_r.
    repeat split; auto.
  - inversion HP as [|? ? Pc Pr]; subst.
    simpl in H. unfold bind in H.
    destruct (traverse cb (Some (Node f cs0)) c s) as [[[fo c1] s1]|x] eqn:E1;
      [|discriminate].
    destruct (Hc Pc _ _ _ _ _ E1) as (W1 & V1 & S1 & L1 & U1).
    destruct (U1 _ eq_refl) as (f'' & -> & Uf).
    destruct (forEach_below _ r f'' s1) as [[[f2 r'] s2]|x] eqn:E2; [|discriminate].
    injection H as <- <- <-.
    destruct (IH Pr _ _ _ _ _ E2) as (W2 & U2 & V2 & S2 & L2).
    split; [constructor; assumption|].
    split; [exact (U_trans _ _ _ Uf U2)|].
    split; [constructor; [|exact V2]|split].
    + apply (V_U f). exact V1. exact (U_trans _ _ _ Uf U2).
    + simpl. rewrite fold_left_app, <- S1. exact S2.
    + simpl. rewrite flat_map_app, app_assoc, <- L1. exact L2.
Qed.

Lemma traverse_run nd :
  Forall Pre (nodes nd) ->
  forall up s up' nd' s',
    traverse cb up nd s = Ok ((up', nd'), s') ->
    pointwise (with_children Q V) nd nd' /\ V up nd /\
    s' = fold_left (fun s n => tick n s) (nodes nd) s /\
    log s' = log s ++ flat_map (fun n : node => emit n) (nodes nd') /\
    forall p : node, up = Some p -> exists f'', up' = Some f'' /\ U p f''.
Proof.
  induction nd as [f cs IH] using node_ind.
  intros HP up s up' nd' s' H.
  rewrite nodes_unfold in HP. inversion HP as [|? ? P0 Pr]; subst.
  simpl in H. unfold bind in H.
  destruct (cb up (Node f cs) s) as [[[up1 f1] s1]|x] eqn:E1; [|discriminate].
  destruct (forEach_below _ cs f1 s1) as [[[f2 cs'] s2]|x] eqn:E2; [|discriminate].
  injection H as <- <- <-.
  destruct (cb_ok _ _ _ _ _ _ P0 E1) as (Q1 & V1 & S1 & L1 & U1).
  assert (Pcs : Forall (fun c => Forall Pre (nodes c)) cs).
  { apply Forall_forall. intros c Hc. apply Forall_forall. intros n Hn.
    rewrite Forall_forall in Pr. apply Pr. apply in_flat_map. eauto. }
  destruct (forEach_below_run cs cs IH Pcs _ _ _ _ _ E2)
    as (W2 & U2 & V2 & S2 & L2).
  split; [|split; [exact V1|split; [|split; [|exact U1]]]].
  - constructor; [|exact W2]. split; [exact (Q_U _ _ _ Q1 U2) | exact V2].
  - rewrite nodes_unfold. simpl. rewrite <- S1. exact S2.
  - rewrite nodes_unfold. simpl. rewrite L2, L1, (emit_U _ _ U2), <- app_assoc.
    reflexivity.
Qed.
End TraverseRun.

(** ** The walk of [render] *)

Lemma patched_keeps f f' :
  patched f f' ->
  oid f' = oid f /\ value f' = value f /\ depth f' = depth f /\
  dispose f' = dispose f /\ parsedData f' = parsedData f /\
  forall e, el f = Some e ->
    exists e', el f' = Some e' /\ uid e' = uid e /\ margin_left e' = margin_left e.
Proof.
  induction 1 as [|f' e count _ (A & B & C & D & E & F) He].
  - repeat split; auto. intros e He. exists e. auto.
  - simpl. repeat split; auto. intros e0 He0.
    destruct (F e0 He0) as (e1 & He1 & U1 & M1).
    rewrite He in He1. injection He1 as ->.
    eexists. split; [reflexivity|].
    unfold patch_size. destruct (content e1); simpl; auto.
Qed.

Lemma resolveref_ext f f' cs cs' :
  parsedData f' = parsedData f ->
  option_map (fun c : node => value c) (hd_error cs')
  = option_map (fun c : node => value c) (hd_error cs) ->
  resolveref (Node f' cs') = resolveref (Node f cs).
Proof.
  unfold resolveref. simpl. intros -> H.
  destruct cs as [|c r], cs' as [|c' r']; simpl in H; try discriminate;
    [reflexivity|]. injection H as ->. reflexivity.
Qed.

Lemma rendered_patched nd f f' : rendered nd f -> patched f f' -> rendered nd f'.
Proof.
  intros (A1 & A2 & A3 & A4 & A5 & A6 & A7 & A8 & A9 & A10 & A11) P.
  destruct (patched_facts _ _ P) as (K & Pe & Ex & Ty & Pa & No & So).
  destruct (patched_keeps _ _ P) as (O & Va & De & Di & Pd & Ue).
  unfold rendered. rewrite O, K, Pa, Va, Ex, Ty, De, Pe, Pd, Di.
  repeat (split; [assumption|]). split.
  - intros Hp. destruct (A10 Hp) as [B1 B2]. split; [exact B1|].
    intros Hn. rewrite (No (B2 Hn)). exact (B2 Hn).
  - intros Hp. destruct (A11 Hp) as (e & He & Hh & Hm & Hc).
    destruct (So e He) as (e' & He' & (U1 & H1 & L1)).
    destruct (Ue e He) as (e'' & He'' & _ & M1).
    rewrite He' in He''. injection He'' as <-.
    exists e'. split; [exact He'|]. rewrite H1, M1, U1.
    split; [exact Hh|]. split; [exact Hm|].
    destruct (children nd).
    + destruct Hc as (D & v & t & C). split; [exact D|]. exists v, t.
      rewrite C in L1. exact L1.
    + destruct Hc as (D & size & C). split; [exact D|].
      rewrite C in L1. destruct L1 as (size' & L1). exists size'. exact L1.
Qed.

Lemma render_visit_run up (nd : node) s up1 f1 s1 :
  untouched nd ->
  render_visit up nd s = Ok ((up1, f1), s1) ->
  rendered nd f1 /\ counted up nd /\ s1 = render_tick nd s /\
  snd s1 = snd s ++ line_of f1 /\
  forall p : node, up = Some p -> exists f'', up1 = Some f'' /\ patched p f''.
Proof.
  intros (El & Di & Ex). unfold render_visit, render_tick, counted, placeholder.
  destruct (isPending nd) eqn:P; simpl.
  - assert (R : rendered nd nd).
    { unfold rendered. repeat (split; [reflexivity|]). split; [auto|].
      rewrite P. discriminate. }
    assert (L : line_of nd = []) by (unfold line_of; rewrite El; reflexivity).
    destruct (key_is "$ref" nd) eqn:K.
    + destruct up as [p|]; [|discriminate]. unfold bind, lift.
      destruct (resolveref p) as [target|x] eqn:Rp; [|discriminate].
      destruct (el p) as [e|] eqn:E; [|discriminate].
      unfold ret. intros H. injection H as <- <- <-.
      rewrite L, List.app_nil_r.
      split; [exact R|]. split; [intros _; exists p, e, target; auto|].
      split; [reflexivity|]. split; [reflexivity|].
      intros p' Hp'. injection Hp' as <-. eexists. split; [reflexivity|].
      apply patched_more; [apply patched_none | exact E].
    + unfold ret. intros H. injection H as <- <- <-.
      rewrite L, List.app_nil_r.
      split; [exact R|]. split; [discriminate|].
      split; [reflexivity|]. split; [reflexivity|].
      intros p ->. eexists. split; [reflexivity | apply patched_none].
  - destruct s as [w items]. unfold createNodeElement, dom_element. simpl.
    intros H. injection H as <- <- <-.
    split; [|split; [discriminate|split; [reflexivity|split]]].
    + unfold rendered. destruct nd as [f cs]. simpl in *.
      destruct cs as [|c r]; simpl;
        repeat (split; [reflexivity|]);
        (split; [rewrite P; discriminate|]); intros _;
        eexists; (split; [reflexivity|]); simpl;
        (split; [reflexivity|]); (split; [reflexivity|]);
        (split; [reflexivity|]); eauto.
    + simpl. unfold line_of.
      destruct (0 <? List.length (children nd))%nat; reflexivity.
    + intros p ->. eexists. split; [reflexivity | apply patched_none].
Qed.

Lemma counted_patched f f' cs c :
  counted (Some (Node f cs)) c -> patched f f' -> counted (Some (Node f' cs)) c.
Proof.
  intros H P Hc. destruct (H Hc) as (p & e & target & Hp & He & Hr).
  injection Hp as <-. simpl in He.
  destruct (patched_keeps _ _ P) as (_ & _ & _ & _ & Pd & Ue).
  destruct (Ue e He) as (e' & He' & _).
  exists (Node f' cs), e', target. split; [reflexivity|]. split; [exact He'|].
  rewrite <- Hr. apply resolveref_ext; [exact Pd | reflexivity].
Qed.

Lemma line_of_patched f f' : patched f f' -> line_of f' = line_of f.
Proof.
  intros P. unfold line_of.
  destruct (patched_facts _ _ P) as (_ & _ & _ & _ & _ & No & _).
  destruct (patched_keeps _ _ P) as (_ & _ & _ & _ & _ & Ue).
  destruct (el f) as [e|] eqn:E.
  - destruct (Ue e eq_refl) as (e' & -> & -> & _). reflexivity.
  - rewrite (No eq_refl), E. reflexivity.
Qed.

(** What the walk of [render] has done when it returns. *)
Lemma render_run nd :
  Forall (fun n : node => untouched n) (nodes nd) ->
  forall up s up' nd' s',
    traverse render_visit up nd s = Ok ((up', nd'), s') ->
    pointwise (with_children rendered counted) nd nd' /\ counted up nd /\
    s' = fold_left (fun s n => render_tick n s) (nodes nd) s /\
    snd s' = snd s ++ flat_map (fun n : node => line_of n) (nodes nd') /\
    forall p : node, up = Some p -> exists f'', up' = Some f'' /\ patched p f''.
Proof.
  apply (traverse_run (world * list dom) dom render_visit
           (fun n : node => untouched n) rendered counted patched
           render_tick (fun s => snd s) line_of).
  - apply patched_none.
  - apply patched_trans.
  - apply rendered_patched.
  - apply counted_patched.
  - apply line_of_patched.
  - intros up n s up1 f1 s1 Hn H. exact (render_visit_run up n s up1 f1 s1 Hn H).
Qed.

(** ** Every node of a built tree *)

Section CreatedNodes.
Variable P : fields -> Prop.
Hypothesis createNode_P : forall opt k, P (createNode opt k).

Lemma add_child_all fill pending k v (nd : node) next :
  fills_all P fill v ->
  exists child next',
    add_child fill pending k v nd next = (push nd child, next') /\
    Forall (fun n : node => P n) (nodes child).
Proof.
  intros Hv. unfold add_child.
  destruct (Hv (createNode (child_options nd pending k v) next) (S next))
    as (new & k1 & E & F).
  rewrite E. eexists _, k1. split; [reflexivity|].
  rewrite nodes_unfold. constructor; [apply createNode_P|].
  simpl. apply Forall_forall. intros n Hn. apply in_flat_map in Hn.
  destruct Hn as (x & Hx & Hn). rewrite Forall_forall in F.
  specialize (F x Hx). rewrite Forall_forall in F. auto.
Qed.

Lemma each_member_all fill pending ms :
  Forall (fun kv => fills_all P fill (snd kv)) ms ->
  forall nd next,
    exists new next',
      each_member fill pending ms nd next = (Node nd (children nd ++ new), next') /\
      Forall (fun x : node => Forall (fun n : node => P n) (nodes x)) new.
Proof.
  induction 1 as [|[k v] rest Hv _ IH]; intros nd next.
  - exists [], next. simpl. rewrite List.app_nil_r. destruct nd.
    split; [reflexivity | constructor].
  - simpl in Hv |- *.
    destruct (add_child_all fill pending k v nd next Hv) as (child & k1 & E & F).
    rewrite E. destruct (IH (push nd child) k1) as (new & k2 & E2 & F2).
    exists (child :: new), k2. rewrite E2, push_children, push_fields, <- app_assoc.
    split; [reflexivity|]. constructor; assumption.
Qed.

Lemma each_index_all fill pending vs :
  Forall (fills_all P fill) vs ->
  forall i nd next,
    exists new next',
      each_index fill pending vs i nd next = (Node nd (children nd ++ new), next') /\
      Forall (fun x : node => Forall (fun n : node => P n) (nodes x)) new.
Proof.
  induction 1 as [|v rest Hv _ IH]; intros i nd next.
  - exists [], next. simpl. rewrite List.app_nil_r. destruct nd.
    split; [reflexivity | constructor].
  - simpl.
    destruct (add_child_all fill pending (string_of_nat i) v nd next Hv)
      as (child & k1 & E & F).
    rewrite E. destruct (IH (S i) (push nd child) k1) as (new & k2 & E2 & F2).
    exists (child :: new), k2. rewrite E2, push_children, push_fields, <- app_assoc.
    split; [reflexivity|]. constructor; assumption.
Qed.

Lemma createSubnode_all late data :
  fills_all P (fun v child next => createSubnode v child late next) data.
Proof.
  induction data as [| | | | |items IH|ms IH] using jsval_nested_ind;
    intros c next;
    try (exists [], next; simpl; rewrite List.app_nil_r; destruct c;
         split; [reflexivity | constructor]).
  - simpl. exact (each_index_all _ _ items IH 0 c next).
  - simpl. exact (each_member_all _ _ ms IH c next).
Qed.
End CreatedNodes.

Lemma create_untouched parse input next root next' :
  create parse input next = Ok (root, next') ->
  Forall (fun n : node => untouched n) (nodes root).
Proof.
  unfold create. destruct (getJsonObject parse input) as [doc|e]; [|discriminate].
  simpl. intros H.
  match type of H with
  | Ok (createSubnode _ ?r _ _) = _ =>
      destruct (createSubnode_all untouched
                  (fun opt k => conj eq_refl (conj eq_refl eq_refl))
                  false doc r (S next)) as (new & k & E & F);
      rewrite E in H
  end.
  injection H as <- <-. rewrite nodes_unfold. constructor.
  - unfold untouched. simpl. auto.
  - simpl. apply Forall_forall. intros n Hn. apply in_flat_map in Hn.
    destruct Hn as (x & Hx & Hn). rewrite Forall_forall in F.
    specialize (F x Hx). rewrite Forall_forall in F. auto.
Qed.

(** ** From a tree to the tree a walk has made of it *)

Lemma Forall2_nth_error {A B} (R : A -> B -> Prop) l l' :
  Forall2 R l l' ->
  forall i y, nth_error l' i = Some y ->
              exists x, nth_error l i = Some x /\ R x y.
Proof.
  induction 1 as [|x y l l' Hxy _ IH]; intros [|i] z Hz; simpl in Hz;
    try discriminate.
  - injection Hz as <-. exists x. auto.
  - exact (IH i z Hz).
Qed.

Lemma pointwise_sub Q p :
  forall nd nd' n',
    pointwise Q nd nd' -> sub p nd' = Some n' ->
    exists n, sub p nd = Some n /\ Q n (fields_of n') /\
              Forall2 (pointwise Q) (children n) (children n').
Proof.
  induction p as [|i p IH]; intros nd nd' n' H Hs.
  - simpl in Hs. injection Hs as <-. exists nd. destruct H. simpl. auto.
  - destruct H as [f cs f' cs' q all]. simpl in Hs |- *.
    destruct (nth_error cs' i) as [c'|] eqn:E; [|discriminate].
    destruct (Forall2_nth_error _ _ _ all i c' E) as (c & -> & Hc).
    exact (IH c c' n' Hc Hs).
Qed.

Lemma sub_snoc p i :
  forall nd c,
    sub (p ++ [i]) nd = Some c ->
    exists n, sub p nd = Some n /\ nth_error (children n) i = Some c.
Proof.
  induction p as [|j p IH]; intros nd c H; simpl in H |- *.
  - destruct (nth_error (children nd) i) as [x|] eqn:E; [|discriminate].
    injection H as <-. exists nd. auto.
  - destruct (nth_error (children nd) j) as [x|]; [|discriminate].
    exact (IH x c H).
Qed.

Lemma built_parent late c :
  forall up p n, built late up c -> sub p c = Some n -> parent n <> None.
Proof.
  induction c as [f cs IH] using node_ind. intros up p n B Hs.
  apply built_unfold in B. destruct B as (_ & _ & Pa & _ & _ & _ & _ & B).
  destruct p as [|i p]; simpl in Hs.
  - injection Hs as <-. simpl. rewrite Pa. discriminate.
  - destruct (nth_error cs i) as [c|] eqn:E; [|discriminate].
    rewrite Forall_forall in IH, B.
    exact (IH c (nth_error_In _ _ E) f p n (B c (nth_error_In _ _ E)) Hs).
Qed.

(** A node of the tree [create] returns, by its path: its depth, its mark,
    its parent. *)
Lemma create_sub parse input next root next' p n :
  create parse input next = Ok (root, next') ->
  sub p root = Some n ->
  depth n = List.length p /\ isPending n = (2 <? depth n)%nat /\
  (p = [] -> parent n = None) /\ (p <> [] -> parent n <> None).
Proof.
  intros H Hs.
  destruct (create_spec _ _ _ _ _ H)
    as (doc & f & new & _ & -> & B & Hd & Hp & Hpe & _).
  rewrite Forall_forall in B. destruct p as [|i p].
  - injection Hs as <-. simpl. rewrite Hd, Hpe.
    split; [reflexivity|]. split; [reflexivity|].
    split; [intros _; exact Hp | intros G; contradiction].
  - simpl in Hs. destruct (nth_error new i) as [c|] eqn:E; [|discriminate].
    pose proof (B c (nth_error_In _ _ E)) as Bc.
    destruct (built_sub _ _ _ _ _ Bc Hs) as (A1 & A2 & _).
    split; [simpl; lia|]. split; [rewrite A2; apply andb_true_r|].
    split; [discriminate|]. intros _. exact (built_parent _ _ _ _ _ Bc Hs).
Qed.

Lemma sub_nodes p :
  forall nd n, sub p nd = Some n -> In n (nodes nd).
Proof.
  induction p as [|i p IH]; intros nd n Hn.
  - injection Hn as <-. destruct nd. rewrite nodes_unfold. left. reflexivity.
  - simpl in Hn. destruct (nth_error (children nd) i) as [c|] eqn:E;
      [|discriminate].
    destruct nd as [f cs]. rewrite nodes_unfold. right.
    apply in_flat_map. exists c. split; [exact (nth_error_In _ _ E)|].
    exact (IH c n Hn).
Qed.

(** ** What [render] leaves *)

Lemma renderJSON_run parse jsonData w0 tree w :
  renderJSON parse jsonData w0 = Ok (tree, w) ->
  exists doc root next up' w1 items,
    getJsonObject parse jsonData = Ok doc /\
    create parse doc (next_oid w0) = Ok (root, next) /\
    traverse render_visit None root (mkWorld next (next_uid w0) (page w0), [])
    = Ok ((up', tree), (w1, items)) /\
    w = mkWorld (next_oid w1) (next_uid w1) (page w1 ++ [Container items]).
Proof.
  unfold renderJSON, rbind.
  destruct (getJsonObject parse jsonData) as [doc|x]; [|discriminate].
  destruct (create parse doc (next_oid w0)) as [[root next]|x] eqn:E;
    [|discriminate].
  unfold render.
  destruct (traverse render_visit None root _)
    as [[[up' tree'] [w1 items]]|x] eqn:R; [|discriminate].
  intros H. injection H as <- <-.
  exists doc, root, next, up', w1, items. auto.
Qed.

(** X9.  When [renderJSON] returns, every node of depth 0, 1 or 2 has a line
    and no deeper node has one.  Only the line of the root is shown; a line is
    indented by 18 pixels for each level; the line of a node with children
    has a caret (pointing right), the key and a listener, the line of a node
    without children has the key and the value and no listener.  No node is
    expanded. *)
Theorem render_gives_lines parse jsonData w0 tree w :
  renderJSON parse jsonData w0 = Ok (tree, w) ->
  forall p n,
    sub p tree = Some n ->
    depth n = List.length p /\ isExpanded n = false /\
    (2 < depth n -> isPending n = true /\ el n = None /\ dispose n = None) /\
    (depth n <= 2 ->
     isPending n = false /\
     exists e,
       el n = Some e /\
       hidden e = negb (Nat.eqb (depth n) 0) /\
       margin_left e = depth n * 18 /\
       (children n = [] ->
        dispose n = None /\
        exists v t, content e = NotExpandedLine (key n) v t) /\
       (children n <> [] ->
        dispose n = Some (uid e) /\
        exists size, content e = ExpandedLine CaretRight "" (key n) size)).
Proof.
  intros H p n' Hs.
  destruct (renderJSON_run _ _ _ _ _ H)
    as (doc & root & next & up' & w1 & items & _ & C & R & _).
  destruct (render_run root (create_untouched _ _ _ _ _ C) _ _ _ _ _ R)
    as (W & _).
  destruct (pointwise_sub _ p root tree n' W Hs) as (n & Hn & [Q _] & L).
  destruct (create_sub _ _ _ _ _ p n C Hn) as (D & Pe & P0 & P1).
  pose proof (create_untouched _ _ _ _ _ C) as Un. rewrite Forall_forall in Un.
  pose proof (sub_nodes p root n Hn) as Hin.
  destruct (Un n Hin) as (El & Di & Ex).
  destruct Q as (_ & K & _ & _ & X & _ & De & Pn & _ & Q1 & Q2).
  rewrite De, X, Pn, K. split; [exact D|]. split; [exact Ex|]. split.
  - intros G. assert (Hp : isPending n = true).
    { rewrite Pe. apply Nat.ltb_lt. exact G. }
    destruct (Q1 Hp) as [A B]. rewrite A.
    split; [exact Hp|]. split; [exact (B El) | exact Di].
  - intros G. assert (Hp : isPending n = false).
    { rewrite Pe. apply Nat.ltb_ge. exact G. }
    split; [exact Hp|].
    destruct (Q2 Hp) as (e & He & Hh & Hm & Hc).
    exists e. split; [exact He|]. split; [|split; [exact Hm|]].
    + rewrite Hh, D. destruct p as [|i p].
      * rewrite (P0 eq_refl). reflexivity.
      * destruct (parent n); [reflexivity|].
        exfalso. apply P1; [discriminate | reflexivity].
    + pose proof (Forall2_length L) as Len.
      destruct (children n) as [|c r]; destruct (children n') as [|c' r'];
        try discriminate Len.
      * destruct Hc as (A & B). rewrite A.
        split; [intros _; auto | intros G'; contradiction].
      * destruct Hc as (A & B).
        split; [discriminate | intros _; auto].
Qed.

Lemma render_gives_lines_witness :
  exists tree w b c,
    renderJSON parse_literal doc_chain blank = Ok (tree, w) /\
    sub [0; 0] tree = Some b /\ sub [0; 0; 0] tree = Some c /\
    key b = Some "b" /\ has_el b = true /\ is_shown b = false /\
    key c = Some "c" /\ el c = None.
Proof.
  destruct (renderJSON parse_literal doc_chain blank) as [[tree w]|e] eqn:E;
    [|discriminate E].
  pose proof (render_gives_lines _ _ _ _ _ E) as G.
  vm_compute in E. injection E as <- <-.
  eexists _, _, _, _. split; [reflexivity|].
  split; [reflexivity|].
  match goal with
  | |- sub ?p ?t = Some ?c /\ _ =>
      assert (Hs : sub p t = Some c) by reflexivity;
      destruct (G p c Hs) as (_ & _ & A & _)
  end.
  split; [exact Hs|]. split; [reflexivity|]. split; [reflexivity|].
  split; [reflexivity|]. split; [reflexivity|].
  apply A. simpl. lia.
Defined.

Lemma render_tick_fold l :
  forall w items,
    fold_left (fun s n => render_tick n s) l (w, items)
    = (mkWorld (next_oid w)
         (next_uid w + List.length (filter (fun n : node => negb (isPending n)) l))
         (page w),
       items ++ map Line (seq (next_uid w)
                            (List.length (filter (fun n : node => negb (isPending n)) l)))).
Proof.
  induction l as [|n l IH]; intros w items; simpl.
  - rewrite Nat.add_0_r, List.app_nil_r. destruct w. reflexivity.
  - unfold render_tick at 2. destruct (isPending n); simpl.
    + apply IH.
    + rewrite IH. simpl. rewrite <- app_assoc, Nat.add_succ_r. reflexivity.
Qed.

(** X10.  [renderJSON] appends one container to the target element and
    changes nothing else on the page.  The container holds the lines of the
    nodes that have one, in document order; they are new elements, created
    one after the other in that order. *)
Theorem render_appends_one_container parse jsonData w0 tree w :
  renderJSON parse jsonData w0 = Ok (tree, w) ->
  exists lines,
    lines = flat_map (fun n : node => line_of n) (nodes tree) /\
    page w = page w0 ++ [Container lines] /\
    lines = map Line (seq (next_uid w0) (List.length lines)) /\
    next_uid w = next_uid w0 + List.length lines.
Proof.
  intros H.
  destruct (renderJSON_run _ _ _ _ _ H)
    as (doc & root & next & up' & w1 & items & _ & C & R & ->).
  destruct (render_run root (create_untouched _ _ _ _ _ C) _ _ _ _ _ R)
    as (_ & _ & S & L & _).
  rewrite render_tick_fold in S. simpl in S, L. injection S as -> Hi.
  exists items. split; [exact L|].
  assert (Len : List.length items
                = List.length (filter (fun n : node => negb (isPending n))
                                 (nodes root))).
  { rewrite Hi at 1. rewrite length_map, length_seq. reflexivity. }
  rewrite Len. simpl. split; [reflexivity|]. split; [exact Hi | reflexivity].
Qed.

Lemma render_appends_one_container_witness :
  exists tree w,
    renderJSON parse_literal doc_chain blank = Ok (tree, w) /\
    page w = [Container [Line 0; Line 1; Line 2]] /\ next_uid w = 3.
Proof.
  destruct (renderJSON parse_literal doc_chain blank) as [[tree w]|e] eqn:E;
    [|discriminate E].
  destruct (render_appends_one_container _ _ _ _ _ E) as (lines & L & P & _ & U).
  vm_compute in E. injection E as <- <-.
  eexists _, _. split; [reflexivity|]. split; reflexivity.
Defined.

(** ** References the walk of [render] cannot count *)

Section TraverseThrows.
Variable St : Type.
Variable cb : callback St.
Hypothesis cb_throws : forall up nd s x, cb up nd s = Throw x -> x = TypeError.

Lemma forEach_below_throws cs0 cs :
  Forall (fun c => forall up s x, traverse cb up c s = Throw x -> x = TypeError) cs ->
  forall f s x,
    forEach_below (fun f child => traverse cb (Some (Node f cs0)) child) cs f s
    = Throw x -> x = TypeError.
Proof.
  induction 1 as [|c r Hc _ IH]; intros f s x H; simpl in H; [discriminate|].
  unfold bind in H.
  destruct (traverse cb (Some (Node f cs0)) c s) as [[[fo c1] s1]|y] eqn:E1.
  - destruct (forEach_below _ r _ s1) as [[[f2 r'] s2]|y] eqn:E2; [discriminate|].
    injection H as <-. exact (IH _ _ _ E2).
  - injection H as <-. exact (Hc _ _ _ E1).
Qed.

Lemma traverse_throws nd :
  forall up s x, traverse cb up nd s = Throw x -> x = TypeError.
Proof.
  induction nd as [f cs IH] using node_ind. intros up s x H.
  simpl in H. unfold bind in H.
  destruct (cb up (Node f cs) s) as [[[up1 f1] s1]|y] eqn:E1.
  - destruct (forEach_below _ cs f1 s1) as [[[f2 cs'] s2]|y] eqn:E2; [discriminate|].
    injection H as <-. exact (forEach_below_throws cs cs IH _ _ _ E2).
  - injection H as <-. exact (cb_throws _ _ _ _ E1).
Qed.
End TraverseThrows.

Lemma get_property_throws v k x : get_property v k = Throw x -> x = TypeError.
Proof.
  destruct v; simpl; intros H; try discriminate; injection H as <-; reflexivity.
Qed.

Lemma resolveref_throws nd x : resolveref nd = Throw x -> x = TypeError.
Proof.
  unfold resolveref.
  destruct (children nd) as [|first r]; [intros H; injection H as <-; reflexivity|].
  destruct (value first); try (intros H; injection H as <-; reflexivity).
  unfold rbind.
  match goal with
  | |- match ?g with _ => _ end = _ -> _ => destruct g as [target|y] eqn:G
  end.
  - apply get_property_throws.
  - intros H. injection H as <-. exact (get_property_throws _ _ _ G).
Qed.

Lemma render_visit_throws up nd s x :
  render_visit up nd s = Throw x -> x = TypeError.
Proof.
  unfold render_visit. destruct (isPending nd); simpl.
  - destruct (key_is "$ref" nd); [|discriminate].
    destruct up as [p|]; [|intros H; injection H as <-; reflexivity].
    unfold bind, lift.
    destruct (resolveref p) as [target|y] eqn:R.
    + destruct (el p); [discriminate|]. intros H. injection H as <-. reflexivity.
    + intros H. injection H as <-. exact (resolveref_throws _ _ R).
  - destruct s as [w items]. unfold createNodeElement, dom_element. discriminate.
Qed.

Lemma render_throws tree w x : render tree w = Throw x -> x = TypeError.
Proof.
  unfold render.
  destruct (traverse render_visit None tree (w, []))
    as [[[up' tree'] [w1 items]]|y] eqn:R; [discriminate|].
  intros H. injection H as <-.
  exact (traverse_throws _ render_visit render_visit_throws tree _ _ _ R).
Qed.

Lemma Forall2_nth_error_fwd {A B} (R : A -> B -> Prop) l l' :
  Forall2 R l l' ->
  forall i x, nth_error l i = Some x ->
              exists y, nth_error l' i = Some y /\ R x y.
Proof.
  induction 1 as [|x y l l' Hxy _ IH]; intros [|i] z Hz; simpl in Hz;
    try discriminate.
  - injection Hz as <-. exists y. auto.
  - exact (IH i z Hz).
Qed.

Lemma pointwise_sub_fwd Q p :
  forall nd nd' n,
    pointwise Q nd nd' -> sub p nd = Some n ->
    exists n', sub p nd' = Some n' /\ Q n (fields_of n') /\
               Forall2 (pointwise Q) (children n) (children n').
Proof.
  induction p as [|i p IH]; intros nd nd' n H Hs.
  - simpl in Hs. injection Hs as <-. exists nd'. destruct H. simpl. auto.
  - destruct H as [f cs f' cs' q all]. simpl in Hs |- *.
    destruct (nth_error cs i) as [c|] eqn:E; [|discriminate].
    destruct (Forall2_nth_error_fwd _ _ _ all i c E) as (c' & -> & Hc).
    exact (IH c c' n Hc Hs).
Qed.

Lemma key_is_ref (c : node) : key c = Some "$ref" -> key_is "$ref" c = true.
Proof. unfold key_is. intros ->. reflexivity. Qed.

(** A pending node below a pending node is not named [$ref] when the walk
    of [render] returns. *)
Lemma render_run_no_deep_reference root up s up' tree s' p n i c :
  Forall (fun n : node => untouched n) (nodes root) ->
  traverse render_visit up root s = Ok ((up', tree), s') ->
  sub p root = Some n -> nth_error (children n) i = Some c ->
  isPending n = true -> placeholder c = true -> False.
Proof.
  intros Un R Hn Hc Pn Pc.
  destruct (render_run root Un _ _ _ _ _ R) as (W & _).
  destruct (pointwise_sub_fwd _ p root tree n W Hn) as (n' & _ & [Q V] & _).
  rewrite Forall_forall in V.
  destruct (V c (nth_error_In _ _ Hc) Pc) as (p0 & e & t & Hp0 & He & _).
  injection Hp0 as <-. simpl in He.
  destruct Q as (_ & _ & _ & _ & _ & _ & _ & _ & _ & Q1 & _).
  rewrite Forall_forall in Un.
  destruct (Un n (sub_nodes p root n Hn)) as (El & _).
  rewrite (proj2 (Q1 Pn) El) in He. discriminate.
Qed.

(** X11.  [render] cannot show a document in which a member named [$ref]
    lies at depth 4 or deeper: the node made for it is pending and so is its
    parent, which therefore has no line whose label could be corrected, and
    the walk throws a [TypeError]. *)
Theorem render_throws_on_deep_reference parse input next root next' p c w :
  create parse input next = Ok (root, next') ->
  sub p root = Some c -> key c = Some "$ref" -> 4 <= depth c ->
  render root w = Throw TypeError.
Proof.
  intros C Hc K D.
  destruct (render root w) as [[tree w']|x] eqn:R;
    [exfalso | rewrite (render_throws _ _ _ R); reflexivity].
  unfold render in R.
  destruct (traverse render_visit None root (w, []))
    as [[[up' tree'] [w1 items]]|y] eqn:T; [|discriminate].
  destruct (create_sub _ _ _ _ _ p c C Hc) as (Dc & Pc & _).
  destruct (exists_last (l := p)) as (p' & i & ->).
  { intros ->. simpl in Dc. lia. }
  destruct (sub_snoc p' i root c Hc) as (n & Hn & Hi).
  destruct (create_sub _ _ _ _ _ p' n C Hn) as (Dn & Pn & _).
  rewrite length_app in Dc. simpl in Dc.
  apply (render_run_no_deep_reference root None (w, []) up' tree' (w1, items)
           p' n i c (create_untouched _ _ _ _ _ C) T Hn Hi).
  - rewrite Pn. apply Nat.ltb_lt. lia.
  - unfold placeholder. rewrite Pc, (key_is_ref c K).
    rewrite andb_true_r. apply Nat.ltb_lt. lia.
Qed.

Lemma render_throws_on_deep_reference_witness :
  exists root next',
    create parse_literal doc_ref_deeper 0 = Ok (root, next') /\
    render root (mkWorld next' 0 []) = Throw TypeError.
Proof.
  destruct (create parse_literal doc_ref_deeper 0) as [[root next']|e] eqn:E;
    [|discriminate E].
  exists root, next'. split; [reflexivity|].
  assert (S : exists c, sub [0; 0; 0; 0] root = Some c /\ key c = Some "$ref" /\
                        4 <= depth c).
  { vm_compute in E. injection E as <- <-. eexists. split; [reflexivity|].
    split; [reflexivity|]. simpl. lia. }
  destruct S as (c & Hc & K & D).
  exact (render_throws_on_deep_reference _ _ _ _ _ _ c _ E Hc K D).
Defined.

(** ** When [render] returns *)




Lemma nodes_sub nd :
  forall n, In n (nodes nd) -> exists p, sub p nd = Some n.
Proof.
  induction nd as [f cs IH] using node_ind. intros n Hn.
  rewrite nodes_unfold in Hn. destruct Hn as [<- | Hn].
  - exists []. reflexivity.
  - apply in_flat_map in Hn. destruct Hn as (c & Hc & Hn).
    rewrite Forall_forall in IH. destruct (IH c Hc n Hn) as (p & Hp).
    destruct (In_nth_error _ _ Hc) as (i & Hi).
    exists (i :: p). simpl. rewrite Hi. exact Hp.
Qed.

Lemma sub_extend p i :
  forall nd n c,
    sub p nd = Some n -> nth_error (children n) i = Some c ->
    sub (p ++ [i]) nd = Some c.
Proof.
  induction p as [|j p IH]; intros nd n c Hn Hc; simpl in Hn |- *.
  - injection Hn as <-. rewrite Hc. reflexivity.
  - destruct (nth_error (children nd) j) as [x|]; [|discriminate].
    exact (IH x n c Hn Hc).
Qed.




(** ** Clicks return *)

Lemma tree_lit_unfold f cs :
  tree_lit (Node f cs) <-> node_lit (Node f cs) /\ Forall tree_lit cs.
Proof.
  unfold tree_lit. rewrite nodes_unfold. split.
  - intros H. inversion H as [|? ? H1 H2]; subst. split; [exact H1|].
    apply Forall_forall. intros c Hc. apply Forall_forall. intros n Hn.
    rewrite Forall_forall in H2. apply H2. apply in_flat_map. eauto.
  - intros [H1 H2]. constructor; [exact H1|].
    apply Forall_forall. intros n Hn. apply in_flat_map in Hn.
    destruct Hn as (c & Hc & Hn). rewrite Forall_forall in H2.
    specialize (H2 c Hc). rewrite Forall_forall in H2. auto.
Qed.

Lemma kin_refl c : kin c c.
Proof. unfold kin. auto. Qed.

Lemma kin_placeholder c c' : kin c c' -> placeholder c' = placeholder c.
Proof.
  intros (K & P & _). unfold placeholder, key_is. rewrite K, P. reflexivity.
Qed.

Lemma node_lit_transfer (f : fields) cs (f' : fields) cs' :
  node_lit (Node f cs) ->
  isPending f' = isPending f -> (has_el f = true -> has_el f' = true) ->
  parsedData f' = parsedData f ->
  Forall2 kin cs cs' ->
  node_lit (Node f' cs').
Proof.
  intros (L & U & R) Pe He Pd F. unfold node_lit. simpl in *.
  split; [|split].
  - intros H. rewrite Pe in H. auto.
  - intros c0' rest' -> P0. inversion F as [|c0 ? rest ? K0 Fr]; subst.
    destruct K0 as (_ & P & _). rewrite P in P0.
    pose proof (U c0 rest eq_refl P0) as Ur.
    clear - Ur Fr. induction Fr as [|x y l l' (_ & Pxy & _) _ IH];
      constructor; inversion Ur; subst; [congruence | auto].
  - intros c0' rest' -> P0. inversion F as [|c0 ? rest ? K0 Fr]; subst.
    pose proof P0 as P0'. rewrite (kin_placeholder _ _ K0) in P0'.
    destruct (R c0 rest eq_refl P0') as (t & Ht). exists t. rewrite <- Ht.
    apply resolveref_ext; [exact Pd|]. simpl. f_equal.
    exact (proj2 (proj2 K0) P0).
Qed.

Lemma with_hidden_keeps b f :
  key (with_hidden b f) = key f /\ value (with_hidden b f) = value f /\
  parsedData (with_hidden b f) = parsedData f.
Proof. unfold with_hidden. destruct (el f); simpl; auto. Qed.

Lemma kin_swept b (c : node) cs' : kin c (Node (with_hidden b c) cs').
Proof.
  unfold kin. simpl. destruct (with_hidden_keeps b c) as (K & V & _).
  rewrite K, V, with_hidden_isPending. auto.
Qed.

Lemma sweep_kin b cs :
  Forall2 kin cs
    (map (fun c : node => Node (with_hidden b c)
                               (if isExpanded c then children (sweep b c)
                                else children c)) cs).
Proof. induction cs; simpl; constructor; [apply kin_swept | assumption]. Qed.

Lemma kin_all_refl cs : Forall2 kin cs cs.
Proof. induction cs; constructor; [apply kin_refl | assumption]. Qed.

Lemma sweep_child_lit b c :
  tree_lit c ->
  tree_lit (Node (with_hidden b c)
                 (if isExpanded c then children (sweep b c) else children c)).
Proof.
  induction c as [g gs IH] using node_ind. intros H.
  apply tree_lit_unfold in H. destruct H as [H1 H2].
  simpl fields_of. simpl children at 2.
  destruct (with_hidden_keeps b g) as (_ & _ & Pd).
  destruct (isExpanded g) eqn:X.
  - rewrite sweep_unfold. simpl children. apply tree_lit_unfold. split.
    + apply (node_lit_transfer g gs);
        [ exact H1
        | apply with_hidden_isPending
        | rewrite with_hidden_has_el; auto
        | exact Pd
        | apply sweep_kin ].
    + apply Forall_forall. intros c' Hc'. apply in_map_iff in Hc'.
      destruct Hc' as (c & <- & Hc). rewrite Forall_forall in IH, H2.
      exact (IH c Hc (H2 c Hc)).
  - apply tree_lit_unfold. split; [|exact H2].
    apply (node_lit_transfer g gs);
      [ exact H1
      | apply with_hidden_isPending
      | rewrite with_hidden_has_el; auto
      | exact Pd
      | apply kin_all_refl ].
Qed.

Lemma sweep_toggled_lit b b' e' (n : node) :
  tree_lit n ->
  tree_lit (Node (set_isExpanded b' (set_el (Some e') n)) (children (sweep b n))).
Proof.
  destruct n as [f cs]. intros H. apply tree_lit_unfold in H.
  destruct H as [H1 H2]. rewrite sweep_unfold. simpl children.
  apply tree_lit_unfold. split.
  - apply (node_lit_transfer f cs);
      [ exact H1 | reflexivity | reflexivity | reflexivity | apply sweep_kin ].
  - apply Forall_forall. intros c' Hc'. apply in_map_iff in Hc'.
    destruct Hc' as (c & <- & Hc). rewrite Forall_forall in H2.
    exact (sweep_child_lit b c (H2 c Hc)).
Qed.

Lemma open_all_lit nd : open_all nd = true -> tree_lit nd.
Proof.
  induction nd as [f cs IH] using node_ind. intros O.
  pose proof O as O'. rewrite open_all_unfold in O'.
  apply andb_prop in O'. destruct O' as [L Ocs].
  rewrite forallb_forall in Ocs.
  assert (Pcs : Forall (fun c : node => isPending c = false) cs).
  { apply Forall_forall. intros c Hc. specialize (Ocs c Hc).
    destruct c as [g gs]. rewrite open_all_unfold in Ocs.
    apply andb_prop in Ocs. destruct Ocs as [Lc _].
    exact (proj1 (proj2 (open_line_facts _ Lc))). }
  apply tree_lit_unfold. split.
  - unfold node_lit. simpl. split; [|split].
    + intros _. exact (proj2 (proj2 (proj2 (open_line_facts _ L)))).
    + intros c0 rest -> _. inversion Pcs; assumption.
    + intros c0 rest -> Pl. inversion Pcs as [|? ? P0 _]; subst.
      unfold placeholder in Pl. rewrite P0 in Pl. discriminate.
  - apply Forall_forall. intros c Hc. rewrite Forall_forall in IH.
    exact (IH c Hc (Ocs c Hc)).
Qed.

Lemma click_lit (n : node) w n' w' :
  tree_ok n -> tree_lit n -> click n w = Ok (n', w') ->
  tree_lit n' /\ kin n n'.
Proof.
  intros T Li H.
  destruct (el n) as [e|] eqn:He.
  2:{ unfold click in H. rewrite He in H. injection H as <- _.
      split; [exact Li | apply kin_refl]. }
  assert (Pn : isPending n = false).
  { destruct (isPending n) eqn:P; [|reflexivity].
    destruct (tree_ok_head _ T) as (Q & _). rewrite (Q P) in He. discriminate. }
  assert (K : forall m : node, iface n m -> kin n m).
  { intros m (Km & Pm & _). unfold kin. split; [exact Km|]. split; [exact Pm|].
    unfold placeholder. rewrite Pm, Pn. discriminate. }
  destruct (content e) as [icon cursor k size|] eqn:Hc.
  2:{ unfold click in H. rewrite He, Hc in H. injection H as <- _.
      split; [exact Li | apply kin_refl]. }
  destruct (hidden e) eqn:Hh.
  { unfold click in H. rewrite He, Hc, Hh in H. injection H as <- _.
    split; [exact Li | apply kin_refl]. }
  destruct (isExpanded n) eqn:X.
  - destruct (click_collapse_ok n e _ _ _ _ w n' w' T X He Hc Hh H)
      as (-> & _ & _ & I).
    split; [apply sweep_toggled_lit; exact Li | exact (K _ I)].
  - destruct (tree_ok_head _ T) as (_ & _ & _ & _ & L).
    destruct (L _ _ _ _ _ He Hc) as [Hne _].
    destruct (children n) as [|c0 rest] eqn:Hcs; [contradiction|].
    destruct (isPending c0) eqn:Hp.
    + destruct (click_materialize_ok n e _ _ _ _ c0 rest w n' w'
                  T X He Hc Hh Hcs Hp H) as (_ & I).
      rewrite (click_caret n e _ _ _ _ He Hc Hh) in H.
      pose proof (toggleNode_materialize n e _ _ _ _ c0 rest w n' w'
                    X He Hc Hcs Hp H) as O.
      split; [exact (open_all_lit _ O) | exact (K _ I)].
    + destruct (click_expand_ok n e _ _ _ _ c0 rest w n' w'
                  T X He Hc Hh Hcs Hp H) as (-> & _ & _ & _ & I).
      split; [apply sweep_toggled_lit; exact Li | exact (K _ I)].
Qed.

Lemma kin_replace_nth cs i c c' :
  nth_error cs i = Some c -> kin c c' ->
  Forall2 kin cs (firstn i cs ++ c' :: skipn (S i) cs).
Proof.
  revert i. induction cs as [|a cs IH]; intros [|i] H I; simpl in *;
    try discriminate.
  - injection H as <-. constructor; [exact I | apply kin_all_refl].
  - constructor; [apply kin_refl | exact (IH i H I)].
Qed.

Lemma at_path_click_lit p :
  forall nd w nd' w',
    tree_ok nd -> tree_lit nd -> at_path click p nd w = Ok (nd', w') ->
    tree_lit nd' /\ kin nd nd'.
Proof.
  induction p as [|i p IH]; intros nd w nd' w' T Li H.
  - exact (click_lit nd w nd' w' T Li H).
  - simpl in H. destruct nd as [f cs]. simpl in H.
    destruct (nth_error cs i) as [c|] eqn:E.
    2:{ injection H as <- _. split; [exact Li | apply kin_refl]. }
    unfold bind in H.
    destruct (at_path click p c w) as [[c' w1]|x] eqn:E1; [|discriminate].
    injection H as <- _.
    apply tree_ok_unfold in T. destruct T as [_ Tcs].
    apply tree_lit_unfold in Li. destruct Li as [L0 Lcs].
    rewrite Forall_forall in Tcs, Lcs.
    destruct (IH c w c' w1 (Tcs c (nth_error_In _ _ E))
                (Lcs c (nth_error_In _ _ E)) E1) as [Lc' Kc].
    split; [|unfold kin; simpl; auto].
    apply tree_lit_unfold. split.
    + apply (node_lit_transfer f cs);
        [ exact L0 | reflexivity | auto | reflexivity
        | exact (kin_replace_nth cs i c c' E Kc) ].
    + apply Forall_forall. intros d Hd.
      destruct (in_replace_nth cs i c' d Hd) as [-> | Hd'];
        [exact Lc' | exact (Lcs d Hd')].
Qed.

Lemma create_uniform parse input next root next' :
  create parse input next = Ok (root, next') ->
  Forall uniform (nodes root).
Proof.
  intros C. apply Forall_forall. intros n Hn c c' Hc Hc'.
  destruct (nodes_sub root n Hn) as (p & Hp).
  destruct (In_nth_error _ _ Hc) as (i & Hi).
  destruct (In_nth_error _ _ Hc') as (j & Hj).
  destruct (create_sub _ _ _ _ _ _ c C (sub_extend p i root n c Hp Hi))
    as (D & P & _).
  destruct (create_sub _ _ _ _ _ _ c' C (sub_extend p j root n c' Hp Hj))
    as (D' & P' & _).
  rewrite P, P', D, D', !length_app. reflexivity.
Qed.

Lemma rendered_lit nd nd' :
  pointwise (with_children rendered counted) nd nd' ->
  Forall uniform (nodes nd) -> tree_lit nd'.
Proof.
  intros H. induction H as [f cs f' cs' [Q V] All IH] using pointwise_ind.
  intros Un. rewrite nodes_unfold in Un.
  inversion Un as [|? ? U0 Ur]; subst.
  destruct Q as (_ & _ & _ & _ & _ & _ & _ & Pe & Pd & _ & Q2).
  simpl in V, Pe, Pd, Q2.
  assert (Kc : Forall2 (fun c c' : node =>
                          key c' = key c /\ isPending c' = isPending c /\
                          value c' = value c) cs cs').
  { clear - All. induction All as [|c c' l l' Hc _ IHl]; constructor; [|exact IHl].
    destruct Hc as [g gs g' gs' [Qc _] _]. simpl.
    destruct Qc as (_ & K & _ & Va & _ & _ & _ & P & _). auto. }
  apply tree_lit_unfold. split.
  - unfold node_lit. simpl. split; [|split].
    + intros H. rewrite Pe in H. destruct (Q2 H) as (e & He & _).
      unfold has_el. rewrite He. reflexivity.
    + intros c0' rest' -> P0. inversion Kc as [|c0 ? rest ? (_ & P & _) Kr]; subst.
      apply Forall_forall. intros c' Hc'.
      destruct (In_nth_error _ _ Hc') as (i & Hi).
      destruct (Forall2_nth_error _ _ _ Kr i c' Hi) as (c & Hci & _ & Pc & _).
      rewrite Pc, <- P0, P. apply (U0 c c0).
      * right. exact (nth_error_In _ _ Hci).
      * left. reflexivity.
    + intros c0' rest' -> Pl. inversion Kc as [|c0 ? rest ? (K & P & Va) _]; subst.
      inversion V as [|? ? V0 _]; subst.
      destruct V0 as (p0 & e & t & Hp0 & _ & Hr).
      { unfold placeholder, key_is in Pl |- *. rewrite K, P in Pl. exact Pl. }
      injection Hp0 as <-. exists t. rewrite <- Hr.
      apply resolveref_ext; [reflexivity|]. simpl. f_equal. exact Va.
  - clear - IH Ur. induction IH as [|c c' l l' Hc _ IHl]; constructor.
    + apply Hc. apply Forall_forall. intros n Hn. rewrite Forall_forall in Ur.
      apply Ur. simpl. apply in_or_app. left. exact Hn.
    + apply IHl. apply Forall_forall. intros n Hn. rewrite Forall_forall in Ur.
      apply Ur. simpl. apply in_or_app. right. exact Hn.
Qed.

Lemma render_establishes_lit parse jsonData w0 tree w :
  renderJSON parse jsonData w0 = Ok (tree, w) -> tree_lit tree.
Proof.
  intros H.
  destruct (renderJSON_run _ _ _ _ _ H)
    as (doc & root & next & up' & w1 & items & _ & C & R & _).
  destruct (render_run root (create_untouched _ _ _ _ _ C) _ _ _ _ _ R)
    as (W & _).
  exact (rendered_lit root tree W (create_uniform _ _ _ _ _ C)).
Qed.

Lemma reachable_lit parse jsonData tree w :
  reachable parse jsonData tree w -> tree_lit tree.
Proof.
  induction 1 as [w0 tree w H | tree w p tree' w' R IH H].
  - exact (render_establishes_lit parse jsonData w0 tree w H).
  - exact (proj1 (at_path_click_lit p tree w tree' w'
                    (reachable_ok _ _ _ _ R) IH H)).
Qed.

Lemma lit_reach_el (n : node) c0 rest :
  tree_ok n -> tree_lit n ->
  children n = c0 :: rest -> isPending c0 = false ->
  reach_el n = true.
Proof.
  intros T Li Hcs P0. destruct n as [f cs]. simpl in Hcs. subst cs.
  apply tree_ok_unfold in T. destruct T as [_ Tcs].
  apply tree_lit_unfold in Li. destruct Li as [(_ & U & _) Lcs].
  pose proof (U c0 rest eq_refl P0) as Ur.
  assert (Pcs : Forall (fun c : node => isPending c = false) (c0 :: rest))
    by (constructor; assumption).
  change (forallb (fun c : node => has_el c &&
                     if isExpanded c then reach_el c else true) (c0 :: rest)
          = true).
  apply forallb_forall. intros c Hc.
  rewrite Forall_forall in Tcs, Lcs, Pcs.
  pose proof (Lcs c Hc) as Lc. destruct c as [g gs].
  apply tree_lit_unfold in Lc. destruct Lc as [(Lg & _) _].
  simpl in Lg. cbn [fields_of]. rewrite (Lg (Pcs _ Hc)). cbn [andb].
  destruct (isExpanded g) eqn:X; [|reflexivity].
  exact (tree_ok_reach_el _ (Tcs _ Hc) X).
Qed.

Lemma click_returns (n : node) w :
  tree_ok n -> tree_lit n -> exists n' w', click n w = Ok (n', w').
Proof.
  intros T Li.
  destruct (el n) as [e|] eqn:He.
  2:{ unfold click. rewrite He. eexists _, _. reflexivity. }
  destruct (content e) as [icon cursor k size|] eqn:Hc.
  2:{ unfold click. rewrite He, Hc. eexists _, _. reflexivity. }
  destruct (hidden e) eqn:Hh.
  { unfold click. rewrite He, Hc, Hh. eexists _, _. reflexivity. }
  rewrite (click_caret n e _ _ _ _ He Hc Hh).
  destruct (tree_ok_head _ T) as (_ & _ & _ & _ & L).
  destruct (L _ _ _ _ _ He Hc) as [Hne _].
  destruct (isExpanded n) eqn:X.
  - rewrite (toggleNode_collapse n e _ _ _ _ w X He Hc Hne).
    rewrite (tree_ok_reach_el _ T X). eexists _, _. reflexivity.
  - destruct (children n) as [|c0 rest] eqn:Hcs; [contradiction|].
    destruct (isPending c0) eqn:Hp.
    + destruct n as [f cs]. simpl in X, He, Hcs. subst cs.
      apply (toggleNode_materialize_returns f e _ _ _ _ c0 rest w X He Hc Hp).
      destruct (key_is "$ref" c0) eqn:K; [right | left; reflexivity].
      apply tree_lit_unfold in Li. destruct Li as [(_ & _ & R) _].
      apply (R c0 rest eq_refl). unfold placeholder. rewrite Hp, K. reflexivity.
    + rewrite (toggleNode_expand n e _ _ _ _ c0 rest w X He Hc Hcs Hp).
      rewrite (lit_reach_el n c0 rest T Li Hcs Hp). eexists _, _. reflexivity.
Qed.

Lemma at_path_click_returns p :
  forall nd w,
    tree_ok nd -> tree_lit nd ->
    exists nd' w', at_path click p nd w = Ok (nd', w').
Proof.
  induction p as [|i p IH]; intros nd w T Li.
  - exact (click_returns nd w T Li).
  - simpl. destruct (nth_error (children nd) i) as [c|] eqn:E;
      [|eexists _, _; reflexivity].
    destruct nd as [f cs]. simpl in E.
    apply tree_ok_unfold in T. destruct T as [_ Tcs].
    apply tree_lit_unfold in Li. destruct Li as [_ Lcs].
    rewrite Forall_forall in Tcs, Lcs.
    destruct (IH c w (Tcs c (nth_error_In _ _ E)) (Lcs c (nth_error_In _ _ E)))
      as (c' & w1 & E1).
    unfold bind. rewrite E1. eexists _, _. reflexivity.
Qed.

(** X13.  Once [renderJSON] has returned, no click throws: whatever nodes
    the user clicks, and in whatever order, every [toggleNode] runs to its
    end. *)
Theorem clicks_never_throw parse jsonData ps :
  forall tree w,
    reachable parse jsonData tree w ->
    exists tree' w', clicks ps tree w = Ok (tree', w').
Proof.
  induction ps as [|p ps IH]; intros tree w R.
  - eexists _, _. reflexivity.
  - simpl. unfold bind.
    destruct (at_path_click_returns p tree w (reachable_ok _ _ _ _ R)
                (reachable_lit _ _ _ _ R)) as (t1 & w1 & E).
    rewrite E.
    exact (IH t1 w1 (@reach_click parse jsonData tree w p t1 w1 R E)).
Qed.

Lemma clicks_never_throw_witness :
  exists tree w tree' w',
    renderJSON parse_literal doc_ref_deep blank = Ok (tree, w) /\
    clicks [[]; [0]; [0; 0]; [0; 0]; [1]; []] tree w = Ok (tree', w').
Proof.
  destruct (renderJSON parse_literal doc_ref_deep blank) as [[tree w]|e] eqn:E;
    [|vm_compute in E; discriminate E].
  destruct (clicks_never_throw parse_literal doc_ref_deep
              [[]; [0]; [0; 0]; [0; 0]; [1]; []] tree w
              (@reach_render parse_literal doc_ref_deep blank tree w E))
    as (tree' & w' & C).
  exists tree, w, tree', w'. split; [reflexivity | exact C].
Defined.

(** ** Disposal *)

Lemma forEach_dispose cs :
  Forall (fun c => forall released,
              walk dispose_visit c released
              = Ok (c, released ++ flat_map (fun n : node => handle_of n) (nodes c)))
         cs ->
  forall released,
    forEach (walk dispose_visit) cs released
    = Ok (cs, released
              ++ flat_map (fun n : node => handle_of n) (flat_map nodes cs)).
Proof.
  induction 1 as [|c r Hc _ IH]; intros released; simpl.
  - rewrite List.app_nil_r. reflexivity.
  - unfold bind. rewrite Hc, IH. unfold ret.
    rewrite flat_map_app, app_assoc. reflexivity.
Qed.

Lemma walk_dispose nd :
  forall released,
    walk dispose_visit nd released
    = Ok (nd, released ++ flat_map (fun n : node => handle_of n) (nodes nd)).
Proof.
  induction nd as [f cs IH] using node_ind. intros released.
  simpl walk. unfold bind at 1. unfold dispose_visit at 1.
  unfold bind at 1. rewrite (forEach_dispose cs IH). unfold ret.
  rewrite nodes_unfold. simpl flat_map. rewrite app_assoc.
  unfold handle_of at 2. simpl. destruct (dispose f); simpl;
    rewrite ?List.app_nil_r; reflexivity.
Qed.

Lemma is_line_attached u d : is_line u d = true -> attached u d = true.
Proof. destruct d; simpl; [auto | discriminate]. Qed.

Lemma detach_holder_absent u d :
  attached u d = false -> detach_holder u d = [d].
Proof.
  induction d as [u'|items IH] using dom_ind; intros H; [reflexivity|].
  simpl in H |- *.
  assert (A : forall x, In x items -> attached u x = false).
  { intros x Hx. destruct (attached u x) eqn:E; [|reflexivity].
    rewrite <- H. symmetry. apply existsb_exists. eauto. }
  assert (L : existsb (is_line u) items = false).
  { destruct (existsb (is_line u) items) eqn:E; [|reflexivity].
    apply existsb_exists in E. destruct E as (x & Hx & Hl).
    rewrite <- (A x Hx). symmetry. exact (is_line_attached u x Hl). }
  rewrite L. repeat f_equal.
  clear H L. induction IH as [|x r Hx _ IHr]; [reflexivity|].
  simpl. rewrite (Hx (A x (or_introl eq_refl))), IHr; [reflexivity|].
  intros y Hy. apply A. right. exact Hy.
Qed.

Lemma detach_holder_page u items :
  existsb (attached u) items = false ->
  flat_map (detach_holder u) items = items.
Proof.
  induction items as [|d r IH]; [reflexivity|]. simpl.
  intros H. apply orb_false_elim in H. destruct H as [Hd Hr].
  rewrite (detach_holder_absent u d Hd), (IH Hr). reflexivity.
Qed.

Lemma pointwise_nodes Q nd nd' :
  pointwise Q nd nd' ->
  Forall (fun n' : node =>
            exists n : node, In n (nodes nd) /\ Q n (fields_of n') /\
                             Forall2 (pointwise Q) (children n) (children n'))
         (nodes nd').
Proof.
  intros H. apply Forall_forall. intros n' Hn'.
  destruct (nodes_sub nd' n' Hn') as (p & Hp).
  destruct (pointwise_sub Q p nd nd' n' H Hp) as (n & Hn & A & B).
  exists n. split; [exact (sub_nodes p nd n Hn) | auto].
Qed.

Lemma flat_map_ext_in {A B} (g h : A -> list B) l :
  (forall a, In a l -> g a = h a) -> flat_map g l = flat_map h l.
Proof.
  induction l as [|a l IH]; intros H; simpl; [reflexivity|].
  rewrite (H a (or_introl eq_refl)), IH; [reflexivity|].
  intros b Hb. apply H. right. exact Hb.
Qed.

(** X14.  [destroy] after [renderJSON].  If the line that [renderJSON] gave
    to the root was not on the page before, [destroy] returns, takes the
    container that [renderJSON] appended off the page again, so that the
    target element holds what it held before, and releases the listeners of
    the lines with a caret, each once and in document order.  On a tree that
    was built and not rendered [destroy] throws a [TypeError], since the
    root has no line. *)
Theorem render_then_destroy parse jsonData w0 tree w :
  renderJSON parse jsonData w0 = Ok (tree, w) ->
  existsb (attached (next_uid w0)) (page w0) = false ->
  destroy tree w
  = Ok (flat_map caret_of (nodes tree),
        mkWorld (next_oid w) (next_uid w) (page w0)) /\
  forall input next root next' w1,
    create parse input next = Ok (root, next') ->
    destroy root w1 = Throw TypeError.
Proof.
  intros H Fresh. split.
  - destruct (renderJSON_run _ _ _ _ _ H)
      as (doc & root & next & up' & w1 & items & _ & C & R & ->).
    pose proof (create_untouched _ _ _ _ _ C) as Un.
    destruct (render_run root Un _ _ _ _ _ R) as (W & _ & S & L & _).
    rewrite render_tick_fold in S. simpl in S, L. injection S as -> Hi.
    unfold destroy. rewrite traverse_local, walk_dispose. simpl.
    pose proof (pointwise_nodes _ _ _ W) as F. rewrite Forall_forall in F.
    rewrite Forall_forall in Un.
    assert (Hd : flat_map (fun n : node => handle_of n) (nodes tree)
                 = flat_map caret_of (nodes tree)).
    { apply flat_map_ext_in. intros n' Hn'.
      destruct (F n' Hn') as (n & Hn & [Q _] & Len).
      destruct (Un n Hn) as (El & Di & _).
      destruct Q as (_ & _ & _ & _ & _ & _ & _ & _ & _ & Q1 & Q2).
      unfold handle_of, caret_of.
      destruct (isPending n) eqn:P.
      - destruct (Q1 eq_refl) as [A B]. rewrite A, Di, (B El). reflexivity.
      - destruct (Q2 eq_refl) as (e & -> & _ & _ & Hc).
        destruct (children n).
        + destruct Hc as (-> & v & t & ->). rewrite Di. reflexivity.
        + destruct Hc as (-> & size & ->). reflexivity. }
    rewrite Hd.
    destruct tree as [f' cs']. rewrite nodes_unfold in L. simpl in L.
    destruct (F (Node f' cs') (or_introl eq_refl)) as (n & Hn & [Q _] & _).
    destruct (create_spec _ _ _ _ _ C)
      as (doc' & f & new & _ & -> & _ & _ & _ & Hpe & _).
    pose proof (pointwise_top _ _ _ W) as [Q0 _]. simpl in Q0.
    destruct Q0 as (_ & _ & _ & _ & _ & _ & _ & _ & _ & _ & Q2).
    destruct (Q2 Hpe) as (e & He & _). simpl in He. simpl. rewrite He.
    unfold line_of in L. simpl in L. rewrite He in L. rewrite Hi in L.
    destruct (filter _ _) as [|x l] eqn:Fl; [discriminate L|].
    simpl in L. injection L as Hu _.
    subst items. simpl length. simpl seq. simpl map. rewrite <- Hu.
    rewrite existsb_app, flat_map_app, Fresh, (detach_holder_page _ _ Fresh).
    simpl. rewrite Nat.eqb_refl. simpl. rewrite List.app_nil_r. reflexivity.
  - intros input next root next' w1 C. unfold destroy.
    rewrite traverse_local, walk_dispose.
    destruct (create_spec _ _ _ _ _ C)
      as (doc' & f & new & _ & -> & _ & _ & _ & _ & El & _).
    simpl. rewrite El. reflexivity.
Qed.

Lemma render_then_destroy_witness :
  exists tree w,
    renderJSON parse_literal doc_flat blank = Ok (tree, w) /\
    destroy tree w = Ok ([0; 2], mkWorld (next_oid w) (next_uid w) []).
Proof.
  destruct (renderJSON parse_literal doc_flat blank) as [[tree w]|e] eqn:E;
    [|discriminate E].
  destruct (render_then_destroy _ _ _ _ _ E eq_refl) as [A _].
  vm_compute in E. injection E as <- <-.
  eexists _, _. split; [reflexivity | exact A].
Defined.

(** ** The rendered tree still mirrors the document *)

Lemma rendered_mirrors nd nd' :
  pointwise (with_children rendered counted) nd nd' ->
  forall v, mirrors v nd -> mirrors v nd'.
Proof.
  intros H. induction H as [f cs f' cs' [Q _] All IH] using pointwise_ind.
  intros v M. apply mirrors_unfold in M. destruct M as (Va & Ty & F).
  destruct Q as (_ & _ & _ & Va' & _ & Ty' & _). simpl in Va', Ty'.
  apply mirrors_unfold. rewrite Va', Ty'. split; [exact Va|]. split; [exact Ty|].
  revert F. generalize (members_of v). clear - All IH.
  induction IH as [|c c' l l' Hc _ IHl]; intros ms F.
  - inversion F; subst. constructor.
  - inversion All as [|? ? ? ? Pc Pl]; subst.
    inversion F as [|kv ? ms' ? [K M] Fr]; subst.
    constructor; [|exact (IHl Pl ms' Fr)].
    split; [|exact (Hc _ M)].
    destruct Pc as [g gs g' gs' [Qc _] _]. simpl in K |- *.
    destruct Qc as (_ & Kc & _). simpl in Kc. rewrite Kc. exact K.
Qed.

(** X15.  [renderJSON] adds no node to the tree, removes none and changes
    no key, value or type: the tree it returns mirrors the parsed document,
    as the tree of [create] does, and its root is named after the type of
    the document. *)
Theorem render_keeps_mirror parse jsonData w0 tree w :
  renderJSON parse jsonData w0 = Ok (tree, w) ->
  exists doc parsed,
    getJsonObject parse jsonData = Ok doc /\
    getJsonObject parse doc = Ok parsed /\
    key tree = Some (getDataType parsed) /\
    mirrors parsed tree.
Proof.
  intros H.
  destruct (renderJSON_run _ _ _ _ _ H)
    as (doc & root & next & up' & w1 & items & G & C & R & _).
  destruct (render_run root (create_untouched _ _ _ _ _ C) _ _ _ _ _ R)
    as (W & _).
  destruct (create_mirror _ _ _ _ _ C) as (parsed & G2 & K & M).
  exists doc, parsed. split; [exact G|]. split; [exact G2|]. split.
  - destruct W as [f cs f' cs' [Q _] _]. simpl in K |- *.
    destruct Q as (_ & Kq & _). simpl in Kq. rewrite Kq. exact K.
  - exact (rendered_mirrors root tree W _ M).
Qed.

Lemma render_keeps_mirror_witness :
  exists tree w,
    renderJSON parse_literal doc_flat blank = Ok (tree, w) /\
    key tree = Some "object" /\ mirrors doc_flat tree.
Proof.
  destruct (renderJSON parse_literal doc_flat blank) as [[tree w]|e] eqn:E;
    [|discriminate E].
  destruct (render_keeps_mirror _ _ _ _ _ E) as (doc & parsed & G & G2 & K & M).
  injection G as <-. injection G2 as <-.
  exists tree, w. split; [reflexivity|]. split; [exact K | exact M].
Defined.

(** ** The page after the first expansion *)

Lemma materialize_tick_fold l :
  forall s,
    fst (fold_left (fun s n => materialize_tick n s) l s)
    = mkWorld (next_oid (fst s)) (next_uid (fst s) + List.length l) (page (fst s)).
Proof.
  induction l as [|n l IH]; intros [w items]; simpl.
  - rewrite Nat.add_0_r. destruct w. reflexivity.
  - rewrite IH. simpl. rewrite Nat.add_succ_r. reflexivity.
Qed.

Lemma materialize_visit_run up (nd : node) s up1 f1 s1 :
  local materialize_visit up nd s = Ok ((up1, f1), s1) ->
  key f1 = key nd /\ True /\ s1 = materialize_tick nd s /\
  snd s1 = snd s ++ attached_line f1 /\
  forall p : node, up = Some p -> exists f'', up1 = Some f'' /\ fields_of p = f''.
Proof.
  unfold local, bind, materialize_visit, materialize_tick, attached_line, ret.
  destruct s as [w items]. unfold createNodeElement, dom_element. simpl.
  intros H. injection H as <- <- <-. simpl.
  assert (K : key (if (0 <? List.length (children nd))%nat
                   then set_dispose (listen (next_uid w)) nd else fields_of nd)
              = key nd)
    by (destruct (0 <? List.length (children nd))%nat; reflexivity).
  split; [exact K|]. split; [exact I|]. split; [reflexivity|]. split.
  - unfold key_is. simpl. rewrite K.
    destruct (match key nd with Some k' => k' =? "$ref" | None => false end);
      simpl; [rewrite List.app_nil_r|]; reflexivity.
  - intros p ->. eexists. split; reflexivity.
Qed.

Lemma walk_materialize_run nd s nd' s' :
  walk materialize_visit nd s = Ok (nd', s') ->
  fst s' = mkWorld (next_oid (fst s)) (next_uid (fst s) + List.length (nodes nd))
             (page (fst s)) /\
  snd s' = snd s ++ flat_map (fun n : node => attached_line n) (nodes nd').
Proof.
  intros H.
  assert (T : traverse (local materialize_visit) None nd s = Ok ((None, nd'), s'))
    by (rewrite traverse_local, H; reflexivity).
  destruct (traverse_run (world * list dom) dom (local materialize_visit)
              (fun _ => True) (fun (n : node) (f1 : fields) => key f1 = key n)
              (fun _ _ => True) (fun f f' : fields => f = f')
              materialize_tick (fun s => snd s) attached_line) with
    (nd := nd) (up := @None node) (s := s) (up' := @None fields) (nd' := nd') (s' := s')
    as (_ & _ & S & L & _).
  - reflexivity.
  - intros f g h -> ->. reflexivity.
  - intros n f f' Hq <-. exact Hq.
  - auto.
  - intros f f' <-. reflexivity.
  - intros up n s0 up1 f1 s1 _ E. exact (materialize_visit_run up n s0 up1 f1 s1 E).
  - apply Forall_forall. auto.
  - exact T.
  - split; [|exact L]. rewrite S. apply materialize_tick_fold.
Qed.

(** The click that materializes, with what it does to the page. *)
Lemma toggleNode_materialize_world f e icon cursor k size (c0 : node) rest w n1 w1 :
  isExpanded f = false ->
  el f = Some e -> content e = ExpandedLine icon cursor k size ->
  isPending c0 = true ->
  toggleNode (uid e) (Node f (c0 :: rest)) w = Ok (n1, w1) ->
  exists nd2 w2 nd3 w3 items,
    next_uid w2 = next_uid w /\ page w2 = page w /\
    walk materialize_visit nd2 (w2, []) = Ok (nd3, (w3, items)) /\
    w1 = mkWorld (next_oid w3) (next_uid w3)
           (map (replaceWith (uid e) (Container items)) (page w3)) /\
    n1 = set_caret_cursor (uid e) cursor (map_nodes opened nd3).
Proof.
  intros Hx He Hc Hp.
  unfold toggleNode, caret_cursor, set_caret_cursor. simpl.
  rewrite He, Nat.eqb_refl, Hc. simpl. rewrite Hx.
  unfold setCaretIconDown. simpl. unfold bind, lift.
  unfold toggleNode_show, bind. simpl. rewrite Hp.
  match goal with
  | |- match (match (if _ then _ else ret (Node ?g0 _)) w with _ => _ end)
       with _ => _ end = _ -> _ => set (g := g0)
  end.
  assert (Hnd2 : forall nd2 w2,
             (if key_is "$ref" c0
              then fun w0 : world =>
                     match extendNodeElementByRef (Node g (c0 :: rest)) (next_oid w0) with
                     | Ok (nd, next) => Ok (nd, mkWorld next (next_uid w0) (page w0))
                     | Throw x => Throw x
                     end
              else ret (Node g (c0 :: rest))) w = Ok (nd2, w2) ->
             next_uid w2 = next_uid w /\ page w2 = page w).
  { intros nd2 w2. destruct (key_is "$ref" c0).
    - destruct (extendNodeElementByRef (Node g (c0 :: rest)) (next_oid w))
        as [[nd next]|x]; [|discriminate].
      intros H. injection H as _ <-. split; reflexivity.
    - unfold ret. intros H. injection H as _ <-. split; reflexivity. }
  match goal with
  | |- match (match ?x with _ => _ end) with _ => _ end = _ -> _ =>
      destruct x as [[nd2 w2]|x2] eqn:E2; [|discriminate]
  end.
  specialize (Hnd2 nd2 w2 E2).
  rewrite traverse_local.
  destruct (walk materialize_visit nd2 (w2, [])) as [[nd3 [w3 items]]|x] eqn:E3;
    [|discriminate].
  unfold lift at 1.
  destruct (expand nd3) as [nd4|x] eqn:E4; [|discriminate].
  pose proof (created_fresh_all _ _
                (walk_pointwise materialize_visit created
                   materialize_visit_created _ _ _ _ E3)) as F3.
  rewrite (expand_materialized nd3 (fresh_all_materialized nd3 F3)) in E4.
  injection E4 as <-.
  pose proof (fresh_all_opened nd3 F3) as O3.
  destruct (open_all_swept _ O3) as (Sh & R & _).
  unfold lift. rewrite showNodeChildren_sweep, R, (sweep_shown _ Sh).
  unfold ret. intros H. injection H as <- <-.
  exists nd2, w2, nd3, w3, items.
  destruct Hnd2 as [U2 P2]. repeat split; auto.
Qed.

Lemma attached_line_opened (n : node) : attached_line (opened n) = attached_line n.
Proof.
  destruct n as [f cs]. unfold attached_line, line_of, key_is.
  destruct (opened_facts (Node f cs)) as (K & _). rewrite K. simpl.
  destruct (match key f with Some k' => k' =? "$ref" | None => false end);
    [reflexivity|].
  unfold opened, expand_visit, setCaretIconDown. simpl.
  destruct (el f) as [e|] eqn:E; simpl; [|rewrite E; reflexivity].
  destruct (0 <? List.length cs)%nat; simpl; [|reflexivity].
  unfold replace_icon. simpl. destruct (content e); reflexivity.
Qed.

Lemma nodes_map_nodes_flat {B} (g : fields -> list B) (h : node -> fields) nd :
  (forall n : node, g (h n) = g n) ->
  flat_map (fun n : node => g n) (nodes (map_nodes h nd))
  = flat_map (fun n : node => g n) (nodes nd) /\
  List.length (nodes (map_nodes h nd)) = List.length (nodes nd).
Proof.
  intros Hg. induction nd as [f cs IH] using node_ind.
  simpl map_nodes. rewrite !nodes_unfold. simpl flat_map. simpl List.length.
  rewrite Hg.
  assert (G : flat_map (fun n : node => g n) (flat_map nodes (map (map_nodes h) cs))
              = flat_map (fun n : node => g n) (flat_map nodes cs) /\
              List.length (flat_map nodes (map (map_nodes h) cs))
              = List.length (flat_map nodes cs)).
  { induction IH as [|c r [Hc1 Hc2] _ IHr]; [split; reflexivity|].
    destruct IHr as [Hr1 Hr2]. simpl.
    rewrite !flat_map_app, !length_app, Hc1, Hr1, Hc2, Hr2. split; reflexivity. }
  destruct G as [-> ->]. split; reflexivity.
Qed.

Lemma cursor_lines u c nd :
  flat_map (fun n : node => attached_line n) (nodes (set_caret_cursor u c nd))
  = flat_map (fun n : node => attached_line n) (nodes nd) /\
  List.length (nodes (set_caret_cursor u c nd)) = List.length (nodes nd).
Proof.
  unfold set_caret_cursor. destruct (el nd) as [e|] eqn:E; [|split; reflexivity].
  destruct (Nat.eqb (uid e) u); [|split; reflexivity].
  destruct (content e); [|split; reflexivity].
  destruct nd as [f cs]. rewrite !nodes_unfold. simpl in E |- *.
  split; [|reflexivity]. f_equal.
  unfold attached_line, line_of, key_is. simpl. rewrite E. reflexivity.
Qed.

Lemma pointwise_length Q nd nd' :
  pointwise Q nd nd' -> List.length (nodes nd') = List.length (nodes nd).
Proof.
  intros W. induction W as [f cs f' cs' _ All IH] using pointwise_ind.
  rewrite !nodes_unfold. simpl. f_equal.
  clear All. induction IH as [|c c' l l' Hc _ IHl]; [reflexivity|].
  simpl. rewrite !length_app, Hc, IHl. reflexivity.
Qed.

(** X16.  The first expansion of a node whose children are pending puts a
    container in the place of the node's line on the page.  The container
    holds a new line for the node and for every node of its subtree, in
    document order, except the nodes named [$ref]: their lines are created
    but never attached.  Exactly one element is created for each node of
    the subtree. *)
Theorem first_expansion_page (n : node) e icon cursor k size c0 rest w n1 w1 :
  el n = Some e -> content e = ExpandedLine icon cursor k size ->
  hidden e = false -> isExpanded n = false ->
  children n = c0 :: rest -> isPending c0 = true ->
  click n w = Ok (n1, w1) ->
  page w1
  = map (replaceWith (uid e)
           (Container (flat_map (fun m : node => attached_line m) (nodes n1))))
        (page w) /\
  next_uid w1 = next_uid w + List.length (nodes n1) /\
  materialized n1 = true.
Proof.
  intros He Hc Hh Hx Hcs Hp H.
  rewrite (click_caret n e _ _ _ _ He Hc Hh) in H.
  pose proof (toggleNode_materialize n e _ _ _ _ c0 rest w n1 w1
                Hx He Hc Hcs Hp H) as O.
  destruct n as [f cs]. simpl in He, Hx, Hcs. subst cs.
  destruct (toggleNode_materialize_world f e _ _ _ _ c0 rest w n1 w1
              Hx He Hc Hp H)
    as (nd2 & w2 & nd3 & w3 & items & U2 & P2 & W & -> & ->).
  destruct (walk_materialize_run _ _ _ _ W) as (S & L).
  simpl in S, L. subst w3 items.
  destruct (cursor_lines (uid e) cursor (map_nodes opened nd3)) as (C1 & C2).
  destruct (nodes_map_nodes_flat attached_line opened nd3 attached_line_opened)
    as (M1 & M2).
  pose proof (pointwise_length _ _ _
                (walk_pointwise materialize_visit created
                   materialize_visit_created _ _ _ _ W)) as Len.
  rewrite C1, C2, M1, M2, Len. simpl. rewrite U2, P2.
  split; [reflexivity|]. split; [reflexivity|].
  clear - O. revert O.
  generalize (set_caret_cursor (uid e) cursor (map_nodes opened nd3)).
  intros nd. induction nd as [g gs IH] using node_ind. intros O.
  rewrite open_all_unfold in O. apply andb_prop in O. destruct O as [Lg Og].
  pose proof (proj2 (proj2 (proj2 (open_line_facts _ Lg)))) as Hg.
  simpl in Hg |- *. rewrite Hg. simpl.
  apply forallb_forall. intros c Hcin. rewrite forallb_forall in Og.
  rewrite Forall_forall in IH. exact (IH c Hcin (Og c Hcin)).
Qed.

Lemma first_expansion_page_witness :
  exists n w n1 w1,
    pending_sample = Some (n, w) /\
    click n w = Ok (n1, w1) /\
    page w = [Container [Line 0; Line 1; Line 2; Line 3; Line 4]] /\
    page w1 = [Container [Line 0; Line 1;
                          Container [Line 5; Line 6; Line 7]; Line 3; Line 4]].
Proof.
  destruct pending_sample as [[n w]|] eqn:S; [|discriminate S].
  vm_compute in S. injection S as <- <-.
  eexists _, _, _, _. split; [reflexivity|].
  match goal with
  | |- click ?n ?w = Ok (?n1, ?w1) /\ _ =>
      assert (H : click n w = Ok (n1, w1)) by (vm_compute; reflexivity);
      destruct (first_expansion_page n _ _ _ _ _ _ _ w _ _
                  eq_refl eq_refl eq_refl eq_refl eq_refl eq_refl H)
        as (P & _)
  end.
  split; [exact H|]. split; [reflexivity | exact P].
Defined.


(** ** Lines in every reachable state *)




(** ** The label of a node with a reference *)











(** ** The first expansion of a reference *)

Lemma pointwise_mirrors (Q : node -> fields -> Prop) :
  (forall n f', Q n f' ->
                key f' = key n /\ value f' = value n /\ type f' = type n) ->
  forall nd nd', pointwise Q nd nd' -> forall v, mirrors v nd -> mirrors v nd'.
Proof.
  intros HQ nd nd' H.
  induction H as [f cs f' cs' Q0 All IH] using pointwise_ind.
  intros v M. apply mirrors_unfold in M. destruct M as (Va & Ty & F).
  destruct (HQ _ _ Q0) as (_ & Va' & Ty'). simpl in Va', Ty'.
  apply mirrors_unfold. rewrite Va', Ty'. split; [exact Va|]. split; [exact Ty|].
  revert F. generalize (members_of v). clear - HQ All IH.
  induction IH as [|c c' l l' Hc _ IHl]; intros ms F.
  - inversion F; subst. constructor.
  - inversion All as [|? ? ? ? Pc Pl]; subst.
    inversion F as [|kv ? ms' ? [K M] Fr]; subst.
    constructor; [|exact (IHl Pl ms' Fr)].
    split; [|exact (Hc _ M)].
    destruct (HQ _ _ (pointwise_top _ _ _ Pc)) as (Kc & _). rewrite Kc. exact K.
Qed.

Lemma map_nodes_pointwise (h : node -> fields) nd :
  pointwise (fun n f' => f' = h n) nd (map_nodes h nd).
Proof.
  induction nd as [f cs IH] using node_ind. simpl. constructor; [reflexivity|].
  induction IH as [|c r Hc _ IHr]; simpl; constructor; assumption.
Qed.

Lemma created_keeps n f' :
  created n f' -> key f' = key n /\ value f' = value n /\ type f' = type n.
Proof.
  intros (w & e & f & w' & C & ->). unfold createNodeElement, dom_element in C.
  simpl in C. injection C as _ <- _.
  destruct (0 <? List.length (children n))%nat; simpl; auto.
Qed.

Lemma opened_keeps (n : node) :
  key (opened n) = key n /\ value (opened n) = value n /\ type (opened n) = type n.
Proof.
  destruct n as [f cs]. unfold opened, expand_visit, setCaretIconDown. simpl.
  destruct (el f); simpl; [|auto].
  destruct (0 <? List.length cs)%nat; simpl; auto.
Qed.

(** The click that materializes at a placeholder: the reference is
    inlined, and then the walk creates the elements. *)
Lemma toggleNode_materialize_ref f e icon cursor k size (c0 : node) rest w n1 w1 :
  isExpanded f = false ->
  el f = Some e -> content e = ExpandedLine icon cursor k size ->
  placeholder c0 = true ->
  toggleNode (uid e) (Node f (c0 :: rest)) w = Ok (n1, w1) ->
  exists g nd2 next2 nd3 s2 s3,
    parsedData g = parsedData f /\
    extendNodeElementByRef (Node g (c0 :: rest)) (next_oid w) = Ok (nd2, next2) /\
    walk materialize_visit nd2 s2 = Ok (nd3, s3) /\
    n1 = set_caret_cursor (uid e) cursor (map_nodes opened nd3).
Proof.
  intros Hx He Hc Hpl. unfold placeholder in Hpl. apply andb_prop in Hpl.
  destruct Hpl as [Hp Hk].
  unfold toggleNode, caret_cursor, set_caret_cursor. simpl.
  rewrite He, Nat.eqb_refl, Hc. simpl. rewrite Hx.
  unfold setCaretIconDown. simpl. unfold bind, lift.
  unfold toggleNode_show, bind. simpl. rewrite Hp, Hk.
  match goal with
  | |- context [extendNodeElementByRef (Node ?g0 _) _] => set (g := g0)
  end.
  destruct (extendNodeElementByRef (Node g (c0 :: rest)) (next_oid w))
    as [[nd2 next2]|x] eqn:E2; [|discriminate].
  rewrite traverse_local.
  match goal with
  | |- context [walk materialize_visit nd2 ?s] =>
      destruct (walk materialize_visit nd2 s) as [[nd3 [w3 items]]|x] eqn:E3;
        [|discriminate]
  end.
  unfold lift at 1.
  destruct (expand nd3) as [nd4|x] eqn:E4; [|discriminate].
  pose proof (created_fresh_all _ _
                (walk_pointwise materialize_visit created
                   materialize_visit_created _ _ _ _ E3)) as F3.
  rewrite (expand_materialized nd3 (fresh_all_materialized nd3 F3)) in E4.
  injection E4 as <-.
  pose proof (fresh_all_opened nd3 F3) as O3.
  destruct (open_all_swept _ O3) as (Sh & R & _).
  unfold lift. rewrite showNodeChildren_sweep, R, (sweep_shown _ Sh).
  unfold ret. intros H. injection H as <- _.
  eexists g, nd2, next2, nd3, _, _.
  split; [reflexivity|]. split; [exact E2|]. split; [exact E3 | reflexivity].
Qed.

Lemma set_caret_cursor_children u c nd :
  children (set_caret_cursor u c nd) = children nd.
Proof.
  unfold set_caret_cursor. destruct (el nd) as [e|]; [|reflexivity].
  destruct (Nat.eqb (uid e) u); [|reflexivity].
  destruct (content e); reflexivity.
Qed.

Lemma materialized_child_keeps (c c' : node) :
  pointwise created c c' ->
  key (map_nodes opened c') = key c /\ value (map_nodes opened c') = value c /\
  type (map_nodes opened c') = type c /\
  forall doc, mirrors doc c -> mirrors doc (map_nodes opened c').
Proof.
  intros P.
  destruct (created_keeps _ _ (pointwise_top _ _ _ P)) as (K & V & T).
  assert (Top : fields_of (map_nodes opened c') = opened c')
    by (destruct c'; reflexivity).
  destruct (opened_keeps c') as (K' & V' & T').
  rewrite Top, K', V', T', K, V, T.
  split; [reflexivity|split; [reflexivity|split; [reflexivity|]]]. intros doc M.
  apply (pointwise_mirrors (fun n f' => f' = opened n)) with (nd := c').
  - intros m f0 ->. apply opened_keeps.
  - apply map_nodes_pointwise.
  - exact (pointwise_mirrors created created_keeps _ _ P doc M).
Qed.

(** X19.  The first expansion of a node whose first child is a pending
    placeholder resolves the reference: the pointer is followed from the
    document, the placeholder is taken out, the other children stay, and
    behind them the node gets one child for every member of the target, in
    the order of the members, each mirroring its member. *)
Theorem first_expansion_resolves (n : node) e icon cursor k size c0 rest w n1 w1 :
  el n = Some e -> content e = ExpandedLine icon cursor k size ->
  hidden e = false -> isExpanded n = false ->
  children n = c0 :: rest -> placeholder c0 = true ->
  click n w = Ok (n1, w1) ->
  exists target kept new,
    resolveref n = Ok target /\
    children n1 = kept ++ new /\
    Forall2 (fun c c' : node =>
               key c' = key c /\ value c' = value c /\ type c' = type c)
            rest kept /\
    Forall2 stands_for (members_of target) new.
Proof.
  intros He Hc Hh Hx Hcs Hpl H.
  rewrite (click_caret n e _ _ _ _ He Hc Hh) in H.
  destruct n as [f cs]. simpl in He, Hx, Hcs. subst cs.
  destruct (toggleNode_materialize_ref f e _ _ _ _ c0 rest w n1 w1
              Hx He Hc Hpl H)
    as (g & nd2 & next2 & nd3 & s2 & s3 & Pd & E2 & W & ->).
  unfold extendNodeElementByRef in E2.
  destruct (resolveref (Node g (c0 :: rest))) as [target|x] eqn:R;
    [|discriminate]. simpl in E2.
  destruct (createSubnode_mirror false target (Node g (c0 :: rest)) (next_oid w))
    as (new0 & k0 & E & F).
  rewrite E in E2. injection E2 as <- _.
  match type of W with
  | walk _ ?x _ = _ => change x with (Node g (rest ++ new0)) in W
  end.
  pose proof (walk_pointwise materialize_visit created
                materialize_visit_created _ _ _ _ W) as PW.
  inversion PW as [? ? f3 cs3 _ All]; subst.
  rewrite set_caret_cursor_children. simpl children.
  apply Forall2_app_inv_l in All.
  destruct All as (kept3 & new3 & A1 & A2 & ->).
  exists target, (map (map_nodes opened) kept3), (map (map_nodes opened) new3).
  split; [|split; [apply map_app|split]].
  - rewrite <- R. symmetry. apply resolveref_ext; [exact Pd | reflexivity].
  - clear - A1. induction A1 as [|c c' l l' P _ IH]; simpl; constructor;
      [|exact IH].
    destruct (materialized_child_keeps c c' P) as (K & V & T & _). auto.
  - clear - A2 F. revert F. generalize (members_of target).
    induction A2 as [|c c' l l' P _ IH]; intros ms F; simpl.
    + inversion F; subst. constructor.
    + inversion F as [|kv ? ms' ? [K M] Fr]; subst.
      constructor; [|exact (IH ms' Fr)].
      destruct (materialized_child_keeps c c' P) as (K' & _ & _ & Mi).
      split; [rewrite K'; exact K | exact (Mi _ M)].
Qed.

Lemma first_expansion_resolves_witness :
  exists n w n1 w1,
    pending_sample = Some (n, w) /\
    click n w = Ok (n1, w1) /\
    map (fun c : node => key c) (children n) = [Some "$ref"] /\
    map (fun c : node => (key c, value c)) (children n1)
    = [(Some "p", Num 1); (Some "q", Num 2)].
Proof.
  destruct pending_sample as [[n w]|] eqn:S; [|discriminate S].
  vm_compute in S. injection S as <- <-.
  eexists _, _, _, _. split; [reflexivity|].
  match goal with
  | |- click ?n ?w = Ok (?n1, ?w1) /\ _ =>
      assert (H : click n w = Ok (n1, w1)) by (vm_compute; reflexivity);
      destruct (first_expansion_resolves n _ _ _ _ _ _ _ w _ _
                  eq_refl eq_refl eq_refl eq_refl eq_refl eq_refl H)
        as (target & kept & new & R & C & _)
  end.
  split; [exact H|]. split; reflexivity.
Defined.
